(** * Local-to-block-blob upload (package ste) and the list command (package cmd)

    A shallow embedding of [runPrologue], [generateUploadFunc] and [putBlob]
    of the [localToBlockBlob] transfer, and of the [list] command of the
    front end, together with the properties of the chunked transfer
    protocol: tiling of the byte ranges, completion counting, cancellation,
    and the commit of the block list.

    Every goroutine body is a command tree over the operations the code
    performs on the transfer ([prog]): the tree is what the Go function
    does, the handler [exec_op] is what each operation does to the state
    shared by all chunk functions of one transfer.  One chunk function is
    observed through [run_thread] (each of its steps runs in a state the
    other goroutines may have changed in between); the worker pool is the
    interleaving [run_system]. *)

From Stdlib Require Import ZArith Lia List String Ascii Bool.
From stdpp Require Import base tactics option list numbers list_numbers.
Import ListNotations.
Local Open Scope Z_scope.

(** ** Machine integers *)

Module Int.

Definition max_int64 : Z := 2 ^ 63 - 1.
Definition max_int32 : Z := 2 ^ 31 - 1.
Definition max_uint32 : Z := 2 ^ 32 - 1.

(** Conversion to a signed [w]-bit integer, as Go's [int64(x)], [int32(x)]
    and the signed addition do it: two's complement wrap-around. *)
Definition wrap_signed (w : Z) (z : Z) : Z :=
  (z + 2 ^ (w - 1)) mod 2 ^ w - 2 ^ (w - 1).

Definition int64 (z : Z) : Z := wrap_signed 64 z.
Definition int32 (z : Z) : Z := wrap_signed 32 z.
Definition uint32 (z : Z) : Z := z mod 2 ^ 32.

End Int.

(** ** base64.StdEncoding.EncodeToString *)

Module Base64.

Definition alphabet : string :=
  "ABCDEFGHIJKLMNOPQRSTUVWXYZabcdefghijklmnopqrstuvwxyz0123456789+/".

Definition digit (n : N) : ascii :=
  match String.get (N.to_nat n) alphabet with
  | Some c => c
  | None => "="%char
  end.

Definition quad (n : N) (pad : nat) : string :=
  let c0 := digit (n / 262144) in
  let c1 := digit ((n / 4096) mod 64) in
  let c2 := digit ((n / 64) mod 64) in
  let c3 := digit (n mod 64) in
  match pad with
  | O => String c0 (String c1 (String c2 (String c3 EmptyString)))
  | S O => String c0 (String c1 (String c2 (String "=" EmptyString)))
  | _ => String c0 (String c1 (String "=" (String "=" EmptyString)))
  end.

Fixpoint encode_bytes (bs : list N) : string :=
  match bs with
  | [] => EmptyString
  | [a] => quad (a * 65536) 2
  | [a; b] => quad (a * 65536 + b * 256) 1
  | a :: b :: c :: rest =>
      String.append (quad (a * 65536 + b * 256 + c) 0) (encode_bytes rest)
  end%N.

Definition EncodeToString (s : string) : string :=
  encode_bytes (map N_of_ascii (list_ascii_of_string s)).

End Base64.

(** ** Data model *)

Module common.

(** [common.TransferStatus]; the code uses [TransferFailed] and
    [TransferComplete]. *)
Inductive TransferStatus : Type :=
| TransferNotStarted
| TransferInProgress
| TransferComplete
| TransferFailed
| TransferCancelled.

Inductive LogLevel : Type := LogInfo | LogError.

End common.
Import common.

#[global] Instance TransferStatus_eq_dec : EqDecision TransferStatus.
Proof. solve_decision. Defined.

(** The fields of [TransferMsg] the upload reads.  Their Go types are
    declared outside these files; the code converts them with [int64(..)]
    and [uint32(..)] where it uses them, which the model does too. *)
Record TransferMsg : Type := mkTransferMsg {
  Source : string;
  Destination : string;
  SourceSize : Z;
  BlockSize : Z;
  NumChunks : Z
}.

(** The arguments [generateUploadFunc] closes over: what a [ChunkMsg]
    put on the chunk channel stands for. *)
Record ChunkMsg : Type := mkChunkMsg {
  chunkId : Z;
  adjustedChunkSize : Z;
  startIndex : Z
}.

(** The texts passed to [transfer.Log], by format string and arguments. *)
Inductive logmsg : Type :=
| MsgNotPickingUp (chunkId : Z)
| MsgFinalizingCancellation (workerId : Z)
| MsgUploadFailedCancelled (workerId chunkId : Z)
| MsgCancelingTransfer (workerId chunkId startIndex : Z)
| MsgConcluding (workerId chunkId : Z)
| MsgFailedToConclude (workerId chunkId : Z)
| MsgCompleted
| MsgCloseFailed (workerId : Z)
| MsgPutBlobCancelled
| MsgPutBlobFailed
| MsgPutBlobSuccessful
| MsgPutBlobCloseFailed.

(** The state one transfer shares between its prologue and all its chunk
    functions. *)
Record Shared : Type := mkShared {
  cancelled : bool;                  (* TransferContext.Err() != nil *)
  chunksDone : Z;                    (* the counter behind ChunksDone() *)
  status : TransferStatus;
  transfersDone : Z;                 (* calls of TransferDone() *)
  throughput : Z;                    (* jobInfo.JobThroughPut *)
  blockIds : option (list string);   (* None: the nil slice *)
  channel : list ChunkMsg;           (* what was sent on chunkChannel *)
  panicked : bool
}.

Definition set_cancelled (b : bool) (s : Shared) : Shared :=
  mkShared b (chunksDone s) (status s) (transfersDone s) (throughput s)
           (blockIds s) (channel s) (panicked s).
Definition set_chunksDone (v : Z) (s : Shared) : Shared :=
  mkShared (cancelled s) v (status s) (transfersDone s) (throughput s)
           (blockIds s) (channel s) (panicked s).
Definition set_status (v : TransferStatus) (s : Shared) : Shared :=
  mkShared (cancelled s) (chunksDone s) v (transfersDone s) (throughput s)
           (blockIds s) (channel s) (panicked s).
Definition set_transfersDone (v : Z) (s : Shared) : Shared :=
  mkShared (cancelled s) (chunksDone s) (status s) v (throughput s)
           (blockIds s) (channel s) (panicked s).
Definition set_throughput (v : Z) (s : Shared) : Shared :=
  mkShared (cancelled s) (chunksDone s) (status s) (transfersDone s) v
           (blockIds s) (channel s) (panicked s).
Definition set_blockIds (v : option (list string)) (s : Shared) : Shared :=
  mkShared (cancelled s) (chunksDone s) (status s) (transfersDone s)
           (throughput s) v (channel s) (panicked s).
Definition set_channel (v : list ChunkMsg) (s : Shared) : Shared :=
  mkShared (cancelled s) (chunksDone s) (status s) (transfersDone s)
           (throughput s) (blockIds s) v (panicked s).
Definition set_panicked (s : Shared) : Shared :=
  mkShared (cancelled s) (chunksDone s) (status s) (transfersDone s)
           (throughput s) (blockIds s) (channel s) true.

(** ** Operations and command trees *)

(** What the code asks of the transfer, the destination and the source
    file; the index is the type of the answer the code branches on. *)
Inductive op : Type -> Type :=
| NewBlobURL : op unit
| OpenAndMemoryMapFile : op unit
| MakeBlockIds (n : Z) : op unit          (* blockIds = make([]string, n) *)
| Send (m : ChunkMsg) : op unit           (* chunkChannel <- ChunkMsg{..} *)
| CtxErr : op bool                        (* TransferContext.Err() != nil *)
| Log (l : LogLevel) (m : logmsg) : op unit
| ChunksDone : op Z
| TransferDone : op unit
| TransferStatus_ (s : TransferStatus) : op unit
| TransferCancelFunc : op unit
| Unmap : op unit
| Close : op bool                         (* err != nil *)
| NewUUID : op string
| SetBlockId (i : Z) (id : string) : op unit   (* blockIds[i] = id *)
| StageBlock (id : string) (start len : Z) : op bool   (* err != nil *)
| CloseResponse : op unit                 (* if resp != nil { Body.Close() } *)
| UpdateCurrentBytes (n : Z) : op unit
| BlobHttpHeaderAndMetadata : op unit
| CommitBlockList : op bool               (* err != nil *)
| Upload (body : bool) : op bool.         (* body = false: nil body *)

Inductive prog : Type :=
| Ret
| Vis {X : Type} (o : op X) (k : X -> prog)
| Spin       (* a loop that has used up its fuel *)
| Crashed.   (* a run-time panic *)

Declare Scope prog_scope.
Delimit Scope prog_scope with prog.
Bind Scope prog_scope with prog.
Notation "x <- o ;; p" := (Vis o (fun x => p%prog))
  (at level 100, o at next level, right associativity) : prog_scope.
Notation "o ;; p" := (Vis o (fun _ => p%prog))
  (at level 100, right associativity) : prog_scope.

(** Sequential composition: what follows an [if] statement whose
    branches do not return. *)
Fixpoint seq (p q : prog) : prog :=
  match p with
  | Ret => q
  | Vis o k => Vis o (fun x => seq (k x) q)
  | Spin => Spin
  | Crashed => Crashed
  end.

(** What a step shows to an observer. *)
Inductive event : Type :=
| ENewBlobURL
| EOpenAndMemoryMapFile
| EMakeBlockIds (n : Z)
| ESend (m : ChunkMsg)
| ECtxErr (b : bool)
| ELog (l : LogLevel) (m : logmsg)
| EChunksDone (v : Z)
| ETransferDone
| ETransferStatus (s : TransferStatus)
| ETransferCancelFunc
| EUnmap
| EClose (err : bool)
| ENewUUID (u : string)
| ESetBlockId (i : Z) (id : string)
| EStageBlock (id : string) (start len : Z) (err : bool)
| ECloseResponse
| EUpdateCurrentBytes (n : Z)
| EBlobHttpHeaderAndMetadata
| ECommitBlockList (ids : list string) (err : bool)
| EUpload (body : bool) (err : bool)
| EPanic.

(** What the world outside the transfer decides at a step: whether an
    I/O call fails, and the UUID drawn. *)
Record choice : Type := mkChoice {
  io_err : bool;
  fresh : string
}.

(** ** What the operations do *)

(** Modelled from the spec: [TransferMsg.ChunksDone], declared outside
    these files.  The completion counter is incremented atomically and the
    caller reads the value after its own increment; the code compares the
    result with a [uint32]. *)
Definition do_ChunksDone (s : Shared) : Z * Shared :=
  let v := Int.uint32 (chunksDone s + 1) in (v, set_chunksDone v s).

(** Modelled from the spec: [TransferMsg.TransferDone], declared outside
    these files: marks the transfer as done at the job-part level. *)
Definition do_TransferDone (s : Shared) : Shared :=
  set_transfersDone (transfersDone s + 1) s.

(** Modelled from the spec: [TransferMsg.TransferStatus], declared outside
    these files: marks the transfer with the status given. *)
Definition do_TransferStatus (v : TransferStatus) (s : Shared) : Shared :=
  set_status v s.

(** Modelled from the spec: [TransferMsg.TransferCancelFunc], declared
    outside these files: sets the cancellation signal of the transfer,
    which [TransferContext.Err()] then reports. *)
Definition do_TransferCancelFunc (s : Shared) : Shared :=
  set_cancelled true s.

(** Modelled from the spec: [JobThroughPut.updateCurrentBytes], declared
    outside these files: adds the byte length to the throughput counter
    of the job. *)
Definition do_updateCurrentBytes (n : Z) (s : Shared) : Shared :=
  set_throughput (throughput s + n) s.

(** [blockIds[i] = id]: Go panics when [i] is not an index of the slice
    (the nil slice has none). *)
Definition store_blockId (i : Z) (id : string) (s : Shared) : option Shared :=
  match blockIds s with
  | Some l =>
      if (0 <=? i) && (i <? Z.of_nat (length l))
      then Some (set_blockIds (Some (<[Z.to_nat i := id]> l)) s)
      else None
  | None => None
  end.

Definition the_blockIds (s : Shared) : list string :=
  match blockIds s with Some l => l | None => [] end.

(** One operation, run in the shared state [s]; [c] is what the outside
    world decides.  The result is the event shown, the new shared state and
    the answer the code goes on with ([None]: the operation panicked). *)
Definition exec_op {X : Type} (c : choice) (s : Shared) (o : op X)
  : event * Shared * option X :=
  match o in op X return event * Shared * option X with
  | NewBlobURL => (ENewBlobURL, s, Some tt)
  | OpenAndMemoryMapFile => (EOpenAndMemoryMapFile, s, Some tt)
  | MakeBlockIds n =>
      (EMakeBlockIds n,
       set_blockIds (Some (replicate (Z.to_nat n) EmptyString)) s, Some tt)
  | Send m => (ESend m, set_channel (channel s ++ [m]) s, Some tt)
  | CtxErr => (ECtxErr (cancelled s), s, Some (cancelled s))
  | Log l m => (ELog l m, s, Some tt)
  | ChunksDone =>
      let '(v, s') := do_ChunksDone s in (EChunksDone v, s', Some v)
  | TransferDone => (ETransferDone, do_TransferDone s, Some tt)
  | TransferStatus_ v => (ETransferStatus v, do_TransferStatus v s, Some tt)
  | TransferCancelFunc =>
      (ETransferCancelFunc, do_TransferCancelFunc s, Some tt)
  | Unmap => (EUnmap, s, Some tt)
  | Close => (EClose (io_err c), s, Some (io_err c))
  | NewUUID => (ENewUUID (fresh c), s, Some (fresh c))
  | SetBlockId i id =>
      match store_blockId i id s with
      | Some s' => (ESetBlockId i id, s', Some tt)
      | None => (EPanic, set_panicked s, None)
      end
  | StageBlock id start len =>
      (EStageBlock id start len (io_err c), s, Some (io_err c))
  | CloseResponse => (ECloseResponse, s, Some tt)
  | UpdateCurrentBytes n =>
      (EUpdateCurrentBytes n, do_updateCurrentBytes n s, Some tt)
  | BlobHttpHeaderAndMetadata => (EBlobHttpHeaderAndMetadata, s, Some tt)
  | CommitBlockList =>
      (ECommitBlockList (the_blockIds s) (io_err c), s, Some (io_err c))
  | Upload body => (EUpload body (io_err c), s, Some (io_err c))
  end.

Definition resume {X : Type} (k : X -> prog) (a : option X) : prog :=
  match a with
  | Some x => k x
  | None => Crashed
  end.

Definition step (c : choice) (s : Shared) (p : prog)
  : option (event * Shared * prog) :=
  match p with
  | Vis o k => let '(e, s', a) := exec_op c s o in Some (e, s', resume k a)
  | Ret | Spin | Crashed => None
  end.

(** ** The upload, as the code has it *)

Section Upload.

Variable transfer : TransferMsg.

(** The closure [transferDone] of [generateUploadFunc]. *)
Definition transferDone (workerId : Z) : prog :=
  (TransferDone ;;
   Unmap ;;
   err <- Close ;;
   if err then Log LogError (MsgCloseFailed workerId) ;; Ret else Ret)%prog.

(** The counter check that ends the cancelled and the failed path. *)
Definition finalizeIfLast (workerId : Z) : prog :=
  (done <- ChunksDone ;;
   if done =? Int.uint32 (NumChunks transfer) then
     Log LogInfo (MsgFinalizingCancellation workerId) ;;
     transferDone workerId
   else Ret)%prog.

Definition generateUploadFunc (chunkId adjustedChunkSize startIndex : Z)
    (workerId : Z) : prog :=
  let totalNumOfChunks := Int.uint32 (NumChunks transfer) in
  (ctxErr <- CtxErr ;;
   if ctxErr then
     Log LogInfo (MsgNotPickingUp chunkId) ;;
     finalizeIfLast workerId
   else
     (* step 1: generate block ID *)
     blockId <- NewUUID ;;
     let encodedBlockId := Base64.EncodeToString blockId in
     (* step 2: save the block ID into the list of block IDs *)
     SetBlockId chunkId encodedBlockId ;;
     (* step 3: perform put block *)
     err <- StageBlock encodedBlockId startIndex adjustedChunkSize ;;
     if err then
       seq (ctxErr <- CtxErr ;;
            if ctxErr then
              Log LogInfo (MsgUploadFailedCancelled workerId chunkId) ;; Ret
            else
              TransferCancelFunc ;;
              Log LogInfo (MsgCancelingTransfer workerId chunkId startIndex) ;;
              TransferStatus_ TransferFailed ;; Ret)
           (finalizeIfLast workerId)
     else
       CloseResponse ;;
       UpdateCurrentBytes adjustedChunkSize ;;
       (* step 4: check if this is the last chunk *)
       done <- ChunksDone ;;
       if done =? totalNumOfChunks then
         ctxErr <- CtxErr ;;
         if ctxErr then transferDone workerId
         else
           (* step 5: this is the last block, perform EPILOGUE *)
           Log LogInfo (MsgConcluding workerId chunkId) ;;
           BlobHttpHeaderAndMetadata ;;
           err <- CommitBlockList ;;
           if err then
             Log LogError (MsgFailedToConclude workerId chunkId) ;;
             TransferStatus_ TransferFailed ;;
             transferDone workerId
           else
             CloseResponse ;;
             Log LogInfo MsgCompleted ;;
             TransferStatus_ TransferComplete ;;
             transferDone workerId
       else Ret)%prog.

Definition putBlob : prog :=
  (BlobHttpHeaderAndMetadata ;;
   (* take care of empty blobs *)
   err <- Upload (negb (SourceSize transfer =? 0)) ;;
   seq (if err then
          ctxErr <- CtxErr ;;
          if ctxErr then Log LogInfo MsgPutBlobCancelled ;; Ret
          else
            Log LogInfo MsgPutBlobFailed ;;
            TransferStatus_ TransferFailed ;; Ret
        else
          Log LogInfo MsgPutBlobSuccessful ;;
          TransferStatus_ TransferComplete ;; Ret)
       (* updating number of transfers done for job part order *)
       (TransferDone ;;
        seq (if negb (SourceSize transfer =? 0) then
               UpdateCurrentBytes (Int.int64 (SourceSize transfer)) ;;
               Unmap ;;
               err <- Close ;;
               if err then Log LogError MsgPutBlobCloseFailed ;; Ret else Ret
             else Ret)
            (CloseResponse ;; Ret)))%prog.

(** Step 5 of [runPrologue]:
    [for startIndex := int64(0); startIndex < blobSize; startIndex += chunkSize].
    [blockIdCount] is an [int32]. *)
Fixpoint scheduleChunks (fuel : nat) (blobSize chunkSize : Z)
    (startIndex blockIdCount : Z) : prog :=
  match fuel with
  | O => Spin
  | S fuel' =>
      if startIndex <? blobSize then
        let adjustedChunkSize :=
          if Int.int64 (startIndex + chunkSize) >? blobSize
          then Int.int64 (blobSize - startIndex)
          else chunkSize in
        (Send (mkChunkMsg blockIdCount adjustedChunkSize startIndex) ;;
         scheduleChunks fuel' blobSize chunkSize
           (Int.int64 (startIndex + chunkSize))
           (Int.int32 (blockIdCount + 1)))%prog
      else Ret
  end.

Definition runPrologue (fuel : nat) : prog :=
  (* step 1: create pipeline for the destination blob *)
  (NewBlobURL ;;
   (* step 2: get size info from transfer *)
   let blobSize := Int.int64 (SourceSize transfer) in
   let chunkSize := Int.int64 (BlockSize transfer) in
   (* step 3: map in the file to upload before transferring chunks *)
   seq (if blobSize >? 0 then OpenAndMemoryMapFile ;; Ret else Ret)
     (* step 4.a *)
     (if (blobSize =? 0) || (blobSize <=? chunkSize) then putBlob
      else
        (* step 4.b *)
        MakeBlockIds (NumChunks transfer) ;;
        scheduleChunks fuel blobSize chunkSize 0 0))%prog.

End Upload.

(** ** Running *)

(** One observed step of a goroutine: the shared state it ran in, the
    event, and the shared state it left. *)
Record obs : Type := mkObs {
  pre : Shared;
  ev : event;
  post : Shared
}.

(** A goroutine observed on its own.  Between two of its steps the other
    goroutines may have changed the shared state: each step is given the
    state it runs in.  The result is what was observed and what is left of
    the program. *)
Fixpoint run_thread (inputs : list (choice * Shared)) (p : prog)
  : list obs * prog :=
  match inputs with
  | [] => ([], p)
  | (c, s) :: rest =>
      match step c s p with
      | None => ([], p)
      | Some (e, s', p') =>
          let '(t, q) := run_thread rest p' in (mkObs s e s' :: t, q)
      end
  end.

(** A goroutine running alone from the shared state [s]. *)
Fixpoint run_alone (cs : list choice) (s : Shared) (p : prog)
  : list event * Shared * prog :=
  match cs with
  | [] => ([], s, p)
  | c :: rest =>
      match step c s p with
      | None => ([], s, p)
      | Some (e, s', p') =>
          let '(t, s'', q) := run_alone rest s' p' in (e :: t, s'', q)
      end
  end.

Definition events (t : list obs) : list event := map ev t.

Definition init_shared : Shared :=
  mkShared false 0 TransferNotStarted 0 0 None [] false.

(** ** Observing the runs of a command tree *)

(** [forall_runs p P]: [P] holds of what is observed on every run of [p]
    that returns, whatever the outside world decides and whatever shared
    state each step runs in. *)
Fixpoint forall_runs (p : prog) (P : list obs -> Prop) : Prop :=
  match p with
  | Ret => P []
  | Vis o k =>
      forall (c : choice) (s : Shared),
        match exec_op c s o with
        | (e, s', Some x) => forall_runs (k x) (fun t => P (mkObs s e s' :: t))
        | (_, _, None) => True
        end
  | Spin | Crashed => True
  end.

(** [returns_within strict n p]: every run of [p] has returned after at
    most [n] steps; when [strict] is off a run may also have panicked. *)
Fixpoint returns_within (strict : bool) (n : nat) (p : prog) {struct p}
  : Prop :=
  match p with
  | Ret => True
  | Crashed => strict = false
  | Spin => False
  | Vis o k =>
      match n with
      | O => False
      | S n' =>
          forall (c : choice) (s : Shared),
            match exec_op c s o with
            | (_, _, Some x) => returns_within strict n' (k x)
            | (_, _, None) => strict = false
            end
      end
  end.

(** Classes of events. *)
Definition is_io (e : event) : bool :=
  match e with
  | EStageBlock _ _ _ _ | ECommitBlockList _ _ | EUpload _ _ => true
  | _ => false
  end.

Definition is_ChunksDone (e : event) : bool :=
  match e with EChunksDone _ => true | _ => false end.

Definition is_TransferDone (e : event) : bool :=
  match e with ETransferDone => true | _ => false end.

Definition is_Unmap (e : event) : bool :=
  match e with EUnmap => true | _ => false end.

Definition is_Close (e : event) : bool :=
  match e with EClose _ => true | _ => false end.

Definition is_finalize (e : event) : bool :=
  is_TransferDone e || is_Unmap e || is_Close e.

Definition is_cancel (e : event) : bool :=
  match e with ETransferCancelFunc => true | _ => false end.

Definition is_commit (e : event) : bool :=
  match e with ECommitBlockList _ _ => true | _ => false end.

Definition is_upload (e : event) : bool :=
  match e with EUpload _ _ => true | _ => false end.

Definition is_log (e : event) : bool :=
  match e with ELog _ _ => true | _ => false end.

(** The events of the block-list machinery: allocation of the slots, a
    chunk job put on the channel, a slot written, the completion counter,
    the commit. *)
Definition is_blocklist (e : event) : bool :=
  match e with
  | EMakeBlockIds _ | ESend _ | ESetBlockId _ _ | EChunksDone _
  | ECommitBlockList _ _ => true
  | _ => false
  end.

Definition count (f : event -> bool) (t : list obs) : nat :=
  length (List.filter (fun o => f (ev o)) t).

(** What a run read and wrote, in the order of the run. *)
Fixpoint counter_value (t : list obs) : option Z :=
  match t with
  | [] => None
  | o :: t' =>
      match ev o with
      | EChunksDone v => Some v
      | _ => counter_value t'
      end
  end.

Fixpoint stage_result (t : list obs) : option bool :=
  match t with
  | [] => None
  | o :: t' =>
      match ev o with
      | EStageBlock _ _ _ err => Some err
      | _ => stage_result t'
      end
  end.

Fixpoint upload_result (t : list obs) : option (bool * bool) :=
  match t with
  | [] => None
  | o :: t' =>
      match ev o with
      | EUpload body err => Some (body, err)
      | _ => upload_result t'
      end
  end.

Fixpoint commit_result (t : list obs) : option bool :=
  match t with
  | [] => None
  | o :: t' =>
      match ev o with
      | ECommitBlockList _ err => Some err
      | _ => commit_result t'
      end
  end.

Fixpoint ctx_checks (t : list obs) : list bool :=
  match t with
  | [] => []
  | o :: t' =>
      match ev o with
      | ECtxErr b => b :: ctx_checks t'
      | _ => ctx_checks t'
      end
  end.

Fixpoint statuses_set (t : list obs) : list TransferStatus :=
  match t with
  | [] => []
  | o :: t' =>
      match ev o with
      | ETransferStatus v => v :: statuses_set t'
      | _ => statuses_set t'
      end
  end.

Fixpoint throughput_updates (t : list obs) : list Z :=
  match t with
  | [] => []
  | o :: t' =>
      match ev o with
      | EUpdateCurrentBytes n => n :: throughput_updates t'
      | _ => throughput_updates t'
      end
  end.

Fixpoint sent (t : list event) : list ChunkMsg :=
  match t with
  | [] => []
  | ESend m :: t' => m :: sent t'
  | _ :: t' => sent t'
  end.

(** A step keeps the status of the transfer. *)
Definition keeps_status (o : obs) : Prop := status (post o) = status (pre o).

(** A step keeps the throughput counter of the job. *)
Definition keeps_throughput (o : obs) : Prop :=
  throughput (post o) = throughput (pre o).

(** A step moves the completion counter only by [ChunksDone], and then by
    one. *)
Definition counts_properly (o : obs) : Prop :=
  chunksDone (post o) =
    if is_ChunksDone (ev o) then Int.uint32 (chunksDone (pre o) + 1)
    else chunksDone (pre o).

(** A step leaves the completion counter, the slots of the block
    identifiers and the chunk channel as they were. *)
Definition keeps_blocklist (o : obs) : Prop :=
  chunksDone (post o) = chunksDone (pre o) /\
  blockIds (post o) = blockIds (pre o) /\
  channel (post o) = channel (pre o).

(** How the state a step leaves agrees with the event it shows. *)
Definition effect_ok (o : obs) : Prop :=
  match ev o with
  | ECtxErr b => b = cancelled (pre o)
  | ETransferStatus v => status (post o) = v
  | ETransferCancelFunc => cancelled (post o) = true
  | EUpdateCurrentBytes n => throughput (post o) = throughput (pre o) + n
  | ETransferDone => transfersDone (post o) = transfersDone (pre o) + 1
  | EChunksDone v => chunksDone (post o) = v
  | _ => True
  end.

(** The run has finalized: [transferDone()] ran, once. *)
Definition finalized (t : list obs) : Prop :=
  count is_TransferDone t = 1%nat /\
  count is_Unmap t = 1%nat /\
  count is_Close t = 1%nat.

(** The run began while the cancellation signal was set. *)
Definition begins_cancelled (t : list obs) : Prop :=
  exists o, head t = Some o /\ cancelled (pre o) = true.

(** ** Byte ranges *)

Definition ceil_div (a b : Z) : Z := (a + b - 1) / b.

(** The chunk job of index [i] of a source of [blobSize] bytes cut into
    chunks of [chunkSize] bytes. *)
Definition chunk_at (blobSize chunkSize i : Z) : ChunkMsg :=
  mkChunkMsg (Int.int32 i)
             (if (i + 1) * chunkSize >? blobSize
              then blobSize - i * chunkSize else chunkSize)
             (i * chunkSize).

Definition range_of (m : ChunkMsg) : Z * Z :=
  (startIndex m, adjustedChunkSize m).

(** [tiles ranges lo hi]: the ranges [(start, length)], in their order,
    are not empty, each begins where the one before ends, the first begins
    at [lo] and the last ends at [hi]. *)
Fixpoint tiles (ranges : list (Z * Z)) (lo hi : Z) : Prop :=
  match ranges with
  | [] => lo = hi
  | (start, len) :: rest => start = lo /\ 0 < len /\ tiles rest (lo + len) hi
  end.

Definition is_MakeBlockIds (e : event) : bool :=
  match e with EMakeBlockIds _ => true | _ => false end.

Fixpoint slots_made (t : list event) : list Z :=
  match t with
  | [] => []
  | EMakeBlockIds n :: t' => n :: slots_made t'
  | _ :: t' => slots_made t'
  end.

(** What the steps of the prologue do to the shared state. *)
Definition prologue_effect (o : obs) : Prop :=
  post o =
    match ev o with
    | ESend m => set_channel (channel (pre o) ++ [m]) (pre o)
    | EMakeBlockIds k =>
        set_blockIds (Some (replicate (Z.to_nat k) EmptyString)) (pre o)
    | _ => pre o
    end.

(** The steps of [t] follow one another with nothing in between: they lead
    from the state [s] to the state [s']. *)
Fixpoint chained (s : Shared) (t : list obs) (s' : Shared) : Prop :=
  match t with
  | [] => s = s'
  | o :: rest => pre o = s /\ chained (post o) rest s'
  end.

(** ** The worker pool *)

(** The chunk functions of one transfer, run by the workers of the pool.
    [threads] holds what is left of each chunk function, by the position
    of its chunk job on the channel; [trace] is what happened, the latest
    event first, each with the position of the chunk function that did
    it. *)
Record System : Type := mkSystem {
  shared : Shared;
  threads : list prog;
  trace : list (nat * event)
}.

(** A step of the pool: some worker runs the next operation of the chunk
    function [tid], or the transfer is cancelled from outside (the job is
    cancelled). *)
Inductive action : Type :=
| Run (tid : nat) (c : choice)
| Cancel.

(** A panic of one goroutine ends the process: nothing steps after it. *)
Definition sys_step (a : action) (sys : System) : System :=
  if panicked (shared sys) then sys
  else
    match a with
    | Cancel =>
        mkSystem (set_cancelled true (shared sys)) (threads sys) (trace sys)
    | Run tid c =>
        match threads sys !! tid with
        | Some p =>
            match step c (shared sys) p with
            | Some (e, s', p') =>
                mkSystem s' (<[tid := p']> (threads sys))
                         ((tid, e) :: trace sys)
            | None => sys
            end
        | None => sys
        end
    end.

Definition run_system (sched : list action) (sys : System) : System :=
  fold_left (fun s a => sys_step a s) sched sys.

(** The chunk jobs on the channel, each taken by a worker; [workerOf]
    names the worker of each job. *)
Definition start_workers (tr : TransferMsg) (workerOf : nat -> Z)
    (s : Shared) : System :=
  mkSystem s
    (imap (fun i m => generateUploadFunc tr (chunkId m) (adjustedChunkSize m)
                        (startIndex m) (workerOf i))
          (channel s))
    [].

Definition all_returned (sys : System) : Prop :=
  Forall (fun p => p = Ret) (threads sys).

(** Events of the chunk function [tid] in a trace. *)
Definition count_of (tid : nat) (f : event -> bool)
    (tr : list (nat * event)) : nat :=
  length (List.filter (fun x => Nat.eqb (fst x) tid && f (snd x)) tr).

Definition count_all (f : event -> bool) (tr : list (nat * event)) : nat :=
  length (List.filter (fun x => f (snd x)) tr).

(** ** The protocol of a chunk function *)

(** Where a chunk function stands.  [u] is the UUID it drew, [w] the block
    identifier it stored in its slot ([None]: it found the transfer
    cancelled and stored none). *)
Inductive mode : Type :=
| MStart
| MWill (u : option string)
| MPend (w : option string)
| MFinal (w : option string)
| MCommitting (w : option string)
| MCommitted (w : option string)
| MQuiet (fin : bool) (w : option string).

(** The mode after operation [o] answered [x] in mode [m]; [None] when
    the protocol has no such step.  [total] is the number of chunks, [i]
    the index of the chunk. *)
Definition next (total i : Z) (m : mode) {X : Type} (o : op X)
  : X -> option mode :=
  match o in op X return X -> option mode with
  | CtxErr => fun b =>
      match m with
      | MStart => Some (if b then MPend None else MWill None)
      | MFinal w => Some (if b then MFinal w else MCommitting w)
      | MWill _ | MCommitting _ | MCommitted _ => None
      | _ => Some m
      end
  | NewUUID => fun u =>
      match m with
      | MWill None => Some (MWill (Some u))
      | _ => None
      end
  | SetBlockId j id => fun _ =>
      match m with
      | MWill (Some u) =>
          if (j =? i) && String.eqb id (Base64.EncodeToString u)
          then Some (MPend (Some id)) else None
      | _ => None
      end
  | ChunksDone => fun v =>
      match m with
      | MPend w => Some (if v =? total then MFinal w else MQuiet false w)
      | _ => None
      end
  | TransferDone => fun _ =>
      match m with
      | MFinal w | MCommitted w => Some (MQuiet true w)
      | _ => None
      end
  | CommitBlockList => fun _ =>
      match m with
      | MCommitting w => Some (MCommitted w)
      | _ => None
      end
  | NewBlobURL | OpenAndMemoryMapFile | MakeBlockIds _ | Send _ | Upload _ =>
      fun _ => None
  | Log _ _ | TransferStatus_ _ | TransferCancelFunc | Unmap | Close
  | StageBlock _ _ _ | CloseResponse | UpdateCurrentBytes _
  | BlobHttpHeaderAndMetadata =>
      fun _ => match m with MStart => None | _ => Some m end
  end.

(** [follows total i m p]: the program [p] keeps to the protocol from the
    mode [m] on, whatever it is answered. *)
Fixpoint follows (total i : Z) (m : mode) (p : prog) : Prop :=
  match p with
  | Ret => match m with MQuiet _ _ => True | _ => False end
  | Vis o k =>
      forall x,
        match next total i m o x with
        | Some m' => follows total i m' (k x)
        | None => False
        end
  | Spin | Crashed => False
  end.

Definition past_counter (m : mode) : bool :=
  match m with
  | MFinal _ | MCommitting _ | MCommitted _ | MQuiet _ _ => true
  | _ => false
  end.

(** The chunk function got the last value of the counter and has not yet
    called [TransferDone]. *)
Definition owes_done (m : mode) : bool :=
  match m with
  | MFinal _ | MCommitting _ | MCommitted _ => true
  | _ => false
  end.

Definition may_commit (m : mode) : bool :=
  match m with
  | MFinal _ | MCommitting _ => true
  | _ => false
  end.

Definition has_finalized (m : mode) : bool :=
  match m with
  | MQuiet true _ => true
  | _ => false
  end.

Definition got_last (m : mode) : bool := owes_done m || has_finalized m.

Definition is_committing (m : mode) : bool :=
  match m with
  | MCommitting _ => true
  | _ => false
  end.

(** The block identifier the chunk function has stored. *)
Definition stored (m : mode) : option string :=
  match m with
  | MPend w | MFinal w | MCommitting w | MCommitted w | MQuiet _ w => w
  | _ => None
  end.

(** The chunk function found the transfer cancelled and stored nothing. *)
Definition skipped (m : mode) : bool :=
  match m with
  | MPend None | MFinal None | MCommitting None | MCommitted None
  | MQuiet _ None => true
  | _ => false
  end.

Definition cnt (P : mode -> bool) (ms : list mode) : Z :=
  Z.of_nat (length (List.filter P ms)).

Definition b2z (b : bool) : Z := if b then 1 else 0.

(** Events that move no chunk function along the protocol. *)
Definition neutral (e : event) : bool :=
  match e with
  | ECtxErr _ | ELog _ _ | ETransferStatus _ | ETransferCancelFunc | EUnmap
  | EClose _ | EStageBlock _ _ _ _ | ECloseResponse | EUpdateCurrentBytes _
  | EBlobHttpHeaderAndMetadata => true
  | _ => false
  end.

Definition same_core (s s' : Shared) : Prop :=
  chunksDone s' = chunksDone s /\
  blockIds s' = blockIds s /\
  panicked s' = panicked s /\
  (cancelled s = true -> cancelled s' = true).

(** The steps of the protocol: the chunk function of index [i] goes from
    mode [m] to mode [m'] with the event [e], and the shared state from
    [s] to [s']. *)
Inductive transition (total i : Z)
  : mode -> Shared -> event -> Shared -> mode -> Prop :=
| T_neutral m s e s' :
    m <> MStart -> neutral e = true -> same_core s s' ->
    transition total i m s e s' m
| T_start_cancelled s :
    cancelled s = true ->
    transition total i MStart s (ECtxErr true) s (MPend None)
| T_start s :
    cancelled s = false ->
    transition total i MStart s (ECtxErr false) s (MWill None)
| T_uuid s u :
    transition total i (MWill None) s (ENewUUID u) s (MWill (Some u))
| T_store s u l :
    blockIds s = Some l -> 0 <= i < Z.of_nat (length l) ->
    transition total i (MWill (Some u)) s
      (ESetBlockId i (Base64.EncodeToString u))
      (set_blockIds (Some (<[Z.to_nat i := Base64.EncodeToString u]> l)) s)
      (MPend (Some (Base64.EncodeToString u)))
| T_count_last s w :
    Int.uint32 (chunksDone s + 1) = total ->
    transition total i (MPend w) s (EChunksDone total)
      (set_chunksDone total s) (MFinal w)
| T_count s w v :
    v = Int.uint32 (chunksDone s + 1) -> v <> total ->
    transition total i (MPend w) s (EChunksDone v)
      (set_chunksDone v s) (MQuiet false w)
| T_check s w :
    cancelled s = false ->
    transition total i (MFinal w) s (ECtxErr false) s (MCommitting w)
| T_commit s w err :
    transition total i (MCommitting w) s
      (ECommitBlockList (the_blockIds s) err) s (MCommitted w)
| T_done_cancelled s w :
    transition total i (MFinal w) s ETransferDone (do_TransferDone s)
      (MQuiet true w)
| T_done s w :
    transition total i (MCommitted w) s ETransferDone (do_TransferDone s)
      (MQuiet true w).

(** Every chunk function is past the counter and has stored its block
    identifier. *)
Definition all_stored (ms : list mode) : Prop :=
  forall tid m, ms !! tid = Some m ->
    past_counter m = true /\ is_Some (stored m).

(** What holds of the modes [ms] of the chunk functions, the shared state
    and the trace, whatever the interleaving. *)
Record Inv (total : Z) (s : Shared) (ms : list mode)
    (tr : list (nat * event)) : Prop := mkInv {
  inv_len : Z.of_nat (length ms) = total;
  inv_range : total <= Int.max_uint32;
  inv_alive : panicked s = false;
  inv_counter : chunksDone s = cnt past_counter ms;
  inv_last : cnt got_last ms = (if chunksDone s =? total then 1 else 0);
  inv_done : Z.of_nat (count_all is_TransferDone tr) = cnt has_finalized ms;
  inv_commits :
    Z.of_nat (count_all is_commit tr) + cnt may_commit ms <= cnt got_last ms;
  inv_skipped :
    forall tid m, ms !! tid = Some m -> skipped m = true ->
      cancelled s = true;
  inv_slots : exists l, blockIds s = Some l /\ length l = length ms;
  inv_stored :
    forall tid m id, ms !! tid = Some m -> stored m = Some id ->
      the_blockIds s !! tid = Some id /\
      exists u, id = Base64.EncodeToString u /\ (tid, ENewUUID u) ∈ tr;
  inv_drawn :
    forall tid u, (tid, ENewUUID u) ∈ tr ->
      exists m, ms !! tid = Some m /\
        (m = MWill (Some u) \/ stored m = Some (Base64.EncodeToString u));
  inv_will :
    forall tid u, ms !! tid = Some (MWill (Some u)) ->
      (tid, ENewUUID u) ∈ tr;
  inv_committing :
    forall tid m, ms !! tid = Some m -> is_committing m = true ->
      all_stored ms;
  inv_committed :
    forall tid ids err, (tid, ECommitBlockList ids err) ∈ tr ->
      ids = the_blockIds s /\ all_stored ms;
  inv_counted :
    forall tid m, ms !! tid = Some m ->
      count_of tid is_ChunksDone tr = (if past_counter m then 1 else 0)%nat;
  inv_last_by :
    forall tid, (tid, EChunksDone total) ∈ tr <->
      exists m, ms !! tid = Some m /\ got_last m = true;
  inv_done_by :
    forall tid, (tid, ETransferDone) ∈ tr ->
      exists m, ms !! tid = Some m /\ has_finalized m = true;
  inv_commit_by :
    forall tid ids err, (tid, ECommitBlockList ids err) ∈ tr ->
      exists m, ms !! tid = Some m /\ got_last m = true;
  inv_no_panic : forall tid, (tid, EPanic) ∉ tr;
  inv_tids : forall tid e, (tid, e) ∈ tr -> (tid < length ms)%nat
}.

(** The modes fit the chunk functions of the system. *)
Definition fits (total : Z) (ms : list mode) (ps : list prog) : Prop :=
  length ps = length ms /\
  forall tid m p, ms !! tid = Some m -> ps !! tid = Some p ->
    follows total (Z.of_nat tid) m p.

(** The invariant of the pool: some modes fit the chunk functions and
    satisfy [Inv]. *)
Definition SysInv (total : Z) (sys : System) : Prop :=
  exists ms, fits total ms (threads sys) /\
             Inv total (shared sys) ms (trace sys).

(** A transfer that takes the chunked path: its source is larger than one
    chunk, the sizes are [int64] values whose sum does not overflow, its
    [NumChunks] is the number of chunks of its source, and the chunk
    indices fit the [int32] the prologue counts them with. *)
Definition chunked_transfer (tr : TransferMsg) : Prop :=
  let blobSize := Int.int64 (SourceSize tr) in
  let chunkSize := Int.int64 (BlockSize tr) in
  0 < chunkSize /\ chunkSize < blobSize /\
  blobSize + chunkSize <= Int.max_int64 /\
  NumChunks tr = ceil_div blobSize chunkSize /\
  ceil_div blobSize chunkSize <= 2 ^ 31.

(** The shared state of a transfer whose prologue has not run. *)
Definition untouched (s : Shared) : Prop :=
  channel s = [] /\ chunksDone s = 0 /\ panicked s = false.

(** The shared state the prologue of a chunked transfer leaves: one chunk
    job per chunk, indexed by its position, one slot per chunk, and the
    completion counter at 0. *)
Definition chunked_start (tr : TransferMsg) (s : Shared) : Prop :=
  let total := Int.uint32 (NumChunks tr) in
  Z.of_nat (length (channel s)) = total /\ 0 < total /\
  (forall i m, channel s !! i = Some m -> chunkId m = Z.of_nat i) /\
  (exists l, blockIds s = Some l /\ length l = length (channel s)) /\
  chunksDone s = 0 /\ panicked s = false.

(** ** The list command (package cmd) *)

Module cmd.

Section ListCommand.

(** [common.JobID], its zero value, [common.EmptyJobId],
    [common.ParseJobID] ([None]: it returns an error),
    [common.TransferStatusStringToCode] and [common.Rpc] are declared
    outside these files: the command is modelled over them. *)
Context {JobID : Type} {JobID_eq : EqDecision JobID}.
Variable zeroJobID : JobID.
Variable EmptyJobId : JobID.
Variable ParseJobID : string -> option JobID.
Variable TransferStatusStringToCode : string -> Z.
Variable Rpc : string -> JobID * string -> string.

(** [common.ListRequest]. *)
Record ListRequest : Type := mkListRequest {
  JobId : JobID;
  OfStatus : string
}.

Definition MaxUint32 : Z := 2 ^ 32 - 1.

(** What the command does that can be seen from outside. *)
Inductive cli_event : Type :=
| FmtPrint (text : string)
| RpcCall (name : string) (request : ListRequest)
| PrintExistingJobIds (response : string)
| PrintJobProgressSummary (response : string)
| PrintJobTransfers (response : string).

Definition call (name : string) (input : ListRequest) : string :=
  Rpc name (JobId input, OfStatus input).

Definition HandleListCommand (commandLineInput : ListRequest)
  : list cli_event :=
  (* check whether ofstatus transfer status is valid or not *)
  if negb (String.eqb (OfStatus commandLineInput) "") &&
     (TransferStatusStringToCode (OfStatus commandLineInput) =? MaxUint32)
  then
    [FmtPrint "invalid transfer status passed. Please provide the correct transfer status flag"]
  else if bool_decide (JobId commandLineInput = EmptyJobId) then
    [RpcCall "listJobs" commandLineInput;
     PrintExistingJobIds (call "listJobs" commandLineInput)]
  else if String.eqb (OfStatus commandLineInput) "" then
    [RpcCall "listJobProgressSummary" commandLineInput;
     PrintJobProgressSummary (call "listJobProgressSummary" commandLineInput)]
  else
    [RpcCall "listJobTransfers" commandLineInput;
     PrintJobTransfers (call "listJobTransfers" commandLineInput)].

(** The [Args] validator of [lsCmd]: what it prints, the request it
    leaves in [commandLineInput], and whether it returns an error. *)
Definition lsCmd_Args (args : list string) (commandLineInput : ListRequest)
  : list cli_event * ListRequest * bool :=
  match args with
  | arg0 :: _ =>
      match ParseJobID arg0 with
      | None =>
          ([FmtPrint (String.append "invalid job Id given " arg0)],
           commandLineInput, false)               (* return nil *)
      | Some jobId =>
          ([], mkListRequest jobId (OfStatus commandLineInput), false)
      end
  | [] => ([], commandLineInput, false)
  end.

(** One invocation of [list]: cobra stores the flag [--with-status] in
    [commandLineInput.OfStatus], calls [Args], and calls [Run] unless
    [Args] returned an error. *)
Definition lsCmd (args : list string) (withStatus : string)
  : list cli_event :=
  let commandLineInput := mkListRequest zeroJobID withStatus in
  let '(out, commandLineInput', err) := lsCmd_Args args commandLineInput in
  if err then out else out ++ HandleListCommand commandLineInput'.

Definition is_RpcCall (e : cli_event) : bool :=
  match e with RpcCall _ _ => true | _ => false end.

Definition rpc_calls (out : list cli_event) : nat :=
  length (List.filter is_RpcCall out).

End ListCommand.

End cmd.

(** ** A sample transfer *)

Definition sample_transfer : TransferMsg :=
  mkTransferMsg "/data/src.bin" "https://account/container/blob" 250 100 3.

Definition quiet_choice : choice := mkChoice false "6ba7b810".
Definition failing_choice : choice := mkChoice true "6ba7b810".

(** The state the prologue of [sample_transfer] leaves. *)
Definition sample_shared : Shared :=
  mkShared false 0 TransferInProgress 0 0
    (Some [EmptyString; EmptyString; EmptyString])
    [mkChunkMsg 0 100 0; mkChunkMsg 1 100 100; mkChunkMsg 2 50 200] false.

Definition cancelled_shared : Shared :=
  set_status TransferFailed (set_chunksDone 2 (set_cancelled true sample_shared)).

(** The state the prologue of [sample_transfer] leaves, computed. *)
Definition sample_start : Shared :=
  snd (fst (run_alone (repeat quiet_choice 6) init_shared
              (runPrologue sample_transfer 4))).

(** The three chunk functions of [sample_transfer] taken in turn, the
    last chunk first. *)
Definition round_robin (n : nat) : list action :=
  concat (repeat [Run 2 quiet_choice; Run 0 (mkChoice false "aaaa");
                  Run 1 (mkChoice false "bb")] n).

(** A parser that takes job identifiers of 36 characters only, for the
    example below. *)
Definition sample_ParseJobID (s : string) : option string :=
  if Nat.eqb (String.length s) 36 then Some s else None.


(** ** More observations *)

Definition is_OpenAndMemoryMapFile (e : event) : bool :=
  match e with EOpenAndMemoryMapFile => true | _ => false end.

Definition is_SetBlockId (e : event) : bool :=
  match e with ESetBlockId _ _ => true | _ => false end.

Definition is_NewUUID (e : event) : bool :=
  match e with ENewUUID _ => true | _ => false end.

Definition is_stage (e : event) : bool :=
  match e with EStageBlock _ _ _ _ => true | _ => false end.

Definition is_status (e : event) : bool :=
  match e with ETransferStatus _ => true | _ => false end.

(** The events of a run from its [Close] on. *)
Fixpoint from_close (t : list event) : list event :=
  match t with
  | [] => []
  | EClose err :: rest => EClose err :: rest
  | _ :: rest => from_close rest
  end.

Definition total_length (jobs : list ChunkMsg) : Z :=
  fold_right (fun m acc => adjustedChunkSize m + acc) 0 jobs.

(** ** Runs that have not returned *)

(** [forall_prefixes p P]: [P] holds of what is observed on every run of
    [p], whether it has returned or not. *)
Fixpoint forall_prefixes (p : prog) (P : list obs -> Prop) : Prop :=
  P [] /\
  match p with
  | Vis o k =>
      forall (c : choice) (s : Shared),
        match exec_op c s o with
        | (e, s', Some x) =>
            forall_prefixes (k x) (fun t => P (mkObs s e s' :: t))
        | (e, s', None) => P [mkObs s e s']
        end
  | Ret | Spin | Crashed => True
  end.

(** The events of the chunk function [tid] in a trace, the earliest
    first. *)
Definition proj (tid : nat) (tr : list (nat * event)) : list event :=
  rev (map snd (List.filter (fun x => Nat.eqb (fst x) tid) tr)).

Definition count_events (f : event -> bool) (es : list event) : nat :=
  length (List.filter f es).

Definition is_clear (e : event) : bool :=
  match e with ECtxErr false => true | _ => false end.

(** The chunk function found the transfer cancelled, or cancelled it. *)
Definition is_stop (e : event) : bool :=
  match e with ECtxErr true | ETransferCancelFunc => true | _ => false end.

(** A block staged without error. *)
Definition is_staged (e : event) : bool :=
  match e with EStageBlock _ _ _ false => true | _ => false end.

(** No [g] event comes after an [f] event. *)
Fixpoint none_after (f g : event -> bool) (es : list event) : bool :=
  match es with
  | [] => true
  | e :: rest =>
      (if f e then forallb (fun x => negb (g x)) rest else true)
      && none_after f g rest
  end.

(** After its increment of the completion counter, the chunk function
    found the transfer not cancelled. *)
Fixpoint cleared (es : list event) : bool :=
  match es with
  | [] => false
  | e :: rest => (is_ChunksDone e && existsb is_clear rest) || cleared rest
  end.

(** What holds of the events of a chunk function at any time of its
    run. *)
Definition chunk_events_ok (tr : TransferMsg) (es : list event) : Prop :=
  (count_events is_Unmap es <= count_events is_TransferDone es)%nat /\
  (count_events is_Close es <= count_events is_Unmap es)%nat /\
  (count_events is_TransferDone es <= 1)%nat /\
  none_after is_ChunksDone is_stage es = true /\
  none_after is_ChunksDone is_cancel es = true /\
  (existsb is_commit es = true -> cleared es = true) /\
  (cleared es = true -> EChunksDone (Int.uint32 (NumChunks tr)) ∈ es) /\
  (existsb is_ChunksDone es = true -> existsb is_stop es = false ->
   existsb is_staged es = true).

(** What a chunk function that starts cancelled does not do. *)
Definition idle_when_cancelled (t : list obs) : Prop :=
  (forall o, head t = Some o -> cancelled (pre o) = true) ->
  count is_io t = 0%nat /\ count is_NewUUID t = 0%nat /\
  count is_SetBlockId t = 0%nat /\ count is_cancel t = 0%nat /\
  count is_status t = 0%nat.

(** The pool of chunk functions started on the chunk jobs of [s], after
    the steps of [sched]. *)
Definition pool (tr : TransferMsg) (workerOf : nat -> Z) (s : Shared)
    (sched : list action) : System :=
  run_system sched (start_workers tr workerOf s).

(** In a trace (the latest event first): no block is staged after the
    mapped view was released. *)
Fixpoint no_stage_after_unmap (tr : list (nat * event)) : Prop :=
  match tr with
  | [] => True
  | (_, e) :: older =>
      (is_stage e = true -> count_all is_Unmap older = 0%nat) /\
      no_stage_after_unmap older
  end.

(** Steps of the first chunk function of [sample_transfer] in which its
    [StageBlock] fails and it cancels the transfer. *)
Definition failing_first : list action :=
  [Run 0 quiet_choice; Run 0 quiet_choice; Run 0 quiet_choice;
   Run 0 failing_choice; Run 0 quiet_choice; Run 0 quiet_choice].

Definition is_complete (e : event) : bool :=
  match e with ETransferStatus TransferComplete => true | _ => false end.

Definition is_failed (e : event) : bool :=
  match e with ETransferStatus TransferFailed => true | _ => false end.

(** What holds of the statuses a chunk function sets, at any time of its
    run. *)
Definition chunk_status_ok (es : list event) : Prop :=
  (count_events is_status es <= 1)%nat /\
  (existsb is_status es = true ->
   existsb is_cancel es || existsb is_commit es = true) /\
  (existsb is_complete es = true -> existsb is_commit es = true) /\
  forallb (fun e => negb (is_status e) || is_complete e || is_failed e) es
    = true.

(** The status last set in a trace (the latest event first), [d] when
    none was. *)
Fixpoint last_status (tr : list (nat * event)) (d : TransferStatus)
  : TransferStatus :=
  match tr with
  | [] => d
  | (_, ETransferStatus v) :: _ => v
  | _ :: older => last_status older d
  end.

(** * Properties *)

(** ** Machine integers and the encoding *)

Lemma int64_small z : - 2 ^ 63 <= z <= Int.max_int64 -> Int.int64 z = z.
Proof.
  unfold Int.int64, Int.wrap_signed, Int.max_int64. intros H.
  change (64 - 1) with 63.
  rewrite Z.mod_small; lia.
Qed.

Lemma int32_small z : - 2 ^ 31 <= z <= Int.max_int32 -> Int.int32 z = z.
Proof.
  unfold Int.int32, Int.wrap_signed, Int.max_int32. intros H.
  change (32 - 1) with 31.
  rewrite Z.mod_small; lia.
Qed.

Lemma uint32_small z : 0 <= z <= Int.max_uint32 -> Int.uint32 z = z.
Proof.
  unfold Int.uint32, Int.max_uint32. intros H. rewrite Z.mod_small; lia.
Qed.


Example encode_Man : Base64.EncodeToString "Man" = "TWFu"%string.
Proof. reflexivity. Qed.
Example encode_Ma : Base64.EncodeToString "Ma" = "TWE="%string.
Proof. reflexivity. Qed.
Example encode_M : Base64.EncodeToString "M" = "TQ=="%string.
Proof. reflexivity. Qed.
Example encode_foobar : Base64.EncodeToString "foobar" = "Zm9vYmFy"%string.
Proof. reflexivity. Qed.


(** ** Every run of a command tree *)

Lemma forall_runs_sound (p : prog) :
  forall (P : list obs -> Prop) inputs t,
    forall_runs p P -> run_thread inputs p = (t, Ret) -> P t.
Proof.
  induction p as [|X o k IH| |]; intros P inputs t HP Hrun.
  - destruct inputs as [|[c s] rest]; simpl in Hrun;
      inversion Hrun; subst; exact HP.
  - destruct inputs as [|[c s] rest]; simpl in Hrun; [discriminate|].
    specialize (HP c s).
    destruct (exec_op c s o) as [[e s'] [x|]]; simpl in Hrun.
    + destruct (run_thread rest (k x)) as [t' q] eqn:E.
      inversion Hrun; subst.
      exact (IH x _ rest t' HP E).
    + destruct rest as [|[c' s''] rest]; simpl in Hrun; discriminate.
  - destruct inputs as [|[c s] rest]; simpl in Hrun; discriminate.
  - destruct inputs as [|[c s] rest]; simpl in Hrun; discriminate.
Qed.

Lemma returns_within_sound (p : prog) :
  forall strict n inputs t q,
    returns_within strict n p -> (n <= length inputs)%nat ->
    run_thread inputs p = (t, q) ->
    q = Ret \/ (strict = false /\ q = Crashed).
Proof.
  induction p as [|X o k IH| |]; intros strict n inputs t q Hn Hlen Hrun.
  - destruct inputs as [|[c s] rest]; simpl in Hrun;
      inversion Hrun; auto.
  - destruct n as [|n]; simpl in Hn; [contradiction|].
    destruct inputs as [|[c s] rest]; simpl in Hlen; [lia|].
    simpl in Hrun. specialize (Hn c s).
    destruct (exec_op c s o) as [[e s'] [x|]]; simpl in Hrun.
    + destruct (run_thread rest (k x)) as [t' q'] eqn:E.
      inversion Hrun; subst.
      eapply (IH x strict n rest); eauto. lia.
    + destruct rest as [|[c' s''] rest]; simpl in Hrun;
        inversion Hrun; auto.
  - destruct n; simpl in Hn; contradiction.
  - simpl in Hn.
    destruct inputs as [|[c s] rest]; simpl in Hrun;
      inversion Hrun; auto.
Qed.

Lemma returns_within_Ret (p : prog) n inputs :
  returns_within true n p -> (n <= length inputs)%nat ->
  snd (run_thread inputs p) = Ret.
Proof.
  intros Hn Hlen.
  destruct (run_thread inputs p) as [t q] eqn:E.
  destruct (returns_within_sound p true n inputs t q Hn Hlen E)
    as [->|[? _]]; [reflexivity|discriminate].
Qed.

Lemma returns_within_more (p : prog) :
  forall strict n m,
    (n <= m)%nat -> returns_within strict n p -> returns_within strict m p.
Proof.
  induction p as [|X o k IH| |]; intros strict n m Hle H; simpl in *; auto.
  destruct n as [|n]; [contradiction|].
  destruct m as [|m]; [lia|].
  intros c s. specialize (H c s).
  destruct (exec_op c s o) as [[e s'] [x|]]; [|exact H].
  apply (IH x strict n m); [lia|exact H].
Qed.

Lemma store_blockId_Some i id s s' :
  store_blockId i id s = Some s' ->
  exists l, blockIds s = Some l /\ 0 <= i < Z.of_nat (length l) /\
            s' = set_blockIds (Some (<[Z.to_nat i := id]> l)) s.
Proof.
  unfold store_blockId. intros H.
  destruct (blockIds s) as [l|]; [|discriminate].
  destruct ((0 <=? i) && (i <? Z.of_nat (length l))) eqn:E; [|discriminate].
  inversion H; subst. exists l.
  apply andb_true_iff in E as [E1 E2].
  apply Z.leb_le in E1. apply Z.ltb_lt in E2. auto.
Qed.

(** Symbolic execution of a command tree: one case per path. *)
Ltac run_all :=
  repeat first
    [ match goal with
      | |- forall_runs (if ?b then _ else _) _ => destruct b eqn:?
      | |- forall_runs (seq (if ?b then _ else _) _) _ => destruct b eqn:?
      | |- returns_within _ _ (if ?b then _ else _) => destruct b eqn:?
      | |- returns_within _ _ (seq (if ?b then _ else _) _) =>
          destruct b eqn:?
      | |- context [store_blockId ?i ?id ?s] =>
          let H := fresh "Hstore" in
          destruct (store_blockId i id s) eqn:H;
          [apply store_blockId_Some in H as (? & ? & ? & ->)|]
      | |- forall (_ : choice), _ => intros ? ?
      end
    | progress cbn [forall_runs returns_within exec_op seq do_ChunksDone] ].

Ltac use_tests :=
  repeat match goal with
    | H : _ = true |- _ => rewrite H
    | H : _ = false |- _ => rewrite H
    end.

Ltac all_runs Hrun :=
  match type of Hrun with
  | run_thread _ _ = (?t, Ret) =>
      pattern t; eapply forall_runs_sound; [|exact Hrun]; clear Hrun
  end.

(** A property of every step of an explicit run. *)
Ltac is_member := repeat constructor.

Ltac each_step :=
  repeat first
    [ apply List.Forall_nil
    | apply List.Forall_cons;
      [ cbn; first [ reflexivity | congruence | lia
                   | repeat split; first [reflexivity | congruence] ] | ] ].

(** ** One chunk function *)

Lemma generateUploadFunc_returns tr chunkId len start w :
  returns_within false 20 (generateUploadFunc tr chunkId len start w).
Proof.
  unfold generateUploadFunc, finalizeIfLast, transferDone.
  run_all; solve [exact I | reflexivity].
Qed.

(** C5.  A chunk function that begins while the cancellation signal of the
    transfer is set performs no I/O, increments the completion counter
    (once), and sets no status; when its increment gives the number of
    chunks it runs [transferDone()] (the mapped view is released, the
    source file closed), and otherwise it finalizes nothing. *)
Theorem cancelled_chunk_only_counts
    (tr : TransferMsg) (chunkId len start w : Z)
    (inputs : list (choice * Shared)) (t : list obs) :
  run_thread inputs (generateUploadFunc tr chunkId len start w) = (t, Ret) ->
  begins_cancelled t ->
  count is_io t = 0%nat /\
  count is_ChunksDone t = 1%nat /\ Forall counts_properly t /\
  Forall keeps_status t /\ statuses_set t = [] /\
  match counter_value t with
  | Some v =>
      if v =? Int.uint32 (NumChunks tr) then finalized t
      else count is_finalize t = 0%nat
  | None => False
  end.
Proof.
  intros Hrun. all_runs Hrun.
  unfold generateUploadFunc, finalizeIfLast, transferDone.
  run_all; try exact I.
  all: intros (o & Hhd & Hc); simpl in Hhd; inversion Hhd; subst;
    simpl in Hc; try congruence.
  all: repeat split; try (each_step; fail).
  all: cbn; use_tests; repeat split.
Qed.

Lemma cancelled_chunk_only_counts_witness :
  let inputs := repeat (quiet_choice, cancelled_shared) 8 in
  let t := fst (run_thread inputs (generateUploadFunc sample_transfer 2 50 200 7)) in
  count is_io t = 0%nat /\ finalized t /\ Forall keeps_status t.
Proof.
  intros inputs t.
  destruct (cancelled_chunk_only_counts sample_transfer 2 50 200 7 inputs t)
    as (H1 & _ & _ & H4 & _ & H6).
  - vm_compute. reflexivity.
  - exists (mkObs cancelled_shared (ECtxErr true) cancelled_shared).
    split; reflexivity.
  - split; [exact H1|]. split; [exact H6|exact H4].
Defined.

(** C6.  A chunk function whose [StageBlock] fails checks the cancellation
    signal: when it is set the failure is logged, nothing is cancelled and
    no status is set; when it is not set the function calls
    [TransferCancelFunc] and sets the status [TransferFailed].  Either way
    it increments the completion counter, once, and runs [transferDone()]
    exactly when its increment gives the number of chunks. *)
Theorem failed_stage_cancels_or_logs
    (tr : TransferMsg) (chunkId len start w : Z)
    (inputs : list (choice * Shared)) (t : list obs) :
  run_thread inputs (generateUploadFunc tr chunkId len start w) = (t, Ret) ->
  stage_result t = Some true ->
  Forall effect_ok t /\
  (exists b, ctx_checks t = [false; b] /\
     if b then
       ELog LogInfo (MsgUploadFailedCancelled w chunkId) ∈ events t /\
       count is_cancel t = 0%nat /\ statuses_set t = [] /\
       Forall keeps_status t
     else
       count is_cancel t = 1%nat /\ statuses_set t = [TransferFailed]) /\
  count is_ChunksDone t = 1%nat /\ Forall counts_properly t /\
  match counter_value t with
  | Some v =>
      if v =? Int.uint32 (NumChunks tr) then finalized t
      else count is_finalize t = 0%nat
  | None => False
  end.
Proof.
  intros Hrun. all_runs Hrun.
  unfold generateUploadFunc, finalizeIfLast, transferDone.
  run_all; try exact I.
  all: cbn [stage_result ev]; intros Hst; try discriminate.
  all: split; [each_step|].
  all: split; [eexists; split; [reflexivity|]; cbn;
               repeat split; solve [each_step | is_member]|].
  all: repeat split; try (each_step; fail).
  all: cbn; use_tests; repeat split.
Qed.

Lemma failed_stage_cancels_or_logs_witness :
  let inputs :=
    [(quiet_choice, sample_shared); (quiet_choice, sample_shared);
     (quiet_choice, sample_shared); (failing_choice, sample_shared);
     (quiet_choice, sample_shared); (quiet_choice, sample_shared);
     (quiet_choice, sample_shared); (quiet_choice, sample_shared);
     (quiet_choice, sample_shared)] in
  let t := fst (run_thread inputs (generateUploadFunc sample_transfer 1 100 100 7)) in
  count is_cancel t = 1%nat /\ statuses_set t = [TransferFailed] /\
  count is_ChunksDone t = 1%nat.
Proof.
  intros inputs t.
  destruct (failed_stage_cancels_or_logs sample_transfer 1 100 100 7 inputs t)
    as (_ & (b & Hb & H2) & H3 & _).
  - vm_compute. reflexivity.
  - vm_compute. reflexivity.
  - assert (b = false) as -> by (vm_compute in Hb; congruence).
    destruct H2 as [H21 H22]. repeat split; assumption.
Defined.

(** C10.  A chunk function adds to the throughput counter of the job only
    after its [StageBlock] succeeded, and then the byte length of its
    chunk, once; a function that finds the transfer cancelled stages
    nothing, and one that does so, or whose [StageBlock] fails, leaves the
    counter as it was. *)
Theorem throughput_only_after_staging
    (tr : TransferMsg) (chunkId len start w : Z)
    (inputs : list (choice * Shared)) (t : list obs) :
  run_thread inputs (generateUploadFunc tr chunkId len start w) = (t, Ret) ->
  Forall (fun o => throughput (post o) = throughput (pre o) +
            match ev o with EUpdateCurrentBytes n => n | _ => 0 end) t /\
  (begins_cancelled t -> stage_result t = None) /\
  match stage_result t with
  | Some false => throughput_updates t = [len]
  | _ => throughput_updates t = [] /\ Forall keeps_throughput t
  end.
Proof.
  intros Hrun. all_runs Hrun.
  unfold generateUploadFunc, finalizeIfLast, transferDone.
  run_all; try exact I.
  all: split; [each_step|].
  all: split;
    [intros (o & Hhd & Hc); simpl in Hhd; inversion Hhd; subst;
     simpl in Hc; try congruence; reflexivity|].
  all: cbn [stage_result throughput_updates ev];
    first [reflexivity | split; [reflexivity|each_step]].
Qed.

Lemma throughput_only_after_staging_witness :
  let inputs := repeat (quiet_choice, sample_shared) 8 in
  let t := fst (run_thread inputs (generateUploadFunc sample_transfer 1 100 100 7)) in
  stage_result t = Some false /\ throughput_updates t = [100].
Proof.
  intros inputs t.
  destruct (throughput_only_after_staging sample_transfer 1 100 100 7 inputs t)
    as (_ & _ & H3).
  - vm_compute. reflexivity.
  - split; [vm_compute; reflexivity|].
    change (stage_result t) with (Some false) in H3. exact H3.
Defined.

(** Every chunk function increments the completion counter exactly once,
    and runs [transferDone()], and possibly the commit, only when its own
    increment gave the number of chunks. *)
Lemma chunk_counts_once_and_last_finalizes
    (tr : TransferMsg) (chunkId len start w : Z)
    (inputs : list (choice * Shared)) (t : list obs) :
  run_thread inputs (generateUploadFunc tr chunkId len start w) = (t, Ret) ->
  count is_ChunksDone t = 1%nat /\ Forall counts_properly t /\
  exists v, counter_value t = Some v /\
    if v =? Int.uint32 (NumChunks tr) then finalized t
    else count is_finalize t = 0%nat /\ count is_commit t = 0%nat.
Proof.
  intros Hrun. all_runs Hrun.
  unfold generateUploadFunc, finalizeIfLast, transferDone.
  run_all; try exact I.
  all: split; [reflexivity|].
  all: split; [each_step|].
  all: eexists; split; [reflexivity|].
  all: cbn; use_tests; repeat split.
Qed.

(** The epilogue, run by the chunk function that staged its block and whose
    increment gave the number of chunks. *)
Lemma epilogue_of_last_chunk
    (tr : TransferMsg) (chunkId len start w : Z)
    (inputs : list (choice * Shared)) (t : list obs) :
  run_thread inputs (generateUploadFunc tr chunkId len start w) = (t, Ret) ->
  stage_result t = Some false ->
  counter_value t = Some (Int.uint32 (NumChunks tr)) ->
  Forall effect_ok t /\ finalized t /\
  exists b, ctx_checks t = [false; b] /\
    if b then
      count is_commit t = 0%nat /\ statuses_set t = [] /\
      Forall keeps_status t
    else
      count is_commit t = 1%nat /\
      match commit_result t with
      | Some true => statuses_set t = [TransferFailed]
      | Some false => statuses_set t = [TransferComplete]
      | None => False
      end.
Proof.
  intros Hrun. all_runs Hrun.
  unfold generateUploadFunc, finalizeIfLast, transferDone.
  run_all; try exact I.
  all: cbn [stage_result ev]; intros Hst; try discriminate.
  all: cbn [counter_value ev]; intros Hcv; inversion Hcv as [Hv].
  all: try (apply Z.eqb_neq in Heqb1; congruence).
  all: split; [each_step|].
  all: split; [repeat split|].
  all: eexists; split; [reflexivity|].
  all: cbn; repeat split; each_step.
Qed.

(** ** The whole-object upload *)

Lemma putBlob_returns tr : returns_within true 12 (putBlob tr).
Proof.
  unfold putBlob.
  destruct (SourceSize tr =? 0) eqn:Hsize; cbn [negb]; run_all; exact I.
Qed.

(** C7.  [putBlob] uploads once; when the upload fails and the transfer is
    cancelled it only logs, when it fails otherwise it sets the status
    [TransferFailed], when it succeeds it sets [TransferComplete].  In all
    three cases it calls [TransferDone] once, adds the source size to the
    throughput counter exactly when the size is not 0, and unmaps and
    closes the source file exactly when the size is not 0. *)
Theorem putBlob_outcomes
    (tr : TransferMsg) (inputs : list (choice * Shared)) (t : list obs) :
  run_thread inputs (putBlob tr) = (t, Ret) ->
  Forall effect_ok t /\
  count is_upload t = 1%nat /\
  (exists err, upload_result t = Some (negb (SourceSize tr =? 0), err) /\
     if err then
       exists b, ctx_checks t = [b] /\
         if b then
           ELog LogInfo MsgPutBlobCancelled ∈ events t /\
           statuses_set t = [] /\ Forall keeps_status t
         else statuses_set t = [TransferFailed]
     else statuses_set t = [TransferComplete]) /\
  count is_TransferDone t = 1%nat /\
  throughput_updates t =
    (if SourceSize tr =? 0 then [] else [Int.int64 (SourceSize tr)]) /\
  count is_Unmap t = (if SourceSize tr =? 0 then 0%nat else 1%nat) /\
  count is_Close t = (if SourceSize tr =? 0 then 0%nat else 1%nat).
Proof.
  intros Hrun. all_runs Hrun.
  unfold putBlob.
  destruct (SourceSize tr =? 0) eqn:Hsize; cbn [negb].
  all: run_all; try exact I.
  all: split; [each_step|].
  all: split; [reflexivity|].
  all: split;
    [eexists; split; [reflexivity|]; cbn;
     try (eexists; split; [reflexivity|]; cbn);
     repeat split; solve [each_step | is_member | reflexivity]|].
  all: repeat split; reflexivity.
Qed.

Lemma putBlob_outcomes_witness :
  let tr := mkTransferMsg "/data/small.bin" "https://account/container/small" 80 100 1 in
  let inputs := repeat (quiet_choice, init_shared) 10 in
  let t := fst (run_thread inputs (putBlob tr)) in
  statuses_set t = [TransferComplete] /\ throughput_updates t = [80] /\
  count is_TransferDone t = 1%nat /\ count is_Unmap t = 1%nat.
Proof.
  intros tr inputs t.
  destruct (putBlob_outcomes tr inputs t)
    as (_ & _ & (err & Herr & H3) & H4 & H5 & H6 & _).
  - vm_compute. reflexivity.
  - assert (err = false) as -> by (vm_compute in Herr; congruence).
    repeat split; assumption.
Defined.

(** ** The prologue *)

Lemma int32_succ i : Int.int32 (Int.int32 i + 1) = Int.int32 (i + 1).
Proof.
  unfold Int.int32, Int.wrap_signed. change (32 - 1) with 31.
  f_equal.
  replace ((i + 2 ^ 31) mod 2 ^ 32 - 2 ^ 31 + 1 + 2 ^ 31)
    with ((i + 2 ^ 31) mod 2 ^ 32 + 1) by lia.
  replace (i + 1 + 2 ^ 31) with ((i + 2 ^ 31) + 1) by lia.
  rewrite (Z.add_mod (i + 2 ^ 31) 1) by lia.
  rewrite Zplus_mod_idemp_l. rewrite <- Z.add_mod by lia. reflexivity.
Qed.

Section Tiling.

Variables blobSize chunkSize : Z.
Hypothesis chunk_pos : 0 < chunkSize.
Hypothesis blob_pos : 0 < blobSize.

Let n : Z := ceil_div blobSize chunkSize.

Lemma ceil_div_spec :
  (n - 1) * chunkSize < blobSize <= n * chunkSize.
Proof.
  unfold n, ceil_div.
  pose proof (Z.div_mod (blobSize + chunkSize - 1) chunkSize ltac:(lia)) as H.
  pose proof (Z.mod_pos_bound (blobSize + chunkSize - 1) chunkSize chunk_pos).
  nia.
Qed.

Lemma ceil_div_pos : 0 < n.
Proof. pose proof ceil_div_spec. nia. Qed.

Lemma below_ceil i : i * chunkSize < blobSize <-> i < n.
Proof. pose proof ceil_div_spec. split; intros; nia. Qed.

Lemma tiles_chunks_from i :
  0 <= i <= n ->
  tiles (range_of <$> (chunk_at blobSize chunkSize <$> seqZ i (n - i)))
        (Z.min (i * chunkSize) blobSize) blobSize.
Proof.
  intros Hi.
  remember (Z.to_nat (n - i)) as k eqn:Hk.
  revert i Hi Hk. induction k as [|k IH]; intros i Hi Hk.
  - assert (i = n) as -> by lia.
    rewrite seqZ_nil by lia. simpl.
    pose proof ceil_div_spec. lia.
  - rewrite seqZ_cons by lia. simpl.
    assert (i * chunkSize < blobSize) as Hlt by (apply below_ceil; lia).
    split; [lia|]. split.
    + destruct (Z.gtb_spec ((i + 1) * chunkSize) blobSize); lia.
    + replace (Z.pred (n - i)) with (n - Z.succ i) by lia.
      replace (Z.min (i * chunkSize) blobSize +
               (if (i + 1) * chunkSize >? blobSize
                then blobSize - i * chunkSize else chunkSize))
        with (Z.min (Z.succ i * chunkSize) blobSize).
      * apply IH; lia.
      * destruct (Z.gtb_spec ((i + 1) * chunkSize) blobSize); lia.
Qed.

Lemma tiles_chunks :
  tiles (range_of <$> (chunk_at blobSize chunkSize <$> seqZ 0 n)) 0 blobSize.
Proof.
  pose proof ceil_div_pos.
  pose proof (tiles_chunks_from 0 ltac:(lia)) as H0.
  rewrite Z.sub_0_r in H0.
  replace (Z.min (0 * chunkSize) blobSize) with 0 in H0 by lia.
  exact H0.
Qed.

Lemma lookup_chunks (i : nat) (m : ChunkMsg) :
  (chunk_at blobSize chunkSize <$> seqZ 0 n) !! i = Some m ->
  Z.of_nat i < n /\
  chunkId m = Int.int32 (Z.of_nat i) /\
  startIndex m = Z.of_nat i * chunkSize /\
  adjustedChunkSize m =
    (if Z.of_nat i =? n - 1 then blobSize - startIndex m else chunkSize) /\
  0 < adjustedChunkSize m <= chunkSize.
Proof.
  rewrite list_lookup_fmap.
  destruct (seqZ 0 n !! i) as [j|] eqn:E; [|discriminate].
  apply lookup_seqZ in E as [-> Hlt]. simpl. intros [= <-].
  rewrite Z.add_0_l. simpl.
  pose proof ceil_div_spec as Hn.
  assert (Z.of_nat i * chunkSize < blobSize) by (apply below_ceil; lia).
  split; [lia|]. split; [reflexivity|]. split; [reflexivity|].
  destruct (Z.eqb_spec (Z.of_nat i) (n - 1)) as [E1|E1];
    destruct (Z.gtb_spec ((Z.of_nat i + 1) * chunkSize) blobSize) as [E2|E2].
  - lia.
  - assert (n * chunkSize <= blobSize)
      by (replace n with (Z.of_nat i + 1) by lia; exact E2).
    lia.
  - exfalso.
    assert ((Z.of_nat i + 1) * chunkSize <= (n - 1) * chunkSize)
      by (apply Z.mul_le_mono_nonneg_r; lia).
    lia.
  - lia.
Qed.

(** The loop that schedules the chunks, from its iteration [i] on. *)
Hypothesis no_overflow : blobSize + chunkSize <= Int.max_int64.

Lemma forall_runs_scheduleChunks (fuel : nat) :
  forall (i : Z) (P : list obs -> Prop),
    0 <= i <= n ->
    (forall t,
        events t = ESend <$> (chunk_at blobSize chunkSize <$> seqZ i (n - i)) ->
        Forall prologue_effect t ->
        P t) ->
    forall_runs (scheduleChunks fuel blobSize chunkSize
                   (i * chunkSize) (Int.int32 i)) P.
Proof.
  induction fuel as [|fuel IH]; intros i P Hi HP; [exact I|].
  cbn [scheduleChunks].
  destruct (i * chunkSize <? blobSize) eqn:E.
  - apply Z.ltb_lt in E. assert (i < n) by (apply below_ceil; exact E).
    cbn [forall_runs exec_op]. intros c s.
    unfold Int.max_int64 in no_overflow.
    rewrite (int64_small (i * chunkSize + chunkSize))
      by (unfold Int.max_int64; lia).
    rewrite (int64_small (blobSize - i * chunkSize))
      by (unfold Int.max_int64; nia).
    rewrite int32_succ.
    replace (i * chunkSize + chunkSize) with ((i + 1) * chunkSize) by lia.
    apply IH; [lia|].
    intros t Hev Hst. apply HP.
    + rewrite (seqZ_cons i) by lia. cbn.
      unfold events in Hev. rewrite Hev.
      replace (Z.succ i) with (i + 1) by lia.
      replace (Z.pred (n - i)) with (n - (i + 1)) by lia.
      reflexivity.
    + constructor; [reflexivity|exact Hst].
  - apply Z.ltb_ge in E.
    assert (i = n) as -> by (pose proof (below_ceil i); lia).
    cbn [forall_runs]. apply HP; [|constructor].
    rewrite seqZ_nil by lia. reflexivity.
Qed.


End Tiling.

Lemma run_alone_thread (cs : list choice) :
  forall s p evs s' q,
    run_alone cs s p = (evs, s', q) ->
    exists inputs t,
      run_thread inputs p = (t, q) /\ events t = evs /\ chained s t s'.
Proof.
  induction cs as [|c cs IH]; intros s p evs s' q H; simpl in H.
  - inversion H; subst. exists [], []. repeat split.
  - destruct (step c s p) as [[[e s1] p1]|] eqn:E.
    + destruct (run_alone cs s1 p1) as [[t1 s2] q1] eqn:E1.
      inversion H; subst.
      destruct (IH _ _ _ _ _ E1) as (inputs & t & Hrun & Hev & Hch).
      exists ((c, s) :: inputs), (mkObs s e s1 :: t).
      simpl. rewrite E, Hrun. simpl. rewrite Hev. repeat split; assumption.
    + inversion H; subst. exists [], []. repeat split.
Qed.

Section Prologue.

Variable tr : TransferMsg.
Variable fuel : nat.

Let blobSize : Z := Int.int64 (SourceSize tr).
Let chunkSize : Z := Int.int64 (BlockSize tr).
Let n : Z := ceil_div blobSize chunkSize.

(** The prologue of a source larger than one chunk: the pipeline, the
    mapping, the slots, and one chunk job after the other. *)
Lemma forall_runs_chunked_prologue (P : list obs -> Prop) :
  0 < chunkSize -> chunkSize < blobSize ->
  blobSize + chunkSize <= Int.max_int64 ->
  (forall t,
      events t =
        [ENewBlobURL; EOpenAndMemoryMapFile; EMakeBlockIds (NumChunks tr)] ++
        (ESend <$> (chunk_at blobSize chunkSize <$> seqZ 0 n)) ->
      Forall prologue_effect t ->
      P t) ->
  forall_runs (runPrologue tr fuel) P.
Proof.
  intros HC HS Hov HP. unfold runPrologue.
  fold blobSize. fold chunkSize.
  assert ((blobSize >? 0) = true) as -> by (apply Z.gtb_lt; lia).
  assert ((blobSize =? 0) || (blobSize <=? chunkSize) = false) as ->.
  { apply orb_false_iff. split; [apply Z.eqb_neq|apply Z.leb_gt]; lia. }
  cbn [forall_runs exec_op seq]. intros c s c0 s0 c1 s1.
  change 0 with (0 * chunkSize) at 1.
  change 0 with (Int.int32 0) at 2.
  apply forall_runs_scheduleChunks; try lia.
  - pose proof (ceil_div_pos blobSize chunkSize HC ltac:(lia)). fold n in H. lia.
  - intros t Hev Hst. apply HP.
    + cbn. unfold events in Hev. rewrite Hev.
      rewrite Z.sub_0_r. reflexivity.
    + repeat (constructor; [reflexivity|]). exact Hst.
Qed.


End Prologue.



(** C3.  For an empty source, or one not larger than one chunk, the
    prologue returns after one whole-object upload: it puts no chunk job
    on the channel, allocates no slot for a block identifier, commits no
    block list, and leaves the completion counter, the slots and the
    channel as they were. *)
Theorem small_source_takes_putBlob (tr : TransferMsg) (fuel : nat) :
  let blobSize := Int.int64 (SourceSize tr) in
  let chunkSize := Int.int64 (BlockSize tr) in
  blobSize = 0 \/ blobSize <= chunkSize ->
  (forall inputs t,
      run_thread inputs (runPrologue tr fuel) = (t, Ret) ->
      count is_upload t = 1%nat /\
      count is_blocklist t = 0%nat /\
      sent (events t) = [] /\ slots_made (events t) = [] /\
      Forall keeps_blocklist t) /\
  (forall inputs,
      (14 <= length inputs)%nat ->
      snd (run_thread inputs (runPrologue tr fuel)) = Ret).
Proof.
  intros blobSize chunkSize Hsmall.
  assert (((blobSize =? 0) || (blobSize <=? chunkSize)) = true) as Hcond.
  { apply orb_true_iff.
    destruct Hsmall; [left; apply Z.eqb_eq|right; apply Z.leb_le]; assumption. }
  split.
  - intros inputs t Hrun. all_runs Hrun.
    unfold runPrologue, putBlob. fold blobSize chunkSize. rewrite Hcond.
    destruct (SourceSize tr =? 0) eqn:Hsize; cbn [negb].
    all: destruct (blobSize >? 0) eqn:Hpos.
    all: run_all; try exact I.
    all: repeat split; try reflexivity; each_step.
  - intros inputs Hlen.
    eapply returns_within_Ret; [|exact Hlen].
    unfold runPrologue, putBlob. fold blobSize chunkSize. rewrite Hcond.
    destruct (SourceSize tr =? 0) eqn:Hsize; cbn [negb].
    all: destruct (blobSize >? 0) eqn:Hpos.
    all: run_all; exact I.
Qed.

Lemma small_source_takes_putBlob_witness :
  let tr := mkTransferMsg "/data/small.bin" "https://account/container/small" 80 100 1 in
  let inputs := repeat (quiet_choice, init_shared) 14 in
  let t := fst (run_thread inputs (runPrologue tr 0)) in
  snd (run_thread inputs (runPrologue tr 0)) = Ret /\
  count is_upload t = 1%nat /\ count is_blocklist t = 0%nat.
Proof.
  intros tr inputs t.
  destruct (small_source_takes_putBlob tr 0) as [H1 H2].
  - right. vm_compute. discriminate.
  - split; [apply H2; vm_compute; lia|].
    destruct (H1 inputs t) as (Ha & Hb & _).
    + vm_compute. reflexivity.
    + split; assumption.
Defined.

(** ** The chunk functions of a transfer, interleaved *)

Ltac follow :=
  repeat first
    [ exact I
    | progress cbn [follows next seq andb]
    | match goal with
      | |- context [?a =? ?a] => rewrite Z.eqb_refl
      | |- context [String.eqb ?a ?a] => rewrite String.eqb_refl
      | |- forall _, _ => intro
      end
    | match goal with
      | |- context [if ?b then _ else _] => destruct b eqn:?
      end ].

Lemma follows_generateUploadFunc tr chunkId len start w :
  follows (Int.uint32 (NumChunks tr)) chunkId MStart
          (generateUploadFunc tr chunkId len start w).
Proof.
  unfold generateUploadFunc, finalizeIfLast, transferDone.
  follow.
Qed.

Lemma same_core_refl s : same_core s s.
Proof. repeat split; auto. Qed.

(** A step of a chunk function that keeps to the protocol is a step of
    the protocol, or the panic of a store outside the slots. *)
Lemma step_transition total i m (X : Type) (o : op X) (k : X -> prog)
    c sh e sh' a :
  follows total i m (Vis o k) ->
  exec_op c sh o = (e, sh', a) ->
  (exists x m',
      a = Some x /\ follows total i m' (k x) /\
      transition total i m sh e sh' m') \/
  (a = None /\ exists u,
      m = MWill (Some u) /\
      store_blockId i (Base64.EncodeToString u) sh = None).
Proof.
  intros Hf Hex. cbn [follows] in Hf.
  destruct o as [ | | n0 | m0 | | l0 m0 | | | v0 | | | | | j id
                | id start len | | n0 | | | body ];
    cbn [exec_op] in Hex.
  all: try (specialize (Hf tt); cbn [next] in Hf; contradiction).
  - (* CtxErr *)
    injection Hex as <- <- <-. specialize (Hf (cancelled sh)).
    left. exists (cancelled sh).
    destruct m; cbn [next] in Hf; try contradiction.
    + destruct (cancelled sh) eqn:Hc; eexists; (split; [reflexivity|]);
        (split; [exact Hf|]); constructor; assumption.
    + eexists; split; [reflexivity|]; split; [exact Hf|].
      constructor; [discriminate|reflexivity|apply same_core_refl].
    + destruct (cancelled sh) eqn:Hc; eexists; (split; [reflexivity|]);
        (split; [exact Hf|]).
      * constructor; [discriminate|reflexivity|apply same_core_refl].
      * constructor; assumption.
    + eexists; split; [reflexivity|]; split; [exact Hf|].
      constructor; [discriminate|reflexivity|apply same_core_refl].
  - (* Log *)
    injection Hex as <- <- <-. specialize (Hf tt).
    left. exists tt.
    destruct m; cbn [next] in Hf; try contradiction;
      eexists; (split; [reflexivity|]); (split; [exact Hf|]);
      (constructor; [discriminate|reflexivity|apply same_core_refl]).
  - (* ChunksDone *)
    unfold do_ChunksDone in Hex. injection Hex as <- <- <-.
    set (v := Int.uint32 (chunksDone sh + 1)) in *.
    specialize (Hf v). left. exists v.
    destruct m; cbn [next] in Hf; try contradiction.
    destruct (Z.eqb_spec v total) as [Hv|Hv].
    + eexists; split; [reflexivity|]; split; [exact Hf|].
      rewrite Hv. constructor. exact Hv.
    + eexists; split; [reflexivity|]; split; [exact Hf|].
      constructor; [reflexivity|exact Hv].
  - (* TransferDone *)
    injection Hex as <- <- <-. specialize (Hf tt).
    left. exists tt.
    destruct m; cbn [next] in Hf; try contradiction;
      eexists; (split; [reflexivity|]); (split; [exact Hf|]); constructor.
  - (* TransferStatus *)
    injection Hex as <- <- <-. specialize (Hf tt).
    left. exists tt.
    destruct m; cbn [next] in Hf; try contradiction;
      eexists; (split; [reflexivity|]); (split; [exact Hf|]);
      (constructor; [discriminate|reflexivity|]); repeat split; auto.
  - (* TransferCancelFunc *)
    injection Hex as <- <- <-. specialize (Hf tt).
    left. exists tt.
    destruct m; cbn [next] in Hf; try contradiction;
      eexists; (split; [reflexivity|]); (split; [exact Hf|]);
      (constructor; [discriminate|reflexivity|]); repeat split; auto.
  - (* Unmap *)
    injection Hex as <- <- <-. specialize (Hf tt).
    left. exists tt.
    destruct m; cbn [next] in Hf; try contradiction;
      eexists; (split; [reflexivity|]); (split; [exact Hf|]);
      (constructor; [discriminate|reflexivity|apply same_core_refl]).
  - (* Close *)
    injection Hex as <- <- <-. specialize (Hf (io_err c)).
    left. exists (io_err c).
    destruct m; cbn [next] in Hf; try contradiction;
      eexists; (split; [reflexivity|]); (split; [exact Hf|]);
      (constructor; [discriminate|reflexivity|apply same_core_refl]).
  - (* NewUUID *)
    injection Hex as <- <- <-. specialize (Hf (fresh c)).
    left. exists (fresh c).
    destruct m as [|[u|]| | | | |]; cbn [next] in Hf; try contradiction.
    eexists; split; [reflexivity|]; split; [exact Hf|]. constructor.
  - (* SetBlockId *)
    specialize (Hf tt).
    destruct m as [|[u|]| | | | |]; cbn [next] in Hf; try contradiction.
    destruct ((j =? i) && String.eqb id (Base64.EncodeToString u)) eqn:E;
      [|contradiction].
    apply andb_true_iff in E as [E1 E2].
    apply Z.eqb_eq in E1. apply String.eqb_eq in E2. subst j id.
    destruct (store_blockId i (Base64.EncodeToString u) sh) as [s1|] eqn:Hst.
    + injection Hex as <- <- <-.
      apply store_blockId_Some in Hst as (l & Hl & Hi & ->).
      left. exists tt. eexists; split; [reflexivity|]; split; [exact Hf|].
      econstructor; eassumption.
    + injection Hex as <- <- <-.
      right. split; [reflexivity|]. exists u. split; [reflexivity|exact Hst].
  - (* StageBlock *)
    injection Hex as <- <- <-. specialize (Hf (io_err c)).
    left. exists (io_err c).
    destruct m; cbn [next] in Hf; try contradiction;
      eexists; (split; [reflexivity|]); (split; [exact Hf|]);
      (constructor; [discriminate|reflexivity|apply same_core_refl]).
  - (* CloseResponse *)
    injection Hex as <- <- <-. specialize (Hf tt).
    left. exists tt.
    destruct m; cbn [next] in Hf; try contradiction;
      eexists; (split; [reflexivity|]); (split; [exact Hf|]);
      (constructor; [discriminate|reflexivity|apply same_core_refl]).
  - (* UpdateCurrentBytes *)
    injection Hex as <- <- <-. specialize (Hf tt).
    left. exists tt.
    destruct m; cbn [next] in Hf; try contradiction;
      eexists; (split; [reflexivity|]); (split; [exact Hf|]);
      (constructor; [discriminate|reflexivity|]); repeat split; auto.
  - (* BlobHttpHeaderAndMetadata *)
    injection Hex as <- <- <-. specialize (Hf tt).
    left. exists tt.
    destruct m; cbn [next] in Hf; try contradiction;
      eexists; (split; [reflexivity|]); (split; [exact Hf|]);
      (constructor; [discriminate|reflexivity|apply same_core_refl]).
  - (* CommitBlockList *)
    injection Hex as <- <- <-. specialize (Hf (io_err c)).
    left. exists (io_err c).
    destruct m; cbn [next] in Hf; try contradiction.
    eexists; split; [reflexivity|]; split; [exact Hf|]. constructor.
  - (* Upload *)
    specialize (Hf (io_err c)). cbn [next] in Hf. contradiction.
Qed.

(** *** Counting modes *)

Section Counting.

Variable P : mode -> bool.

Lemma cnt_cons m ms : cnt P (m :: ms) = b2z (P m) + cnt P ms.
Proof.
  unfold cnt, b2z. simpl. destruct (P m); simpl; lia.
Qed.

Lemma cnt_bounds ms : 0 <= cnt P ms <= Z.of_nat (length ms).
Proof.
  induction ms as [|m ms IH]; [unfold cnt; simpl; lia|].
  rewrite cnt_cons. unfold b2z. simpl length. destruct (P m); lia.
Qed.

Lemma cnt_insert ms : forall i m m',
  ms !! i = Some m ->
  cnt P (<[i := m']> ms) = cnt P ms - b2z (P m) + b2z (P m').
Proof.
  induction ms as [|m0 ms IH]; intros i m m' H; [discriminate|].
  destruct i as [|i]; simpl in *.
  - injection H as ->. rewrite !cnt_cons. lia.
  - rewrite !cnt_cons. rewrite (IH i m m' H). lia.
Qed.

Lemma cnt_lt ms : forall i m,
  ms !! i = Some m -> P m = false -> cnt P ms < Z.of_nat (length ms).
Proof.
  induction ms as [|m0 ms IH]; intros i m H Hm; [discriminate|].
  rewrite cnt_cons. simpl length.
  destruct i as [|i]; simpl in H.
  - injection H as ->. rewrite Hm. pose proof (cnt_bounds ms).
    unfold b2z. lia.
  - pose proof (IH i m H Hm). unfold b2z. destruct (P m0); lia.
Qed.

Lemma cnt_ge1 ms : forall i m,
  ms !! i = Some m -> P m = true -> 1 <= cnt P ms.
Proof.
  induction ms as [|m0 ms IH]; intros i m H Hm; [discriminate|].
  rewrite cnt_cons. pose proof (cnt_bounds ms).
  destruct i as [|i]; simpl in H.
  - injection H as ->. rewrite Hm. unfold b2z. lia.
  - pose proof (IH i m H Hm). unfold b2z. destruct (P m0); lia.
Qed.

Lemma cnt_unique ms : forall i j m m',
  cnt P ms <= 1 ->
  ms !! i = Some m -> P m = true ->
  ms !! j = Some m' -> P m' = true -> i = j.
Proof.
  induction ms as [|m0 ms IH]; intros i j m m' Hc Hi Hm Hj Hm';
    [discriminate|].
  rewrite cnt_cons in Hc. pose proof (cnt_bounds ms).
  destruct i as [|i], j as [|j]; simpl in Hi, Hj; try reflexivity.
  - injection Hi as ->. rewrite Hm in Hc.
    pose proof (cnt_ge1 ms j m' Hj Hm'). unfold b2z in Hc. lia.
  - injection Hj as ->. rewrite Hm' in Hc.
    pose proof (cnt_ge1 ms i m Hi Hm). unfold b2z in Hc. lia.
  - f_equal. apply (IH i j m m'); auto.
    unfold b2z in Hc. destruct (P m0); lia.
Qed.

Lemma cnt_full ms : forall i m,
  cnt P ms = Z.of_nat (length ms) -> ms !! i = Some m -> P m = true.
Proof.
  intros i m Hc Hi. destruct (P m) eqn:E; [reflexivity|].
  pose proof (cnt_lt ms i m Hi E). lia.
Qed.

Lemma cnt_zero ms : forall i m,
  cnt P ms = 0 -> ms !! i = Some m -> P m = false.
Proof.
  intros i m Hc Hi. destruct (P m) eqn:E; [|reflexivity].
  pose proof (cnt_ge1 ms i m Hi E). lia.
Qed.

End Counting.

Lemma count_all_cons f tid e tr :
  count_all f ((tid, e) :: tr) =
    ((if f e then 1 else 0) + count_all f tr)%nat.
Proof.
  unfold count_all. simpl. destruct (f e); reflexivity.
Qed.

Lemma count_of_cons tid' f tid e tr :
  count_of tid' f ((tid, e) :: tr) =
    ((if Nat.eqb tid tid' && f e then 1 else 0) + count_of tid' f tr)%nat.
Proof.
  unfold count_of. simpl. destruct (Nat.eqb tid tid' && f e); reflexivity.
Qed.

(** *** The invariant is kept by every step of the protocol *)

Ltac by_cases Htr :=
  destruct Htr as
    [ m s e s' Hne Hneutral (Hcd & Hids & Hpan & Hcan)
    | s Hc | s Hc | s u | s u l Hl Hi | s w Hv | s w v Hv Hne
    | s w Hc | s w err | s w | s w ].

Lemma room total s ms tr tid m :
  Inv total s ms tr -> ms !! tid = Some m -> past_counter m = false ->
  Int.uint32 (chunksDone s + 1) = chunksDone s + 1 /\
  0 <= chunksDone s < total.
Proof.
  intros HI Hm Hp. destruct HI.
  pose proof (cnt_lt past_counter ms tid m Hm Hp).
  pose proof (cnt_bounds past_counter ms).
  split; [apply uint32_small|]; lia.
Qed.

Lemma pres_alive total s ms tr tid m e s' m' :
  Inv total s ms tr -> ms !! tid = Some m ->
  transition total (Z.of_nat tid) m s e s' m' ->
  panicked s' = false.
Proof.
  intros HI Hm Htr. destruct HI.
  by_cases Htr; try assumption. congruence.
Qed.

Lemma pres_counter total s ms tr tid m e s' m' :
  Inv total s ms tr -> ms !! tid = Some m ->
  transition total (Z.of_nat tid) m s e s' m' ->
  chunksDone s' = cnt past_counter (<[tid := m']> ms).
Proof.
  intros HI Hm Htr. pose proof (room _ _ _ _ _ _ HI Hm) as Hroom.
  destruct HI. rewrite (cnt_insert _ _ _ _ _ Hm).
  by_cases Htr; cbn [past_counter b2z] in *; try (simpl; lia).
  all: destruct (Hroom eq_refl); simpl; lia.
Qed.

Lemma pres_last total s ms tr tid m e s' m' :
  Inv total s ms tr -> ms !! tid = Some m ->
  transition total (Z.of_nat tid) m s e s' m' ->
  cnt got_last (<[tid := m']> ms) = (if chunksDone s' =? total then 1 else 0).
Proof.
  intros HI Hm Htr. pose proof (room _ _ _ _ _ _ HI Hm) as Hroom.
  destruct HI. rewrite (cnt_insert _ _ _ _ _ Hm).
  by_cases Htr; cbn [past_counter got_last owes_done has_finalized orb b2z] in *;
    try (simpl; lia).
  - rewrite Hcd. lia.
  - destruct (Hroom eq_refl) as [Hu Hr]. simpl.
    rewrite Z.eqb_refl.
    destruct (Z.eqb_spec (chunksDone s) total); lia.
  - destruct (Hroom eq_refl) as [Hu Hr]. simpl.
    destruct (Z.eqb_spec v total); [contradiction|].
    destruct (Z.eqb_spec (chunksDone s) total); lia.
Qed.

Lemma pres_done total s ms tr tid m e s' m' :
  Inv total s ms tr -> ms !! tid = Some m ->
  transition total (Z.of_nat tid) m s e s' m' ->
  Z.of_nat (count_all is_TransferDone ((tid, e) :: tr)) =
    cnt has_finalized (<[tid := m']> ms).
Proof.
  intros HI Hm Htr. destruct HI.
  rewrite (cnt_insert _ _ _ _ _ Hm), count_all_cons.
  by_cases Htr; cbn [has_finalized is_TransferDone b2z] in *; try lia.
  destruct e; try discriminate; cbn [is_TransferDone]; lia.
Qed.

Lemma pres_commits total s ms tr tid m e s' m' :
  Inv total s ms tr -> ms !! tid = Some m ->
  transition total (Z.of_nat tid) m s e s' m' ->
  Z.of_nat (count_all is_commit ((tid, e) :: tr)) +
    cnt may_commit (<[tid := m']> ms) <= cnt got_last (<[tid := m']> ms).
Proof.
  intros HI Hm Htr. destruct HI.
  rewrite !(cnt_insert _ _ _ _ _ Hm), count_all_cons.
  by_cases Htr;
    cbn [may_commit got_last owes_done has_finalized orb is_commit b2z] in *;
    try lia.
  destruct e; try discriminate; cbn [is_commit]; lia.
Qed.
Lemma transition_modes total i m s e s' m' :
  transition total i m s e s' m' ->
  (forall x, stored m = Some x -> stored m' = Some x) /\
  (past_counter m = true -> past_counter m' = true) /\
  (got_last m = true -> got_last m' = true) /\
  (has_finalized m = true -> has_finalized m' = true) /\
  (forall u, m = MWill (Some u) ->
     m' = MWill (Some u) \/ stored m' = Some (Base64.EncodeToString u)) /\
  (got_last m' = true -> got_last m = true \/ e = EChunksDone total) /\
  (skipped m' = true -> cancelled s' = true \/ skipped m = true).
Proof.
  intros Htr. by_cases Htr.
  all: repeat split; cbn; try discriminate; auto.
  all: try (intros ? [= ->]; auto).
  all: try (destruct w; auto; fail).
Qed.

Lemma transition_cancelled total i m s e s' m' :
  transition total i m s e s' m' ->
  cancelled s = true -> cancelled s' = true.
Proof.
  intros Htr. by_cases Htr; cbn; auto.
Qed.

Lemma transition_slots total i m s e s' m' :
  transition total i m s e s' m' ->
  forall l, blockIds s = Some l ->
    exists l', blockIds s' = Some l' /\ length l' = length l /\
      forall j, j <> Z.to_nat i -> l' !! j = l !! j.
Proof.
  intros Htr l0 Hl0. by_cases Htr.
  5: { rewrite Hl in Hl0. injection Hl0 as <-.
       eexists. cbn. split; [reflexivity|]. split; [apply length_insert|].
       intros j Hj. apply list_lookup_insert_ne. auto. }
  all: exists l0; cbn; repeat split; solve [auto | congruence].
Qed.

Lemma transition_keeps_slots total i m s e s' m' :
  transition total i m s e s' m' ->
  past_counter m = true -> blockIds s' = blockIds s.
Proof.
  intros Htr. by_cases Htr; cbn; solve [auto | discriminate].
Qed.

Lemma transition_no_panic total i m s e s' m' :
  transition total i m s e s' m' -> e <> EPanic.
Proof.
  intros Htr. by_cases Htr; try discriminate.
  intros ->. discriminate.
Qed.
Ltac at_tid Hl tid' tid Hm :=
  destruct (Nat.eq_dec tid' tid) as [->|?];
  [ rewrite list_lookup_insert_eq in Hl
      by (eapply lookup_lt_Some; exact Hm);
    injection Hl as <-
  | rewrite list_lookup_insert_ne in Hl by auto ].

Lemma past_not_skipped_stored m :
  past_counter m = true -> skipped m = false -> is_Some (stored m).
Proof.
  destruct m as [|u|w|w|w|w|f w]; cbn; try discriminate;
    destruct w; cbn; try discriminate; eauto.
Qed.

Lemma all_stored_step total tid ms m s e s' m' :
  all_stored ms -> ms !! tid = Some m ->
  transition total (Z.of_nat tid) m s e s' m' ->
  all_stored (<[tid := m']> ms).
Proof.
  intros Hall Hm Htr tid' m'' Hl.
  destruct (transition_modes _ _ _ _ _ _ _ Htr) as (Ha & Hb & _).
  at_tid Hl tid' tid Hm.
  - destruct (Hall tid m Hm) as [Hp [x Hx]].
    split; [auto|]. exists x. auto.
  - apply (Hall tid' m'' Hl).
Qed.

Lemma the_blockIds_step total tid m s e s' m' ms tr tid' :
  Inv total s ms tr -> ms !! tid = Some m ->
  transition total (Z.of_nat tid) m s e s' m' ->
  tid' <> tid ->
  the_blockIds s' !! tid' = the_blockIds s !! tid'.
Proof.
  intros HI Hm Htr Hne. destruct (inv_slots _ _ _ _ HI) as (l & Hl & _).
  destruct (transition_slots _ _ _ _ _ _ _ Htr l Hl) as (l' & Hl' & _ & Hsame).
  unfold the_blockIds. rewrite Hl, Hl'. apply Hsame.
  rewrite Nat2Z.id. exact Hne.
Qed.

Lemma pres_skipped total s ms tr tid m e s' m' :
  Inv total s ms tr -> ms !! tid = Some m ->
  transition total (Z.of_nat tid) m s e s' m' ->
  forall tid' m'', <[tid := m']> ms !! tid' = Some m'' ->
    skipped m'' = true -> cancelled s' = true.
Proof.
  intros HI Hm Htr tid' m'' Hl Hsk.
  destruct (transition_modes _ _ _ _ _ _ _ Htr) as (_ & _ & _ & _ & _ & _ & Hg).
  pose proof (transition_cancelled _ _ _ _ _ _ _ Htr) as Hmono.
  at_tid Hl tid' tid Hm.
  - destruct (Hg Hsk) as [?|Hs]; [assumption|].
    apply Hmono. eapply inv_skipped; eauto.
  - apply Hmono. eapply inv_skipped; eauto.
Qed.

Lemma pres_stored total s ms tr tid m e s' m' :
  Inv total s ms tr -> ms !! tid = Some m ->
  transition total (Z.of_nat tid) m s e s' m' ->
  forall tid' m'' id, <[tid := m']> ms !! tid' = Some m'' ->
    stored m'' = Some id ->
    the_blockIds s' !! tid' = Some id /\
    exists u, id = Base64.EncodeToString u /\
              (tid', ENewUUID u) ∈ (tid, e) :: tr.
Proof.
  intros HI Hm Htr tid' m'' id Hl Hst.
  at_tid Hl tid' tid Hm.
  - pose proof (inv_stored _ _ _ _ HI tid) as Hold.
    pose proof (inv_will _ _ _ _ HI tid) as Hwill.
    destruct (inv_slots _ _ _ _ HI) as (l0 & Hl0 & Hlen).
    pose proof (lookup_lt_Some _ _ _ Hm) as Hlt.
    by_cases Htr; cbn [stored] in Hst; try discriminate.
    1: { destruct (Hold _ _ Hm Hst) as (H1 & u & Hu & Hin).
         split; [unfold the_blockIds in *; rewrite Hids; exact H1|].
         exists u. split; [exact Hu|]. apply elem_of_cons. auto. }
    1: { injection Hst as <-. split.
         - unfold the_blockIds. cbn. rewrite Nat2Z.id.
           apply list_lookup_insert_eq. rewrite Hl in Hl0.
           injection Hl0 as ->. lia.
         - exists u. split; [reflexivity|]. apply elem_of_cons. right.
           apply Hwill. exact Hm. }
    all: destruct (Hold _ _ Hm Hst) as (H1 & u0 & Hu & Hin).
    all: split; [exact H1|]; exists u0; split; [exact Hu|].
    all: apply elem_of_cons; auto.
  - destruct (inv_stored _ _ _ _ HI tid' m'' id Hl Hst) as (H1 & u & Hu & Hin).
    split.
    + rewrite (the_blockIds_step _ _ _ _ _ _ _ _ _ _ HI Hm Htr) by assumption.
      exact H1.
    + exists u. split; [exact Hu|]. apply elem_of_cons. auto.
Qed.

Lemma pres_drawn total s ms tr tid m e s' m' :
  Inv total s ms tr -> ms !! tid = Some m ->
  transition total (Z.of_nat tid) m s e s' m' ->
  forall tid' uid, (tid', ENewUUID uid) ∈ (tid, e) :: tr ->
    exists m'', <[tid := m']> ms !! tid' = Some m'' /\
      (m'' = MWill (Some uid) \/ stored m'' = Some (Base64.EncodeToString uid)).
Proof.
  intros HI Hm Htr tid' uid Hin.
  pose proof (lookup_lt_Some _ _ _ Hm) as Hlt.
  destruct (transition_modes _ _ _ _ _ _ _ Htr) as (Ha & _ & _ & _ & He & _).
  apply elem_of_cons in Hin as [Heq|Hin].
  - injection Heq as -> Hev. exists m'.
    split; [apply list_lookup_insert_eq; exact Hlt|].
    by_cases Htr; try discriminate Hev.
    + rewrite <- Hev in Hneutral. discriminate.
    + injection Hev as ->. left. reflexivity.
  - destruct (inv_drawn _ _ _ _ HI tid' uid Hin) as (m0 & Hm0 & Hcase).
    destruct (Nat.eq_dec tid' tid) as [->|Hne].
    + rewrite Hm in Hm0. injection Hm0 as <-. exists m'.
      split; [apply list_lookup_insert_eq; exact Hlt|].
      destruct Hcase as [Hw|Hs]; [apply He; exact Hw|right; apply Ha; exact Hs].
    + exists m0. split; [|exact Hcase].
      rewrite list_lookup_insert_ne by auto. exact Hm0.
Qed.

Lemma pres_will total s ms tr tid m e s' m' :
  Inv total s ms tr -> ms !! tid = Some m ->
  transition total (Z.of_nat tid) m s e s' m' ->
  forall tid' uid, <[tid := m']> ms !! tid' = Some (MWill (Some uid)) ->
    (tid', ENewUUID uid) ∈ (tid, e) :: tr.
Proof.
  intros HI Hm Htr tid' uid Hl. apply elem_of_cons.
  destruct (Nat.eq_dec tid' tid) as [->|Hne].
  - rewrite list_lookup_insert_eq in Hl
      by (eapply lookup_lt_Some; exact Hm).
    injection Hl as Heq.
    by_cases Htr; try discriminate Heq.
    + right. subst m. eapply inv_will; eauto.
    + injection Heq as ->. left. reflexivity.
  - rewrite list_lookup_insert_ne in Hl by auto.
    right. eapply inv_will; eauto.
Qed.

Lemma pres_committing total s ms tr tid m e s' m' :
  Inv total s ms tr -> ms !! tid = Some m ->
  transition total (Z.of_nat tid) m s e s' m' ->
  forall tid' m'', <[tid := m']> ms !! tid' = Some m'' ->
    is_committing m'' = true -> all_stored (<[tid := m']> ms).
Proof.
  intros HI Hm Htr tid' m'' Hl Hcm.
  eapply all_stored_step; [|exact Hm|exact Htr].
  at_tid Hl tid' tid Hm; [|eapply inv_committing; eauto].
  pose proof (inv_committing _ _ _ _ HI tid m Hm) as Hold.
  by_cases Htr; cbn [is_committing] in Hcm; try discriminate.
  - apply Hold. exact Hcm.
  - (* the check that finds the transfer not cancelled *)
    intros j mj Hj.
    pose proof (inv_last _ _ _ _ HI) as Hlast.
    pose proof (cnt_ge1 got_last ms tid _ Hm eq_refl) as Hge.
    destruct (Z.eqb_spec (chunksDone s) total) as [Hcd|Hcd]; [|lia].
    rewrite (inv_counter _ _ _ _ HI) in Hcd.
    rewrite <- (inv_len _ _ _ _ HI) in Hcd.
    pose proof (cnt_full past_counter ms j mj Hcd Hj) as Hpast.
    split; [exact Hpast|].
    apply past_not_skipped_stored; [exact Hpast|].
    destruct (skipped mj) eqn:Hsk; [|reflexivity].
    pose proof (inv_skipped _ _ _ _ HI j mj Hj Hsk). congruence.
Qed.

Lemma pres_committed total s ms tr tid m e s' m' :
  Inv total s ms tr -> ms !! tid = Some m ->
  transition total (Z.of_nat tid) m s e s' m' ->
  forall tid' ids cerr, (tid', ECommitBlockList ids cerr) ∈ (tid, e) :: tr ->
    ids = the_blockIds s' /\ all_stored (<[tid := m']> ms).
Proof.
  intros HI Hm Htr tid' ids cerr Hin.
  apply elem_of_cons in Hin as [Heq|Hin].
  - injection Heq as -> Hev.
    split.
    + by_cases Htr; try discriminate Hev.
      * rewrite <- Hev in Hneutral. discriminate.
      * congruence.
    + eapply all_stored_step; [|exact Hm|exact Htr].
      by_cases Htr; try discriminate Hev.
      * rewrite <- Hev in Hneutral. discriminate.
      * eapply inv_committing; [exact HI|exact Hm|reflexivity].
  - destruct (inv_committed _ _ _ _ HI tid' ids cerr Hin) as [-> Hall].
    split; [|eapply all_stored_step; eauto].
    destruct (Hall tid m Hm) as [Hp _].
    unfold the_blockIds.
    rewrite (transition_keeps_slots _ _ _ _ _ _ _ Htr Hp). reflexivity.
Qed.
Lemma pres_counted total s ms tr tid m e s' m' :
  Inv total s ms tr -> ms !! tid = Some m ->
  transition total (Z.of_nat tid) m s e s' m' ->
  forall tid' m'', <[tid := m']> ms !! tid' = Some m'' ->
    count_of tid' is_ChunksDone ((tid, e) :: tr) =
      (if past_counter m'' then 1 else 0)%nat.
Proof.
  intros HI Hm Htr tid' m'' Hl. rewrite count_of_cons.
  at_tid Hl tid' tid Hm.
  - rewrite Nat.eqb_refl. cbn [andb].
    rewrite (inv_counted _ _ _ _ HI tid m Hm).
    by_cases Htr; cbn [past_counter is_ChunksDone]; try reflexivity.
    destruct e; try discriminate; cbn [is_ChunksDone];
      destruct (past_counter m); reflexivity.
  - assert (Nat.eqb tid tid' = false) as -> by (apply Nat.eqb_neq; auto).
    cbn [andb]. apply (inv_counted _ _ _ _ HI tid' m'' Hl).
Qed.

Lemma pres_last_by total s ms tr tid m e s' m' :
  Inv total s ms tr -> ms !! tid = Some m ->
  transition total (Z.of_nat tid) m s e s' m' ->
  forall tid', (tid', EChunksDone total) ∈ (tid, e) :: tr <->
    exists m'', <[tid := m']> ms !! tid' = Some m'' /\ got_last m'' = true.
Proof.
  intros HI Hm Htr tid'.
  pose proof (lookup_lt_Some _ _ _ Hm) as Hlt.
  destruct (transition_modes _ _ _ _ _ _ _ Htr)
    as (_ & _ & Hgl & _ & _ & Hf & _).
  rewrite elem_of_cons. split.
  - intros [Heq|Hin].
    + injection Heq as -> Hev. exists m'.
      split; [apply list_lookup_insert_eq; exact Hlt|].
      by_cases Htr; try discriminate Hev; try reflexivity.
      * rewrite <- Hev in Hneutral. discriminate.
      * injection Hev as Hev. congruence.
    + apply (inv_last_by _ _ _ _ HI) in Hin as (m0 & Hm0 & Hg).
      destruct (Nat.eq_dec tid' tid) as [->|Hne].
      * rewrite Hm in Hm0. injection Hm0 as <-. exists m'.
        split; [apply list_lookup_insert_eq; exact Hlt|auto].
      * exists m0. rewrite list_lookup_insert_ne by auto. auto.
  - intros (m'' & Hl & Hg).
    at_tid Hl tid' tid Hm.
    + destruct (Hf Hg) as [Hold| ->]; [|left; reflexivity].
      right. apply (inv_last_by _ _ _ _ HI). eauto.
    + right. apply (inv_last_by _ _ _ _ HI). eauto.
Qed.

Lemma pres_done_by total s ms tr tid m e s' m' :
  Inv total s ms tr -> ms !! tid = Some m ->
  transition total (Z.of_nat tid) m s e s' m' ->
  forall tid', (tid', ETransferDone) ∈ (tid, e) :: tr ->
    exists m'', <[tid := m']> ms !! tid' = Some m'' /\
                has_finalized m'' = true.
Proof.
  intros HI Hm Htr tid' Hin.
  pose proof (lookup_lt_Some _ _ _ Hm) as Hlt.
  destruct (transition_modes _ _ _ _ _ _ _ Htr) as (_ & _ & _ & Hd & _).
  apply elem_of_cons in Hin as [Heq|Hin].
  - injection Heq as -> Hev. exists m'.
    split; [apply list_lookup_insert_eq; exact Hlt|].
    by_cases Htr; try discriminate Hev; try reflexivity.
    rewrite <- Hev in Hneutral. discriminate.
  - apply (inv_done_by _ _ _ _ HI) in Hin as (m0 & Hm0 & Hg).
    destruct (Nat.eq_dec tid' tid) as [->|Hne].
    + rewrite Hm in Hm0. injection Hm0 as <-. exists m'.
      split; [apply list_lookup_insert_eq; exact Hlt|auto].
    + exists m0. rewrite list_lookup_insert_ne by auto. auto.
Qed.

Lemma pres_commit_by total s ms tr tid m e s' m' :
  Inv total s ms tr -> ms !! tid = Some m ->
  transition total (Z.of_nat tid) m s e s' m' ->
  forall tid' ids cerr, (tid', ECommitBlockList ids cerr) ∈ (tid, e) :: tr ->
    exists m'', <[tid := m']> ms !! tid' = Some m'' /\ got_last m'' = true.
Proof.
  intros HI Hm Htr tid' ids cerr Hin.
  pose proof (lookup_lt_Some _ _ _ Hm) as Hlt.
  destruct (transition_modes _ _ _ _ _ _ _ Htr) as (_ & _ & Hgl & _).
  apply elem_of_cons in Hin as [Heq|Hin].
  - injection Heq as -> Hev. exists m'.
    split; [apply list_lookup_insert_eq; exact Hlt|].
    by_cases Htr; try discriminate Hev; try reflexivity.
    rewrite <- Hev in Hneutral. discriminate.
  - apply (inv_commit_by _ _ _ _ HI) in Hin as (m0 & Hm0 & Hg).
    destruct (Nat.eq_dec tid' tid) as [->|Hne].
    + rewrite Hm in Hm0. injection Hm0 as <-. exists m'.
      split; [apply list_lookup_insert_eq; exact Hlt|auto].
    + exists m0. rewrite list_lookup_insert_ne by auto. auto.
Qed.

(** The invariant is kept by every step of the protocol. *)
Lemma Inv_transition total s ms tr tid m e s' m' :
  Inv total s ms tr -> ms !! tid = Some m ->
  transition total (Z.of_nat tid) m s e s' m' ->
  Inv total s' (<[tid := m']> ms) ((tid, e) :: tr).
Proof.
  intros HI Hm Htr. constructor.
  - rewrite length_insert. apply (inv_len _ _ _ _ HI).
  - apply (inv_range _ _ _ _ HI).
  - eapply pres_alive; eauto.
  - eapply pres_counter; eauto.
  - eapply pres_last; eauto.
  - eapply pres_done; eauto.
  - eapply pres_commits; eauto.
  - eapply pres_skipped; eauto.
  - destruct (inv_slots _ _ _ _ HI) as (l & Hl & Hlen).
    destruct (transition_slots _ _ _ _ _ _ _ Htr l Hl) as (l' & Hl' & Hlen' & _).
    exists l'. split; [exact Hl'|]. rewrite length_insert. congruence.
  - eapply pres_stored; eauto.
  - eapply pres_drawn; eauto.
  - eapply pres_will; eauto.
  - eapply pres_committing; eauto.
  - eapply pres_committed; eauto.
  - eapply pres_counted; eauto.
  - eapply pres_last_by; eauto.
  - eapply pres_done_by; eauto.
  - eapply pres_commit_by; eauto.
  - intros tid' Hin. apply elem_of_cons in Hin as [Heq|Hin].
    + injection Heq as _ Hev.
      apply (transition_no_panic _ _ _ _ _ _ _ Htr). auto.
    + apply (inv_no_panic _ _ _ _ HI tid' Hin).
  - intros tid' e' Hin. rewrite length_insert.
    apply elem_of_cons in Hin as [Heq|Hin].
    + injection Heq as -> _. eapply lookup_lt_Some. exact Hm.
    + apply (inv_tids _ _ _ _ HI tid' e' Hin).
Qed.

(** The invariant is kept when the transfer is cancelled from outside. *)
Lemma Inv_cancel total s ms tr :
  Inv total s ms tr -> Inv total (set_cancelled true s) ms tr.
Proof.
  intros HI. destruct HI. constructor; auto.
Qed.
Lemma SysInv_step total a sys :
  SysInv total sys -> SysInv total (sys_step a sys).
Proof.
  intros (ms & [Hlen Hfol] & HI). unfold sys_step.
  rewrite (inv_alive _ _ _ _ HI).
  destruct a as [tid c|].
  - destruct (threads sys !! tid) as [p|] eqn:Hp;
      [|exists ms; split; [split; assumption|exact HI]].
    destruct p as [|X o k| |]; cbn [step];
      try (exists ms; split; [split; assumption|exact HI]).
    destruct (exec_op c (shared sys) o) as [[e s'] a] eqn:Hex.
    assert (exists m, ms !! tid = Some m) as [m Hm].
    { apply lookup_lt_is_Some. rewrite <- Hlen.
      eapply lookup_lt_Some. exact Hp. }
    pose proof (Hfol tid m _ Hm Hp) as Hf.
    destruct (step_transition _ _ _ _ _ _ _ _ _ _ _ Hf Hex)
      as [(x & m' & -> & Hf' & Htr)|(-> & u & -> & Hnone)].
    + exists (<[tid := m']> ms). cbn [shared threads trace resume].
      split; [|eapply Inv_transition; eauto].
      split; [rewrite !length_insert; exact Hlen|].
      intros tid' m'' p'' Hl Hl'.
      destruct (Nat.eq_dec tid' tid) as [->|Hne].
      * rewrite list_lookup_insert_eq in Hl
          by (eapply lookup_lt_Some; exact Hm).
        rewrite list_lookup_insert_eq in Hl'
          by (eapply lookup_lt_Some; exact Hp).
        injection Hl as <-. injection Hl' as <-. exact Hf'.
      * rewrite list_lookup_insert_ne in Hl by auto.
        rewrite list_lookup_insert_ne in Hl' by auto.
        eapply Hfol; eauto.
    + (* the store is within the slots *)
      exfalso. destruct (inv_slots _ _ _ _ HI) as (l & Hl & Hll).
      unfold store_blockId in Hnone. rewrite Hl in Hnone.
      pose proof (lookup_lt_Some _ _ _ Hm) as Hlt.
      destruct (Z.leb_spec 0 (Z.of_nat tid)); [|lia].
      destruct (Z.ltb_spec (Z.of_nat tid) (Z.of_nat (length l))); [|lia].
      discriminate.
  - exists ms. split; [split; assumption|]. apply Inv_cancel. exact HI.
Qed.

Lemma SysInv_run total sched :
  forall sys, SysInv total sys -> SysInv total (run_system sched sys).
Proof.
  induction sched as [|a sched IH]; intros sys H; [exact H|].
  cbn [run_system fold_left]. apply IH. apply SysInv_step. exact H.
Qed.

Lemma cnt_replicate P n :
  P MStart = false -> cnt P (replicate n MStart) = 0.
Proof.
  intros HP. induction n as [|n IH]; [reflexivity|].
  cbn [replicate]. rewrite cnt_cons, HP, IH. reflexivity.
Qed.

Lemma SysInv_start tr workerOf s :
  chunked_start tr s ->
  SysInv (Int.uint32 (NumChunks tr)) (start_workers tr workerOf s).
Proof.
  intros (Hlen & Hpos & Hidx & (l & Hl & Hll) & Hcd & Hpan).
  exists (replicate (length (channel s)) MStart).
  assert (forall tid m, replicate (length (channel s)) MStart !! tid = Some m ->
            m = MStart) as Hrep.
  { intros tid m H. apply lookup_replicate in H as [-> _]. reflexivity. }
  split; [split|].
  - cbn [start_workers threads]. rewrite length_imap, length_replicate.
    reflexivity.
  - intros tid m p Hm Hp. apply Hrep in Hm as ->.
    cbn [start_workers threads] in Hp.
    rewrite list_lookup_imap in Hp.
    destruct (channel s !! tid) as [j|] eqn:Hj; [|discriminate].
    cbn in Hp. injection Hp as <-.
    rewrite <- (Hidx tid j Hj). apply follows_generateUploadFunc.
  - cbn [start_workers shared trace].
    constructor; rewrite ?cnt_replicate by reflexivity.
    + rewrite length_replicate. exact Hlen.
    + unfold Int.uint32, Int.max_uint32.
      pose proof (Z.mod_pos_bound (NumChunks tr) (2 ^ 32) ltac:(lia)). lia.
    + exact Hpan.
    + exact Hcd.
    + rewrite Hcd. destruct (Z.eqb_spec 0 (Int.uint32 (NumChunks tr))); lia.
    + reflexivity.
    + cbn. lia.
    + intros tid m Hm Hs. apply Hrep in Hm as ->. discriminate.
    + exists l. rewrite length_replicate. auto.
    + intros tid m id Hm Hs. apply Hrep in Hm as ->. discriminate.
    + intros tid u Hin. apply elem_of_nil in Hin. contradiction.
    + intros tid u Hm. apply Hrep in Hm. discriminate.
    + intros tid m Hm Hs. apply Hrep in Hm as ->. discriminate.
    + intros tid ids cerr Hin. apply elem_of_nil in Hin. contradiction.
    + intros tid m Hm. apply Hrep in Hm as ->. reflexivity.
    + intros tid. split.
      * intros Hin. apply elem_of_nil in Hin. contradiction.
      * intros (m & Hm & Hg). apply Hrep in Hm as ->. discriminate.
    + intros tid Hin. apply elem_of_nil in Hin. contradiction.
    + intros tid ids cerr Hin. apply elem_of_nil in Hin. contradiction.
    + intros tid Hin. apply elem_of_nil in Hin. contradiction.
    + intros tid e Hin. apply elem_of_nil in Hin. contradiction.
Qed.
Lemma sends_chain (t : list obs) :
  forall s s' jobs,
    chained s t s' -> Forall prologue_effect t ->
    events t = ESend <$> jobs ->
    s' = set_channel (channel s ++ jobs) s.
Proof.
  induction t as [|o t IH]; intros s s' jobs Hch Hef Hev.
  - destruct jobs; [|discriminate]. cbn in Hch. subst s'.
    rewrite app_nil_r. destruct s; reflexivity.
  - destruct jobs as [|j jobs]; [discriminate|].
    cbn in Hev. injection Hev as Hev1 Hev2.
    destruct Hch as [Hpre Hch].
    apply Forall_cons in Hef as [Ho Hef].
    unfold prologue_effect in Ho. rewrite Hev1, Hpre in Ho.
    rewrite (IH _ _ jobs Hch Hef Hev2). rewrite Ho.
    destruct s; cbn. rewrite <- app_assoc. reflexivity.
Qed.

(** The state a chunked transfer is in when its prologue has returned. *)
Lemma prologue_leaves tr fuel cs s0 evs s1 :
  chunked_transfer tr ->
  run_alone cs s0 (runPrologue tr fuel) = (evs, s1, Ret) ->
  let blobSize := Int.int64 (SourceSize tr) in
  let chunkSize := Int.int64 (BlockSize tr) in
  let n := ceil_div blobSize chunkSize in
  s1 = set_channel
         (channel s0 ++ (chunk_at blobSize chunkSize <$> seqZ 0 n))
         (set_blockIds (Some (replicate (Z.to_nat n) EmptyString)) s0).
Proof.
  intros (HC & HS & Hov & Hnum & Hn) Hrun blobSize chunkSize n.
  apply run_alone_thread in Hrun as (inputs & t & Hrun & _ & Hch).
  revert s0 s1 Hch. all_runs Hrun.
  apply forall_runs_chunked_prologue; try assumption.
  fold blobSize chunkSize n. clear t. intros t Hev Hef s0 s1 Hch.
  destruct t as [|o1 [|o2 [|o3 t]]]; try discriminate.
  cbn in Hev. injection Hev as Hev1 Hev2 Hev3 Hev.
  destruct Hch as (Hp1 & Hp2 & Hp3 & Hch).
  apply Forall_cons in Hef as [Ho1 Hef].
  apply Forall_cons in Hef as [Ho2 Hef].
  apply Forall_cons in Hef as [Ho3 Hef].
  unfold prologue_effect in Ho1, Ho2, Ho3.
  rewrite Hev1 in Ho1. rewrite Hev2 in Ho2. rewrite Hev3 in Ho3.
  rewrite (sends_chain t _ _ _ Hch Hef Hev).
  rewrite Ho3, Hp3, Ho2, Hp2, Ho1, Hp1. fold blobSize chunkSize in Hnum.
  rewrite Hnum. reflexivity.
Qed.

Lemma prologue_chunked_start tr fuel cs s0 evs s1 :
  chunked_transfer tr -> untouched s0 ->
  run_alone cs s0 (runPrologue tr fuel) = (evs, s1, Ret) ->
  chunked_start tr s1.
Proof.
  intros Hct (Hch0 & Hcd0 & Hpan0) Hrun.
  pose proof (prologue_leaves _ _ _ _ _ _ Hct Hrun) as Hs1. cbn zeta in Hs1.
  destruct Hct as (HC & HS & Hov & Hnum & Hn).
  set (blobSize := Int.int64 (SourceSize tr)) in *.
  set (chunkSize := Int.int64 (BlockSize tr)) in *.
  set (n := ceil_div blobSize chunkSize) in *.
  pose proof (ceil_div_pos blobSize chunkSize HC ltac:(lia)) as Hpos.
  fold n in Hpos.
  assert (Int.uint32 (NumChunks tr) = n) as Htot.
  { rewrite Hnum. apply uint32_small. unfold Int.max_uint32. lia. }
  rewrite Hch0 in Hs1. cbn [app] in Hs1.
  unfold chunked_start. rewrite Htot. subst s1. cbn.
  rewrite !length_fmap, length_seqZ.
  repeat split; try assumption; try lia.
  - intros i m Hi.
    apply lookup_chunks in Hi as (Hlt & Hid & _); [|lia|lia].
    rewrite Hid. apply int32_small. unfold Int.max_int32.
    fold n in Hlt. lia.
  - eexists. split; [reflexivity|]. apply length_replicate.
Qed.
Lemma cnt_ext P Q ms :
  (forall i m, ms !! i = Some m -> P m = Q m) -> cnt P ms = cnt Q ms.
Proof.
  induction ms as [|m ms IH]; intros H; [reflexivity|].
  rewrite !cnt_cons. rewrite (H 0%nat m eq_refl).
  rewrite IH; [reflexivity|]. intros i m' Hi. apply (H (S i) m' Hi).
Qed.

Lemma cnt_le P Q ms :
  (forall m, P m = true -> Q m = true) -> cnt P ms <= cnt Q ms.
Proof.
  intros H. induction ms as [|m ms IH]; [unfold cnt; simpl; lia|].
  rewrite !cnt_cons. unfold b2z.
  destruct (P m) eqn:E; [rewrite (H m E)|destruct (Q m)]; lia.
Qed.

Lemma got_last_le_1 total s ms tr :
  Inv total s ms tr -> 0 <= cnt got_last ms <= 1.
Proof.
  intros HI. rewrite (inv_last _ _ _ _ HI).
  destruct (chunksDone s =? total); lia.
Qed.

Lemma count_of_pos tid f tr :
  (0 < count_of tid f tr)%nat -> exists e, (tid, e) ∈ tr.
Proof.
  unfold count_of. induction tr as [|[j e] l IH]; cbn; [lia|].
  destruct (Nat.eqb_spec j tid) as [->|Hne]; cbn.
  - intros _. exists e. apply elem_of_cons. left. reflexivity.
  - intros H. destruct (IH H) as [e' He']. exists e'.
    apply elem_of_cons. right. exact He'.
Qed.

(** The worker pool finalizes a transfer once. *)
Lemma pool_finalizes_once total sys :
  SysInv total sys ->
  (count_all is_TransferDone (trace sys) <= 1)%nat /\
  (count_all is_commit (trace sys) <= 1)%nat /\
  (forall tid, (count_of tid is_ChunksDone (trace sys) <= 1)%nat) /\
  (forall tid, (tid, ETransferDone) ∈ trace sys ->
               (tid, EChunksDone total) ∈ trace sys) /\
  (forall tid ids err, (tid, ECommitBlockList ids err) ∈ trace sys ->
               (tid, EChunksDone total) ∈ trace sys) /\
  (forall tid tid', (tid, EChunksDone total) ∈ trace sys ->
                    (tid', EChunksDone total) ∈ trace sys -> tid = tid') /\
  (all_returned sys ->
     count_all is_TransferDone (trace sys) = 1%nat /\
     chunksDone (shared sys) = total /\
     forall tid, (tid < length (threads sys))%nat ->
                 count_of tid is_ChunksDone (trace sys) = 1%nat).
Proof.
  intros (ms & [Hlen Hfol] & HI).
  pose proof (got_last_le_1 _ _ _ _ HI) as Hgl.
  pose proof (cnt_bounds may_commit ms) as Hmc.
  pose proof (cnt_bounds has_finalized ms) as Hhf.
  assert (cnt has_finalized ms <= cnt got_last ms) as Hle.
  { apply cnt_le. intros m Hm. unfold got_last. rewrite Hm.
    apply orb_true_r. }
  split; [pose proof (inv_done _ _ _ _ HI); lia|].
  split; [pose proof (inv_commits _ _ _ _ HI); lia|].
  split.
  { intros tid. destruct (ms !! tid) as [m|] eqn:Hm.
    - rewrite (inv_counted _ _ _ _ HI tid m Hm).
      destruct (past_counter m); lia.
    - destruct (count_of tid is_ChunksDone (trace sys)) as [|k] eqn:E; [lia|].
      destruct (count_of_pos tid is_ChunksDone (trace sys)) as [e He]; [lia|].
      apply (inv_tids _ _ _ _ HI) in He.
      apply lookup_ge_None in Hm. lia. }
  split.
  { intros tid Hin.
    apply (inv_done_by _ _ _ _ HI) in Hin as (m & Hm & Hf).
    apply (inv_last_by _ _ _ _ HI). exists m. split; [exact Hm|].
    unfold got_last. rewrite Hf. apply orb_true_r. }
  split.
  { intros tid ids err Hin.
    apply (inv_commit_by _ _ _ _ HI) in Hin as (m & Hm & Hg).
    apply (inv_last_by _ _ _ _ HI). eauto. }
  split.
  { intros tid tid' H1 H2.
    apply (inv_last_by _ _ _ _ HI) in H1 as (m1 & Hm1 & Hg1).
    apply (inv_last_by _ _ _ _ HI) in H2 as (m2 & Hm2 & Hg2).
    apply (cnt_unique got_last ms tid tid' m1 m2); auto. lia. }
  intros Hret.
  assert (forall i m, ms !! i = Some m -> exists f w, m = MQuiet f w) as Hq.
  { intros i m Hm.
    assert (exists p, threads sys !! i = Some p) as [p Hp].
    { apply lookup_lt_is_Some. rewrite Hlen. eapply lookup_lt_Some; eauto. }
    pose proof (Hfol i m p Hm Hp) as Hf.
    unfold all_returned in Hret. rewrite Forall_lookup in Hret.
    rewrite (Hret i p Hp) in Hf. cbn in Hf.
    destruct m; try contradiction. eauto. }
  assert (cnt past_counter ms = Z.of_nat (length ms)) as Hall.
  { clear -Hq. induction ms as [|m ms IH]; [reflexivity|].
    rewrite cnt_cons. destruct (Hq 0%nat m eq_refl) as (f & w & ->).
    cbn [past_counter b2z length].
    rewrite IH; [lia|]. intros i m' Hi. apply (Hq (S i) m' Hi). }
  assert (chunksDone (shared sys) = total) as Hcd.
  { rewrite (inv_counter _ _ _ _ HI), Hall. apply (inv_len _ _ _ _ HI). }
  split; [|split; [exact Hcd|]].
  - pose proof (inv_last _ _ _ _ HI) as Hlast.
    rewrite Hcd, Z.eqb_refl in Hlast.
    assert (cnt has_finalized ms = cnt got_last ms) as Heq.
    { apply cnt_ext. intros i m Hm.
      destruct (Hq i m Hm) as (f & w & ->). destruct f; reflexivity. }
    pose proof (inv_done _ _ _ _ HI). lia.
  - intros tid Hlt. rewrite Hlen in Hlt.
    apply lookup_lt_is_Some in Hlt as [m Hm].
    rewrite (inv_counted _ _ _ _ HI tid m Hm).
    destruct (Hq tid m Hm) as (f & w & ->). reflexivity.
Qed.

(** The block list is committed with the block identifier of each chunk
    in the slot of its index. *)
Lemma committed_in_index_order total sys :
  SysInv total sys ->
  forall tid ids err,
    (tid, ECommitBlockList ids err) ∈ trace sys ->
    Z.of_nat (length ids) = total /\
    (forall i u, (i, ENewUUID u) ∈ trace sys ->
                 ids !! i = Some (Base64.EncodeToString u)) /\
    (forall i, (i < length ids)%nat -> exists u, (i, ENewUUID u) ∈ trace sys).
Proof.
  intros (ms & [Hlen Hfol] & HI) tid ids err Hin.
  destruct (inv_committed _ _ _ _ HI tid ids err Hin) as [-> Hall].
  destruct (inv_slots _ _ _ _ HI) as (l & Hl & Hll).
  assert (the_blockIds (shared sys) = l) as Hthe
    by (unfold the_blockIds; rewrite Hl; reflexivity).
  split; [rewrite Hthe, Hll; apply (inv_len _ _ _ _ HI)|].
  split.
  - intros i u Hu.
    destruct (inv_drawn _ _ _ _ HI i u Hu) as (m & Hm & [->|Hst]).
    + destruct (Hall i _ Hm) as [Hp _]. discriminate.
    + apply (inv_stored _ _ _ _ HI i m _ Hm Hst).
  - intros i Hi. rewrite Hthe, Hll in Hi.
    apply lookup_lt_is_Some in Hi as [m Hm].
    destruct (Hall i m Hm) as [_ [id Hid]].
    destruct (inv_stored _ _ _ _ HI i m id Hm Hid) as (_ & u & _ & Hu).
    exists u. exact Hu.
Qed.


(** ** The chunked transfer as a whole *)

Lemma sent_sends (jobs : list ChunkMsg) : sent (ESend <$> jobs) = jobs.
Proof.
  induction jobs as [|m l IH]; [reflexivity|]. cbn. rewrite IH. reflexivity.
Qed.


(** C1.  In a chunked transfer of [N] chunks every chunk function
    increments the completion counter exactly once; only the one whose
    increment gives [N] calls [transferDone()] or commits, the others
    return without; and however the workers interleave the chunk
    functions, [TransferDone] is called at most once, by the chunk function
    that read [N], and exactly once when all of them have returned. *)
Theorem epilogue_runs_exactly_once
    (tr : TransferMsg) (fuel : nat) (cs : list choice)
    (s0 s1 : Shared) (evs : list event) :
  chunked_transfer tr -> untouched s0 ->
  run_alone cs s0 (runPrologue tr fuel) = (evs, s1, Ret) ->
  let total := Int.uint32 (NumChunks tr) in
  (forall chunkId len start w inputs t,
      run_thread inputs (generateUploadFunc tr chunkId len start w)
        = (t, Ret) ->
      count is_ChunksDone t = 1%nat /\ Forall counts_properly t /\
      exists v, counter_value t = Some v /\
        if v =? total then finalized t
        else count is_finalize t = 0%nat /\ count is_commit t = 0%nat) /\
  (forall (workerOf : nat -> Z) (sched : list action),
      let sys := run_system sched (start_workers tr workerOf s1) in
      Z.of_nat (length (threads sys)) = total /\
      (count_all is_TransferDone (trace sys) <= 1)%nat /\
      (count_all is_commit (trace sys) <= 1)%nat /\
      (forall tid, (count_of tid is_ChunksDone (trace sys) <= 1)%nat) /\
      (forall tid, (tid, ETransferDone) ∈ trace sys ->
                   (tid, EChunksDone total) ∈ trace sys) /\
      (forall tid ids err, (tid, ECommitBlockList ids err) ∈ trace sys ->
                   (tid, EChunksDone total) ∈ trace sys) /\
      (forall tid tid', (tid, EChunksDone total) ∈ trace sys ->
                        (tid', EChunksDone total) ∈ trace sys ->
                        tid = tid') /\
      (all_returned sys ->
         count_all is_TransferDone (trace sys) = 1%nat /\
         chunksDone (shared sys) = total /\
         forall tid, (tid < length (threads sys))%nat ->
                     count_of tid is_ChunksDone (trace sys) = 1%nat)).
Proof.
  intros Hct Hs0 Hrun total. split.
  - intros chunkId len start w inputs t Ht.
    apply (chunk_counts_once_and_last_finalizes tr chunkId len start w
             inputs t Ht).
  - intros workerOf sched sys.
    assert (SysInv total sys) as Hinv.
    { apply SysInv_run. apply SysInv_start.
      eapply prologue_chunked_start; eauto. }
    split; [|apply pool_finalizes_once; exact Hinv].
    destruct Hinv as (ms & [Hlen _] & HI).
    rewrite Hlen. apply (inv_len _ _ _ _ HI).
Qed.

Lemma epilogue_runs_exactly_once_witness :
  all_returned (run_system (round_robin 20)
       (start_workers sample_transfer Z.of_nat sample_start)) /\
  count_all is_TransferDone (trace (run_system (round_robin 20)
       (start_workers sample_transfer Z.of_nat sample_start))) = 1%nat /\
  chunksDone (shared (run_system (round_robin 20)
       (start_workers sample_transfer Z.of_nat sample_start))) =
    Int.uint32 (NumChunks sample_transfer) /\
  (1%nat, EChunksDone (Int.uint32 (NumChunks sample_transfer)))
    ∈ trace (run_system (round_robin 20)
       (start_workers sample_transfer Z.of_nat sample_start)).
Proof.
  assert (chunked_transfer sample_transfer) as H1
    by (vm_compute; repeat split; congruence).
  assert (untouched init_shared) as H2 by (vm_compute; repeat split).
  assert (run_alone (repeat quiet_choice 6) init_shared
            (runPrologue sample_transfer 4)
          = (fst (fst (run_alone (repeat quiet_choice 6) init_shared
                         (runPrologue sample_transfer 4))),
             sample_start, Ret)) as H3 by (vm_compute; reflexivity).
  pose proof (epilogue_runs_exactly_once sample_transfer 4
                (repeat quiet_choice 6) init_shared sample_start _
                H1 H2 H3) as H.
  cbv zeta in H. destruct H as [_ Hpool].
  specialize (Hpool Z.of_nat (round_robin 20)).
  destruct Hpool as (_ & _ & _ & _ & Hby & _ & _ & Hall).
  assert (all_returned (run_system (round_robin 20)
       (start_workers sample_transfer Z.of_nat sample_start))) as Hret
    by (vm_compute; repeat constructor).
  assert ((1%nat, ETransferDone) ∈ trace (run_system (round_robin 20)
       (start_workers sample_transfer Z.of_nat sample_start)))
    as Hdone by (vm_compute; repeat constructor).
  specialize (Hall Hret). destruct Hall as (Ha & Hb & _).
  specialize (Hby 1%nat Hdone).
  split; [exact Hret|]. split; [exact Ha|]. split; [exact Hb|exact Hby].
Defined.

(** C4.  The chunk function that staged its block and whose increment gave
    the number of chunks runs the epilogue: when it finds the transfer
    cancelled it commits nothing, sets no status and calls
    [transferDone()]; otherwise it commits the block list, sets the status
    [TransferFailed] when the commit fails and [TransferComplete] when it
    succeeds, and calls [transferDone()].  However the workers interleave
    the chunk functions, the block list committed holds, in the slot of
    each chunk index, the identifier generated for that chunk. *)
Theorem epilogue_commits_in_index_order
    (tr : TransferMsg) (fuel : nat) (cs : list choice)
    (s0 s1 : Shared) (evs : list event) :
  chunked_transfer tr -> untouched s0 ->
  run_alone cs s0 (runPrologue tr fuel) = (evs, s1, Ret) ->
  let total := Int.uint32 (NumChunks tr) in
  (forall chunkId len start w inputs t,
      run_thread inputs (generateUploadFunc tr chunkId len start w)
        = (t, Ret) ->
      stage_result t = Some false ->
      counter_value t = Some total ->
      Forall effect_ok t /\ finalized t /\
      exists b, ctx_checks t = [false; b] /\
        if b then
          count is_commit t = 0%nat /\ statuses_set t = [] /\
          Forall keeps_status t
        else
          count is_commit t = 1%nat /\
          match commit_result t with
          | Some true => statuses_set t = [TransferFailed]
          | Some false => statuses_set t = [TransferComplete]
          | None => False
          end) /\
  (forall (workerOf : nat -> Z) (sched : list action),
      let sys := run_system sched (start_workers tr workerOf s1) in
      forall tid ids err,
        (tid, ECommitBlockList ids err) ∈ trace sys ->
        Z.of_nat (length ids) = total /\
        (forall i u, (i, ENewUUID u) ∈ trace sys ->
                     ids !! i = Some (Base64.EncodeToString u)) /\
        (forall i, (i < length ids)%nat ->
                   exists u, (i, ENewUUID u) ∈ trace sys)).
Proof.
  intros Hct Hs0 Hrun total. split.
  - intros chunkId len start w inputs t Ht Hst Hcv.
    apply (epilogue_of_last_chunk tr chunkId len start w inputs t Ht Hst Hcv).
  - intros workerOf sched sys.
    apply committed_in_index_order.
    apply SysInv_run. apply SysInv_start.
    eapply prologue_chunked_start; eauto.
Qed.

Lemma epilogue_commits_in_index_order_witness :
  (1%nat, ECommitBlockList
            [Base64.EncodeToString "aaaa"; Base64.EncodeToString "bb";
             Base64.EncodeToString "6ba7b810"] false)
    ∈ trace (run_system (round_robin 20)
       (start_workers sample_transfer Z.of_nat sample_start)) /\
  [Base64.EncodeToString "aaaa"; Base64.EncodeToString "bb";
   Base64.EncodeToString "6ba7b810"] !! 2%nat
    = Some (Base64.EncodeToString "6ba7b810").
Proof.
  assert (chunked_transfer sample_transfer) as H1
    by (vm_compute; repeat split; congruence).
  assert (untouched init_shared) as H2 by (vm_compute; repeat split).
  assert (run_alone (repeat quiet_choice 6) init_shared
            (runPrologue sample_transfer 4)
          = (fst (fst (run_alone (repeat quiet_choice 6) init_shared
                         (runPrologue sample_transfer 4))),
             sample_start, Ret)) as H3 by (vm_compute; reflexivity).
  pose proof (epilogue_commits_in_index_order sample_transfer 4
                (repeat quiet_choice 6) init_shared sample_start _
                H1 H2 H3) as H.
  cbv zeta in H. destruct H as [_ Hpool].
  specialize (Hpool Z.of_nat (round_robin 20)).
  assert ((1%nat, ECommitBlockList
                    [Base64.EncodeToString "aaaa"; Base64.EncodeToString "bb";
                     Base64.EncodeToString "6ba7b810"] false)
            ∈ trace (run_system (round_robin 20)
       (start_workers sample_transfer Z.of_nat sample_start))) as Hin
    by (vm_compute; repeat constructor).
  assert ((2%nat, ENewUUID "6ba7b810") ∈ trace (run_system (round_robin 20)
       (start_workers sample_transfer Z.of_nat sample_start)))
    as Hdrawn by (vm_compute; repeat constructor).
  specialize (Hpool 1%nat _ false Hin). destruct Hpool as (_ & Hslot & _).
  specialize (Hslot 2%nat "6ba7b810"%string Hdrawn).
  split; [exact Hin|exact Hslot].
Defined.



(** ** The list command *)

Section ListCommandFacts.

Context {JobID : Type} {JobID_eq : EqDecision JobID}.
Variables zeroJobID EmptyJobId : JobID.
Variable ParseJobID : string -> option JobID.
Variable TransferStatusStringToCode : string -> Z.
Variable Rpc : string -> JobID * string -> string.

Let run := cmd.lsCmd zeroJobID EmptyJobId ParseJobID
             TransferStatusStringToCode Rpc.

(** A status filter that is not empty and maps to no transfer status is
    rejected before any RPC. *)
Lemma list_rejects_unknown_status (args : list string) (withStatus : string) :
  withStatus <> EmptyString ->
  TransferStatusStringToCode withStatus = cmd.MaxUint32 ->
  cmd.rpc_calls (run args withStatus) = 0%nat.
Proof.
  intros Hne Hcode. unfold run, cmd.lsCmd, cmd.lsCmd_Args.
  assert (String.eqb withStatus "" = false) as Heq
    by (apply String.eqb_neq; exact Hne).
  destruct args as [|arg0 rest].
  - cbn. unfold cmd.HandleListCommand. cbn.
    rewrite Heq, Hcode, Z.eqb_refl. reflexivity.
  - destruct (ParseJobID arg0) as [jobId|]; cbn;
      unfold cmd.HandleListCommand; cbn;
      rewrite Heq, Hcode, Z.eqb_refl; reflexivity.
Qed.

(** C9, as the code has it.  A job identifier that does not parse is
    reported ("invalid job Id given"), but the validator returns no error:
    unless the status filter is rejected the command goes on and makes one
    RPC, with the job identifier left at its zero value. *)
Theorem list_dispatches_unparseable_job_id
    (arg0 : string) (rest : list string) (withStatus : string) :
  ParseJobID arg0 = None ->
  withStatus = EmptyString \/
    TransferStatusStringToCode withStatus <> cmd.MaxUint32 ->
  cmd.rpc_calls (run (arg0 :: rest) withStatus) = 1%nat /\
  exists name out,
    run (arg0 :: rest) withStatus =
      cmd.FmtPrint (String.append "invalid job Id given " arg0)
      :: cmd.RpcCall name (cmd.mkListRequest zeroJobID withStatus) :: out.
Proof.
  intros Hparse Hstatus. unfold run, cmd.lsCmd, cmd.lsCmd_Args.
  rewrite Hparse. cbn [app]. unfold cmd.HandleListCommand.
  cbn [cmd.OfStatus cmd.JobId].
  assert ((negb (String.eqb withStatus "") &&
           (TransferStatusStringToCode withStatus =? cmd.MaxUint32)) = false)
    as ->.
  { destruct Hstatus as [->|Hcode]; [reflexivity|].
    apply andb_false_iff. right. apply Z.eqb_neq. exact Hcode. }
  destruct (bool_decide (zeroJobID = EmptyJobId));
    [|destruct (String.eqb withStatus "")];
    (split; [reflexivity|]); eexists _, _; reflexivity.
Qed.

End ListCommandFacts.

Lemma list_dispatches_unparseable_job_id_witness :
  cmd.rpc_calls
    (cmd.lsCmd (JobID_eq := String.string_dec)
       EmptyString EmptyString sample_ParseJobID
       (fun _ => cmd.MaxUint32) (fun _ _ => EmptyString)
       ["not-a-job-id"%string] EmptyString) = 1%nat.
Proof.
  destruct (list_dispatches_unparseable_job_id
              (JobID_eq := String.string_dec)
              EmptyString EmptyString sample_ParseJobID
              (fun _ => cmd.MaxUint32) (fun _ _ => EmptyString)
              "not-a-job-id"%string [] EmptyString) as [H _].
  - vm_compute. reflexivity.
  - left. reflexivity.
  - exact H.
Defined.

(** * Further properties of the code *)

(** ** The whole-object path *)

(** X1.  On the whole-object path the source file is mapped exactly when
    [int64(SourceSize) > 0], before the upload, and unmapped and closed
    exactly when [SourceSize != 0]; for a size that is an [int64] the two
    agree: what was mapped is released, once. *)
Theorem small_source_releases_what_it_mapped
    (tr : TransferMsg) (fuel : nat)
    (inputs : list (choice * Shared)) (t : list obs) :
  let blobSize := Int.int64 (SourceSize tr) in
  let chunkSize := Int.int64 (BlockSize tr) in
  blobSize = 0 \/ blobSize <= chunkSize ->
  run_thread inputs (runPrologue tr fuel) = (t, Ret) ->
  count is_OpenAndMemoryMapFile t = (if blobSize >? 0 then 1%nat else 0%nat) /\
  count is_Unmap t = (if SourceSize tr =? 0 then 0%nat else 1%nat) /\
  count is_Close t = (if SourceSize tr =? 0 then 0%nat else 1%nat) /\
  (0 <= SourceSize tr <= Int.max_int64 ->
   count is_OpenAndMemoryMapFile t = count is_Unmap t /\
   count is_OpenAndMemoryMapFile t = count is_Close t) /\
  (exists before after,
     events t = before ++ after /\
     Forall (fun e => is_upload e = false /\ is_Unmap e = false) before /\
     Forall (fun e => is_OpenAndMemoryMapFile e = false) after /\
     exists body err rest, after = EUpload body err :: rest).
Proof.
  intros blobSize chunkSize Hsmall Hrun.
  assert (((blobSize =? 0) || (blobSize <=? chunkSize)) = true) as Hcond.
  { apply orb_true_iff.
    destruct Hsmall; [left; apply Z.eqb_eq|right; apply Z.leb_le]; assumption. }
  assert (0 <= SourceSize tr <= Int.max_int64 ->
          (blobSize >? 0) = negb (SourceSize tr =? 0)) as Hagree.
  { intros Hr. unfold blobSize. rewrite int64_small by lia.
    destruct (Z.gtb_spec (SourceSize tr) 0), (Z.eqb_spec (SourceSize tr) 0);
      cbn; solve [reflexivity | lia]. }
  revert Hagree. all_runs Hrun.
  unfold runPrologue, putBlob. fold blobSize chunkSize. rewrite Hcond.
  destruct (SourceSize tr =? 0) eqn:Hsize; cbn [negb].
  all: destruct (blobSize >? 0) eqn:Hpos.
  all: run_all; try exact I.
  all: intros Hagree.
  all: split; [reflexivity|]; split; [reflexivity|]; split; [reflexivity|].
  all: split; [intros Hr; specialize (Hagree Hr);
               first [discriminate Hagree | split; reflexivity]|].
  all: first
    [ exists [ENewBlobURL; EOpenAndMemoryMapFile; EBlobHttpHeaderAndMetadata];
      eexists; split; [reflexivity|]
    | exists [ENewBlobURL; EBlobHttpHeaderAndMetadata];
      eexists; split; [reflexivity|] ].
  all: split; [repeat constructor|].
  all: split; [repeat constructor|].
  all: eexists _, _, _; reflexivity.
Qed.

Lemma small_source_releases_what_it_mapped_witness :
  let tr := mkTransferMsg "/data/small.bin" "https://account/container/small" 80 100 1 in
  let t := fst (run_thread (repeat (quiet_choice, init_shared) 14)
                  (runPrologue tr 0)) in
  count is_OpenAndMemoryMapFile t = 1%nat /\ count is_Unmap t = 1%nat.
Proof.
  intros tr t.
  destruct (small_source_releases_what_it_mapped tr 0
              (repeat (quiet_choice, init_shared) 14) t)
    as (H1 & H2 & _).
  - right. vm_compute. discriminate.
  - vm_compute. reflexivity.
  - split; [exact H1|exact H2].
Defined.

(** ** One chunk function, further *)

(** X2.  A chunk function that does not find the transfer cancelled draws one
    UUID, stores its base64 encoding in the slot of its chunk index, and
    then stages under that identifier the byte range of its chunk job; it
    draws, stores and stages nothing else.  One that finds the transfer
    cancelled draws and stores nothing. *)
Theorem chunk_stores_then_stages
    (tr : TransferMsg) (chunkId len start w : Z)
    (inputs : list (choice * Shared)) (t : list obs) :
  run_thread inputs (generateUploadFunc tr chunkId len start w) = (t, Ret) ->
  (begins_cancelled t ->
   count is_NewUUID t = 0%nat /\ count is_SetBlockId t = 0%nat /\
   count is_stage t = 0%nat) /\
  (~ begins_cancelled t ->
   exists u err rest,
     events t =
       ECtxErr false :: ENewUUID u
       :: ESetBlockId chunkId (Base64.EncodeToString u)
       :: EStageBlock (Base64.EncodeToString u) start len err :: rest /\
     Forall (fun e => is_NewUUID e = false /\ is_SetBlockId e = false /\
                      is_stage e = false) rest).
Proof.
  intros Hrun. all_runs Hrun.
  unfold generateUploadFunc, finalizeIfLast, transferDone.
  run_all; try exact I.
  all: split;
    [ intros (o & Hhd & Hc); simpl in Hhd; inversion Hhd; subst;
      simpl in Hc; try congruence; repeat split
    | intros Hnot;
      try (exfalso; apply Hnot; eexists; split; [reflexivity|assumption]) ].
  all: eexists _, _, _; split; [reflexivity|]; repeat constructor.
Qed.

Lemma chunk_stores_then_stages_witness :
  let t := fst (run_thread (repeat (quiet_choice, sample_shared) 8)
                  (generateUploadFunc sample_transfer 1 100 100 7)) in
  exists u err rest,
    events t =
      ECtxErr false :: ENewUUID u
      :: ESetBlockId 1 (Base64.EncodeToString u)
      :: EStageBlock (Base64.EncodeToString u) 100 100 err :: rest /\
    Forall (fun e => is_NewUUID e = false /\ is_SetBlockId e = false /\
                     is_stage e = false) rest.
Proof.
  intros t.
  destruct (chunk_stores_then_stages sample_transfer 1 100 100 7
              (repeat (quiet_choice, sample_shared) 8) t) as [_ H].
  - vm_compute. reflexivity.
  - apply H. intros (o & Hhd & Hc).
    vm_compute in Hhd. injection Hhd as <-. discriminate Hc.
Defined.

(** X3.  A chunk function sets the status of the transfer at most once:
    [TransferComplete] only when it staged its block, read the number of
    chunks from the counter, found the transfer not cancelled and committed
    the block list without error; [TransferFailed] only when its stage
    failed while the transfer was not cancelled (and then it cancels the
    transfer) or when its commit failed. *)
Theorem chunk_sets_status_once
    (tr : TransferMsg) (chunkId len start w : Z)
    (inputs : list (choice * Shared)) (t : list obs) :
  run_thread inputs (generateUploadFunc tr chunkId len start w) = (t, Ret) ->
  match statuses_set t with
  | [] => True
  | [TransferComplete] =>
      stage_result t = Some false /\
      counter_value t = Some (Int.uint32 (NumChunks tr)) /\
      ctx_checks t = [false; false] /\
      commit_result t = Some false /\ count is_cancel t = 0%nat
  | [TransferFailed] =>
      (stage_result t = Some true /\ ctx_checks t = [false; false] /\
       count is_cancel t = 1%nat /\ count is_commit t = 0%nat) \/
      (stage_result t = Some false /\ commit_result t = Some true /\
       count is_cancel t = 0%nat)
  | _ => False
  end.
Proof.
  intros Hrun. all_runs Hrun.
  unfold generateUploadFunc, finalizeIfLast, transferDone.
  run_all; try exact I.
  all: cbn [statuses_set ev]; try exact I.
  all: try (left; repeat split; fail).
  all: try (right; repeat split; fail).
  all: apply Z.eqb_eq in Heqb1; rewrite <- Heqb1; repeat split.
Qed.

Lemma chunk_sets_status_once_witness :
  let t := fst (run_thread (repeat (quiet_choice, set_chunksDone 2 sample_shared) 17)
                  (generateUploadFunc sample_transfer 1 100 100 7)) in
  statuses_set t = [TransferComplete] /\ commit_result t = Some false.
Proof.
  intros t.
  pose proof (chunk_sets_status_once sample_transfer 1 100 100 7
                (repeat (quiet_choice, set_chunksDone 2 sample_shared) 17) t)
    as H.
  assert (statuses_set t = [TransferComplete]) as Hs
    by (vm_compute; reflexivity).
  rewrite Hs in H.
  destruct H as (_ & _ & _ & H4 & _).
  - vm_compute. reflexivity.
  - split; [exact Hs|exact H4].
Defined.

(** X4.  [transferDone()] ends a chunk function: after [Close] nothing follows
    but the error log of a failed close, so a close that fails changes
    neither the status nor the cancellation of the transfer. *)
Theorem close_failure_is_only_logged
    (tr : TransferMsg) (chunkId len start w : Z)
    (inputs : list (choice * Shared)) (t : list obs) :
  run_thread inputs (generateUploadFunc tr chunkId len start w) = (t, Ret) ->
  from_close (events t) = [] \/
  from_close (events t) = [EClose false] \/
  from_close (events t) = [EClose true; ELog LogError (MsgCloseFailed w)].
Proof.
  intros Hrun. all_runs Hrun.
  unfold generateUploadFunc, finalizeIfLast, transferDone.
  run_all; try exact I.
  all: cbn; auto.
Qed.

Lemma close_failure_is_only_logged_witness :
  let t := fst (run_thread (repeat (failing_choice, cancelled_shared) 8)
                  (generateUploadFunc sample_transfer 2 50 200 7)) in
  from_close (events t) = [EClose true; ELog LogError (MsgCloseFailed 7)].
Proof.
  intros t.
  destruct (close_failure_is_only_logged sample_transfer 2 50 200 7
              (repeat (failing_choice, cancelled_shared) 8) t)
    as [H|[H|H]].
  - vm_compute. reflexivity.
  - vm_compute in H. discriminate H.
  - vm_compute in H. discriminate H.
  - exact H.
Defined.


(** ** The prologue, further *)

Lemma tiles_within (ranges : list (Z * Z)) :
  forall lo hi,
    tiles ranges lo hi ->
    lo <= hi /\
    Forall (fun r => lo <= fst r /\ 0 < snd r /\ fst r + snd r <= hi) ranges /\
    fold_right (fun r acc => snd r + acc) 0 ranges = hi - lo.
Proof.
  induction ranges as [|[start len] rest IH]; intros lo hi H; cbn in H.
  - subst. split; [lia|]. split; [constructor|]. cbn. lia.
  - destruct H as (-> & Hlen & Hrest).
    destruct (IH _ _ Hrest) as (Hle & Hall & Hsum).
    split; [lia|]. split.
    + constructor; [cbn; lia|].
      eapply Forall_impl; [exact Hall|]. cbn. intros r Hr. lia.
    + cbn. rewrite Hsum. lia.
Qed.

(** X5.  For a source larger than one chunk, every chunk job the prologue
    sends lies within the source: its range starts at or after 0, is not
    empty and ends at or before the size of the source, so that the slice
    [memoryMappedFile[startIndex:startIndex+adjustedChunkSize]] a chunk
    function takes is within the mapped file and its end does not
    overflow; and the lengths of all chunk jobs add up to the size of the
    source. *)
Theorem chunk_jobs_lie_within_source (tr : TransferMsg) (fuel : nat)
    (inputs : list (choice * Shared)) (t : list obs) :
  let blobSize := Int.int64 (SourceSize tr) in
  let chunkSize := Int.int64 (BlockSize tr) in
  0 < chunkSize -> chunkSize < blobSize ->
  blobSize + chunkSize <= Int.max_int64 ->
  run_thread inputs (runPrologue tr fuel) = (t, Ret) ->
  Forall (fun m =>
            0 <= startIndex m /\ 0 < adjustedChunkSize m /\
            startIndex m + adjustedChunkSize m <= blobSize /\
            Int.int64 (startIndex m + adjustedChunkSize m)
              = startIndex m + adjustedChunkSize m)
         (sent (events t)) /\
  total_length (sent (events t)) = blobSize.
Proof.
  intros blobSize chunkSize HC HS Hov Hrun. all_runs Hrun.
  apply forall_runs_chunked_prologue; try assumption.
  fold blobSize chunkSize. clear t. intros t Hev _.
  rewrite Hev. cbn [app sent]. rewrite sent_sends.
  pose proof (tiles_chunks blobSize chunkSize HC ltac:(lia)) as Ht.
  apply tiles_within in Ht as (_ & Hall & Hsum).
  set (jobs := chunk_at blobSize chunkSize <$>
                 seqZ 0 (ceil_div blobSize chunkSize)) in *.
  split.
  - rewrite Forall_fmap in Hall.
    eapply Forall_impl; [exact Hall|].
    intros m Hm. cbn in Hm. unfold Int.max_int64 in Hov.
    repeat split; try lia.
    apply int64_small. unfold Int.max_int64. lia.
  - rewrite <- (Z.sub_0_r blobSize), <- Hsum. unfold total_length.
    clear. induction jobs as [|m l IH]; [reflexivity|].
    cbn. rewrite IH. reflexivity.
Qed.

Lemma chunk_jobs_lie_within_source_witness :
  let t := fst (run_thread (repeat (quiet_choice, init_shared) 6)
                  (runPrologue sample_transfer 4)) in
  total_length (sent (events t)) = 250.
Proof.
  intros t.
  destruct (chunk_jobs_lie_within_source sample_transfer 4
              (repeat (quiet_choice, init_shared) 6) t) as [_ H].
  - vm_compute. reflexivity.
  - vm_compute. reflexivity.
  - vm_compute. discriminate.
  - vm_compute. reflexivity.
  - exact H.
Defined.

Lemma scheduleChunks_zero_spins (blobSize : Z) (fuel : nat) :
  0 < blobSize ->
  forall (i : Z) (inputs : list (choice * Shared)) t q,
    run_thread inputs (scheduleChunks fuel blobSize 0 0 i) = (t, q) ->
    q <> Ret /\
    Forall (fun m => startIndex m = 0 /\ adjustedChunkSize m = 0)
           (sent (events t)) /\
    length (sent (events t)) = length t /\
    ((fuel <= length inputs)%nat -> q = Spin /\ length t = fuel).
Proof.
  intros Hpos. induction fuel as [|fuel IH]; intros i inputs t q Hrun.
  - cbn in Hrun. destruct inputs as [|[c s] rest]; cbn in Hrun;
      injection Hrun as <- <-; (split; [discriminate|]);
      (split; [constructor|]); (split; [reflexivity|]);
      intros _; split; reflexivity.
  - cbn [scheduleChunks] in Hrun.
    assert ((0 <? blobSize) = true) as Hlt by (apply Z.ltb_lt; exact Hpos).
    rewrite Hlt in Hrun.
    change (Int.int64 (0 + 0)) with 0 in Hrun.
    assert ((0 >? blobSize) = false) as Hgt
      by (rewrite Z.gtb_ltb; apply Z.ltb_ge; lia).
    rewrite Hgt in Hrun.
    destruct inputs as [|[c s] rest]; cbn in Hrun.
    + injection Hrun as <- <-. split; [discriminate|].
      split; [constructor|]. split; [reflexivity|]. cbn. lia.
    + destruct (run_thread rest
                  (scheduleChunks fuel blobSize 0 0 (Int.int32 (i + 1))))
        as [t' q'] eqn:E.
      injection Hrun as <- <-.
      destruct (IH _ _ _ _ E) as (Hq & Hall & Hlen & Hfull).
      split; [exact Hq|]. split.
      * cbn. constructor; [split; reflexivity|exact Hall].
      * split; [cbn [events map ev sent length]; f_equal; exact Hlen|].
        cbn. intros Hle. destruct Hfull as [-> Hl]; [lia|].
        split; [reflexivity|]. rewrite Hl. reflexivity.
Qed.

(** X6.  A block size of 0 with a source that is not empty: the loop of the
    prologue does not advance ([startIndex += 0]), so the prologue never
    returns and keeps sending chunk jobs of length 0 at offset 0: whatever
    the fuel, no run returns, and a run that is let go on uses all of
    it. *)
Theorem zero_block_size_never_returns (tr : TransferMsg) (fuel : nat)
    (inputs : list (choice * Shared)) (t : list obs) (q : prog) :
  Int.int64 (BlockSize tr) = 0 -> 0 < Int.int64 (SourceSize tr) ->
  run_thread inputs (runPrologue tr fuel) = (t, q) ->
  q <> Ret /\
  Forall (fun m => startIndex m = 0 /\ adjustedChunkSize m = 0)
         (sent (events t)) /\
  ((3 + fuel <= length inputs)%nat ->
   q = Spin /\ length (sent (events t)) = fuel).
Proof.
  intros HC HS Hrun. unfold runPrologue in Hrun. rewrite HC in Hrun.
  assert ((Int.int64 (SourceSize tr) >? 0) = true) as Hgt
    by (apply Z.gtb_lt; exact HS).
  assert (((Int.int64 (SourceSize tr) =? 0)
           || (Int.int64 (SourceSize tr) <=? 0)) = false) as Hsmall.
  { apply orb_false_iff. split; [apply Z.eqb_neq|apply Z.leb_gt]; lia. }
  rewrite Hgt, Hsmall in Hrun. cbn [seq] in Hrun.
  destruct inputs as [|[c0 s0] inputs]; cbn in Hrun.
  { injection Hrun as <- <-. split; [discriminate|].
    split; [constructor|]. cbn. lia. }
  destruct inputs as [|[c1 s1] inputs]; cbn in Hrun.
  { injection Hrun as <- <-. split; [discriminate|].
    split; [constructor|]. cbn. lia. }
  destruct inputs as [|[c2 s2] inputs]; cbn in Hrun.
  { injection Hrun as <- <-. split; [discriminate|].
    split; [constructor|]. cbn. lia. }
  destruct (run_thread inputs
              (scheduleChunks fuel (Int.int64 (SourceSize tr)) 0 0 0))
    as [t' q'] eqn:E.
  injection Hrun as <- <-.
  destruct (scheduleChunks_zero_spins _ fuel HS 0 inputs t' q' E)
    as (Hq & Hall & Hlen & Hfull).
  split; [exact Hq|]. split; [exact Hall|].
  cbn. intros Hle. destruct Hfull as [-> Hl]; [lia|].
  split; [reflexivity|]. etransitivity; [exact Hlen|exact Hl].
Qed.

Lemma zero_block_size_never_returns_witness :
  let tr := mkTransferMsg "/data/src.bin" "https://account/container/blob" 250 0 0 in
  snd (run_thread (repeat (quiet_choice, init_shared) 40) (runPrologue tr 30))
    = Spin.
Proof.
  intros tr.
  destruct (zero_block_size_never_returns tr 30
              (repeat (quiet_choice, init_shared) 40)
              (fst (run_thread (repeat (quiet_choice, init_shared) 40)
                      (runPrologue tr 30)))
              (snd (run_thread (repeat (quiet_choice, init_shared) 40)
                      (runPrologue tr 30))))
    as (_ & _ & H).
  - vm_compute. reflexivity.
  - vm_compute. reflexivity.
  - vm_compute. reflexivity.
  - destruct H as [H _]; [vm_compute; lia|exact H].
Defined.

(** ** The list command, further *)

Section ListDispatch.

Context {JobID : Type} {JobID_eq : EqDecision JobID}.
Variables zeroJobID EmptyJobId : JobID.
Variable ParseJobID : string -> option JobID.
Variable TransferStatusStringToCode : string -> Z.
Variable Rpc : string -> JobID * string -> string.

Let run := cmd.lsCmd zeroJobID EmptyJobId ParseJobID
             TransferStatusStringToCode Rpc.

(** X7.  An invocation of [list] makes at most one RPC, and it makes none
    exactly when the status filter is not empty and maps to no transfer
    status: whatever the arguments are, parseable or not, they never keep
    the command from dispatching. *)
Theorem list_dispatches_unless_status_unknown
    (args : list string) (withStatus : string) :
  (cmd.rpc_calls (run args withStatus) <= 1)%nat /\
  (cmd.rpc_calls (run args withStatus) = 0%nat <->
   withStatus <> EmptyString /\
   TransferStatusStringToCode withStatus = cmd.MaxUint32).
Proof.
  unfold run, cmd.lsCmd, cmd.lsCmd_Args.
  assert (forall req : cmd.ListRequest,
            cmd.OfStatus req = withStatus ->
            (cmd.rpc_calls
               (cmd.HandleListCommand EmptyJobId TransferStatusStringToCode
                  Rpc req) <= 1)%nat /\
            (cmd.rpc_calls
               (cmd.HandleListCommand EmptyJobId TransferStatusStringToCode
                  Rpc req) = 0%nat <->
             withStatus <> EmptyString /\
             TransferStatusStringToCode withStatus = cmd.MaxUint32)) as Hh.
  { intros req Hreq. unfold cmd.HandleListCommand. rewrite Hreq.
    destruct (String.eqb_spec withStatus "") as [->|Hne]; cbn [negb andb].
    - destruct (bool_decide (cmd.JobId req = EmptyJobId)); cbn;
        (split; [lia|]);
        (split; [discriminate|intros [Hc _]; congruence]).
    - destruct (Z.eqb_spec (TransferStatusStringToCode withStatus)
                  cmd.MaxUint32) as [Hc|Hc].
      + cbn. split; [lia|]. split; [auto|reflexivity].
      + destruct (bool_decide (cmd.JobId req = EmptyJobId)); cbn;
          (split; [lia|]);
          (split; [discriminate|intros [_ Hc']; congruence]). }
  destruct args as [|arg0 rest].
  - cbn [app]. apply Hh. reflexivity.
  - destruct (ParseJobID arg0) as [jobId|]; cbn [app].
    + apply Hh. reflexivity.
    + specialize (Hh (cmd.mkListRequest zeroJobID withStatus) eq_refl).
      change (cmd.rpc_calls (?x :: ?l)) with (cmd.rpc_calls l).
      exact Hh.
Qed.

End ListDispatch.

(** ** The worker pool, further *)

Lemma forall_prefixes_sound (p : prog) :
  forall (P : list obs -> Prop) inputs t q,
    forall_prefixes p P -> run_thread inputs p = (t, q) -> P t.
Proof.
  induction p as [|X o k IH| |]; intros P inputs t q HP Hrun.
  - destruct inputs as [|[c s] rest]; simpl in Hrun;
      injection Hrun as <- <-; apply HP.
  - destruct HP as [H0 HP].
    destruct inputs as [|[c s] rest]; simpl in Hrun;
      [injection Hrun as <- <-; exact H0|].
    specialize (HP c s).
    destruct (exec_op c s o) as [[e s'] [x|]]; simpl in Hrun.
    + destruct (run_thread rest (k x)) as [t' q'] eqn:E.
      injection Hrun as <- <-.
      exact (IH x _ rest t' q' HP E).
    + destruct rest as [|[c' s''] rest]; simpl in Hrun;
        injection Hrun as <- <-; exact HP.
  - destruct inputs as [|[c s] rest]; simpl in Hrun;
      injection Hrun as <- <-; apply HP.
  - destruct inputs as [|[c s] rest]; simpl in Hrun;
      injection Hrun as <- <-; apply HP.
Qed.

Ltac prefix_all :=
  repeat first
    [ match goal with
      | |- forall_prefixes (if ?b then _ else _) _ => destruct b eqn:?
      | |- forall_prefixes (seq (if ?b then _ else _) _) _ =>
          destruct b eqn:?
      | |- context [store_blockId ?i ?id ?s] =>
          let H := fresh "Hstore" in
          destruct (store_blockId i id s) eqn:H;
          [apply store_blockId_Some in H as (? & ? & ? & ->)|]
      | |- forall (_ : choice), _ => intros ? ?
      | |- _ /\ _ => split
      end
    | progress cbn [forall_prefixes exec_op seq do_ChunksDone] ].

Ltac all_prefixes Hrun :=
  match type of Hrun with
  | run_thread _ _ = (?t, _) =>
      pattern t; eapply forall_prefixes_sound; [|exact Hrun]; clear Hrun
  end.

(** What one step of the pool does. *)
Lemma sys_step_cases (a : action) (sys : System) :
  (threads (sys_step a sys) = threads sys /\
   trace (sys_step a sys) = trace sys /\
   (shared (sys_step a sys) = shared sys \/
    shared (sys_step a sys) = set_cancelled true (shared sys))) \/
  (exists tid c (X : Type) (o : op X) (k : X -> prog) e s' ans,
      a = Run tid c /\
      threads sys !! tid = Some (Vis o k) /\
      exec_op c (shared sys) o = (e, s', ans) /\
      sys_step a sys =
        mkSystem s' (<[tid := resume k ans]> (threads sys))
                 ((tid, e) :: trace sys)).
Proof.
  unfold sys_step. destruct (panicked (shared sys)); [left; auto|].
  destruct a as [tid c|]; [|left; cbn; auto].
  destruct (threads sys !! tid) as [p|] eqn:Hp; [|left; auto].
  destruct p as [|X o k| |]; cbn [step]; try (left; auto; fail).
  destruct (exec_op c (shared sys) o) as [[e s'] ans] eqn:E.
  right. exists tid, c, X, o, k, e, s', ans. auto.
Qed.

Lemma run_system_snoc sched a sys :
  run_system (sched ++ [a]) sys = sys_step a (run_system sched sys).
Proof.
  unfold run_system. rewrite fold_left_app. reflexivity.
Qed.

Lemma proj_app tid l1 l2 : proj tid (l1 ++ l2) = proj tid l2 ++ proj tid l1.
Proof.
  unfold proj. rewrite List.filter_app, map_app, rev_app_distr. reflexivity.
Qed.

Lemma proj_cons_same tid e tr : proj tid ((tid, e) :: tr) = proj tid tr ++ [e].
Proof.
  unfold proj. cbn. rewrite Nat.eqb_refl. reflexivity.
Qed.

Lemma proj_cons_other tid tid' e tr :
  tid' <> tid -> proj tid ((tid', e) :: tr) = proj tid tr.
Proof.
  intros Hne. unfold proj. cbn.
  destruct (Nat.eqb_spec tid' tid); [contradiction|reflexivity].
Qed.

Lemma elem_of_proj tid e tr : e ∈ proj tid tr <-> (tid, e) ∈ tr.
Proof.
  unfold proj. rewrite list_elem_of_In, <- in_rev, <- list_elem_of_In.
  induction tr as [|[j x] tr IH]; cbn.
  - split; intros H; apply elem_of_nil in H; contradiction.
  - destruct (Nat.eqb_spec j tid) as [->|Hne]; cbn.
    + rewrite !elem_of_cons, IH. split; intros [H|H]; auto.
      * left. congruence.
      * left. congruence.
    + rewrite elem_of_cons, IH. split; [auto|].
      intros [H|H]; [congruence|exact H].
Qed.

Lemma count_of_proj tid f tr :
  count_of tid f tr = count_events f (proj tid tr).
Proof.
  unfold count_of, count_events, proj.
  induction tr as [|[j x] tr IH]; [reflexivity|].
  cbn. destruct (Nat.eqb_spec j tid) as [->|Hne]; cbn.
  - rewrite List.filter_app, length_app. cbn.
    destruct (f x); cbn; rewrite IH; lia.
  - exact IH.
Qed.

Lemma count_events_events f t : count_events f (events t) = count f t.
Proof.
  unfold count_events, count, events.
  induction t as [|o t IH]; [reflexivity|].
  cbn. destruct (f (ev o)); cbn; rewrite IH; reflexivity.
Qed.

(** Every chunk function of the pool is, at any time, somewhere on a run
    of its own program: its events in the trace are the events of that
    run, and each of its steps ran in a state of the pool.  [R] is any
    property of the shared state that the steps of the pool keep. *)
Lemma pool_thread_run (R : Shared -> Prop) :
  (forall a sys, R (shared sys) -> R (shared (sys_step a sys))) ->
  forall sched sys0 tid p0,
    threads sys0 !! tid = Some p0 -> R (shared sys0) ->
    exists inputs t q new,
      run_thread inputs p0 = (t, q) /\
      threads (run_system sched sys0) !! tid = Some q /\
      trace (run_system sched sys0) = new ++ trace sys0 /\
      events t = proj tid new /\
      Forall (fun o => R (pre o)) t.
Proof.
  intros Hstable sched.
  induction sched as [|a sched IH]; intros sys0 tid p0 Hp0 HR.
  - exists [], [], p0, []. cbn. repeat split; auto.
  - cbn [run_system fold_left].
    change (fold_left (fun s a => sys_step a s) sched (sys_step a sys0))
      with (run_system sched (sys_step a sys0)).
    pose proof (Hstable a sys0 HR) as HR1.
    destruct (sys_step_cases a sys0)
      as [(Hth & Htr & _)|(tid' & c & X & o & k & e & s' & ans &
                           -> & Hth & Hex & Hsys)].
    + rewrite <- Hth in Hp0.
      destruct (IH _ tid p0 Hp0 HR1) as (inputs & t & q & new & H1 & H2 & H3 & H4 & H5).
      exists inputs, t, q, new. rewrite Htr in H3. auto.
    + destruct (Nat.eq_dec tid' tid) as [->|Hne].
      * rewrite Hth in Hp0. injection Hp0 as <-.
        assert (threads (sys_step (Run tid c) sys0) !! tid
                = Some (resume k ans)) as Hp1.
        { rewrite Hsys. cbn. apply list_lookup_insert_eq.
          eapply lookup_lt_Some. exact Hth. }
        destruct (IH _ tid _ Hp1 HR1)
          as (inputs & t & q & new & H1 & H2 & H3 & H4 & H5).
        exists ((c, shared sys0) :: inputs),
               (mkObs (shared sys0) e s' :: t), q, (new ++ [(tid, e)]).
        split; [cbn; rewrite Hex, H1; reflexivity|].
        split; [exact H2|].
        split; [rewrite H3, Hsys; cbn; rewrite <- app_assoc; reflexivity|].
        split.
        -- rewrite proj_app. cbn [events map ev]. unfold events in H4.
           rewrite H4. unfold proj at 1. cbn. rewrite Nat.eqb_refl.
           reflexivity.
        -- constructor; [exact HR|exact H5].
      * assert (threads (sys_step (Run tid' c) sys0) !! tid = Some p0) as Hp1.
        { rewrite Hsys. cbn. rewrite list_lookup_insert_ne by auto.
          exact Hp0. }
        destruct (IH _ tid _ Hp1 HR1)
          as (inputs & t & q & new & H1 & H2 & H3 & H4 & H5).
        exists inputs, t, q, (new ++ [(tid', e)]).
        split; [exact H1|]. split; [exact H2|].
        split; [rewrite H3, Hsys; cbn; rewrite <- app_assoc; reflexivity|].
        split; [|exact H5].
        rewrite proj_app, H4. unfold proj at 2. cbn.
        destruct (Nat.eqb_spec tid' tid); [contradiction|reflexivity].
Qed.

(** The chunk functions of a pool started on the chunk jobs of a
    channel. *)
Lemma pool_thread_prefix tr workerOf s sched tid m :
  channel s !! tid = Some m ->
  exists inputs t q,
    run_thread inputs
      (generateUploadFunc tr (chunkId m) (adjustedChunkSize m)
         (startIndex m) (workerOf tid)) = (t, q) /\
    threads (run_system sched (start_workers tr workerOf s)) !! tid = Some q /\
    events t = proj tid (trace (run_system sched (start_workers tr workerOf s))).
Proof.
  intros Hm.
  destruct (pool_thread_run (fun _ => True) (fun _ _ _ => I) sched
              (start_workers tr workerOf s) tid
              (generateUploadFunc tr (chunkId m) (adjustedChunkSize m)
                 (startIndex m) (workerOf tid)))
    as (inputs & t & q & new & H1 & H2 & H3 & H4 & _).
  - cbn. rewrite list_lookup_imap, Hm. reflexivity.
  - exact I.
  - exists inputs, t, q. split; [exact H1|]. split; [exact H2|].
    rewrite H3. cbn [start_workers trace]. rewrite app_nil_r. exact H4.
Qed.

Lemma none_after_snoc f g l e :
  none_after f g (l ++ [e]) =
    none_after f g l && (negb (g e) || negb (existsb f l)).
Proof.
  induction l as [|x l IH]; cbn.
  - destruct (f e), (g e); reflexivity.
  - rewrite IH, forallb_app. cbn.
    destruct (f x), (forallb (fun x => negb (g x)) l), (none_after f g l),
      (g e), (existsb f l); reflexivity.
Qed.

Lemma cleared_snoc l e :
  cleared (l ++ [e]) = cleared l || (existsb is_ChunksDone l && is_clear e).
Proof.
  induction l as [|x l IH]; cbn; [destruct (is_ChunksDone e); reflexivity|].
  rewrite IH, existsb_app. cbn.
  destruct (is_ChunksDone x), (existsb is_clear l), (cleared l),
    (existsb is_ChunksDone l), (is_clear e); reflexivity.
Qed.

Lemma existsb_elem_of (f : event -> bool) es :
  existsb f es = true <-> exists e, e ∈ es /\ f e = true.
Proof.
  rewrite existsb_exists. split; intros (e & H1 & H2); exists e;
    (split; [apply list_elem_of_In; exact H1|exact H2]).
Qed.

Lemma count_events_pos (f : event -> bool) es :
  (0 < count_events f es)%nat <-> existsb f es = true.
Proof.
  unfold count_events. induction es as [|e es IH]; cbn.
  - split; [lia|discriminate].
  - destruct (f e); cbn; [split; [reflexivity|lia]|exact IH].
Qed.

(** *** What every chunk function observes, at any time of its run *)

Lemma chunk_events_always tr chunkId len start w :
  forall_prefixes (generateUploadFunc tr chunkId len start w)
    (fun t => chunk_events_ok tr (events t)).
Proof.
  unfold generateUploadFunc, finalizeIfLast, transferDone.
  prefix_all.
  all: repeat match goal with
         | H : (_ =? _) = true |- _ => apply Z.eqb_eq in H; rewrite ?H
         end.
  all: unfold chunk_events_ok; cbn.
  all: repeat split; try lia; try reflexivity;
         try (intros; discriminate); try (intros; repeat constructor).
Qed.

Lemma chunk_idle_when_cancelled tr chunkId len start w :
  forall_prefixes (generateUploadFunc tr chunkId len start w)
    idle_when_cancelled.
Proof.
  unfold generateUploadFunc, finalizeIfLast, transferDone.
  prefix_all.
  all: try exact I.
  all: unfold idle_when_cancelled; cbn; intros Hc.
  all: try (repeat split; reflexivity).
  all: specialize (Hc _ eq_refl); cbn in Hc; congruence.
Qed.

(** A chunk function that has returned released the source as often as it
    reported the transfer done. *)
Lemma chunk_releases_when_done tr chunkId len start w :
  forall_runs (generateUploadFunc tr chunkId len start w)
    (fun t => count is_Unmap t = count is_TransferDone t /\
              count is_Close t = count is_TransferDone t).
Proof.
  unfold generateUploadFunc, finalizeIfLast, transferDone.
  run_all. all: cbn; split; reflexivity.
Qed.

(** *** Facts about the steps of the pool *)

Lemma run_system_length sched :
  forall sys, length (threads (run_system sched sys)) = length (threads sys).
Proof.
  induction sched as [|a sched IH]; intros sys; [reflexivity|].
  cbn [run_system fold_left].
  change (fold_left (fun s a => sys_step a s) sched (sys_step a sys))
    with (run_system sched (sys_step a sys)).
  rewrite IH.
  destruct (sys_step_cases a sys)
    as [(Hth & _)|(tid & c & X & o & k & e & s' & ans & _ & _ & _ & Hsys)].
  - rewrite Hth. reflexivity.
  - rewrite Hsys. cbn. apply length_insert.
Qed.

Lemma trace_tids_run sched :
  forall sys tid e,
    (tid, e) ∈ trace (run_system sched sys) ->
    (tid, e) ∈ trace sys \/ (tid < length (threads sys))%nat.
Proof.
  induction sched as [|a sched IH]; intros sys tid e Hin; [left; exact Hin|].
  cbn [run_system fold_left] in Hin.
  change (fold_left (fun s a => sys_step a s) sched (sys_step a sys))
    with (run_system sched (sys_step a sys)) in Hin.
  apply IH in Hin.
  destruct (sys_step_cases a sys)
    as [(Hth & Htr & _)|(tid' & c & X & o & k & e' & s' & ans &
                         _ & Hth & _ & Hsys)].
  - rewrite Hth, Htr in Hin. exact Hin.
  - rewrite Hsys in Hin. cbn in Hin. rewrite length_insert in Hin.
    destruct Hin as [Hin|Hin]; [|right; exact Hin].
    apply elem_of_cons in Hin as [Heq|Hin]; [|left; exact Hin].
    injection Heq as -> ->. right. eapply lookup_lt_Some. exact Hth.
Qed.

Lemma exec_op_cancelled {X : Type} (c : choice) (s : Shared) (o : op X)
    e s' ans :
  exec_op c s o = (e, s', ans) ->
  (cancelled s = true -> cancelled s' = true) /\
  (is_stop e = true -> cancelled s' = true) /\
  (is_clear e = true -> cancelled s = false).
Proof.
  destruct o; cbn; intros Hex;
    try (injection Hex as <- <- <-; cbn;
         repeat split; (discriminate || auto; fail)).
  - injection Hex as <- <- <-. cbn. destruct (cancelled s); repeat split; auto.
  - destruct (store_blockId i id s) as [s1|] eqn:Hst.
    + apply store_blockId_Some in Hst as (l & _ & _ & ->).
      injection Hex as <- <- <-. cbn. repeat split; (discriminate || auto).
    + injection Hex as <- <- <-. cbn. repeat split; (discriminate || auto).
Qed.

Lemma sys_step_keeps_cancelled a sys :
  cancelled (shared sys) = true -> cancelled (shared (sys_step a sys)) = true.
Proof.
  intros Hc.
  destruct (sys_step_cases a sys)
    as [(_ & _ & [Hs|Hs])|(tid & c & X & o & k & e & s' & ans &
                          _ & _ & Hex & Hsys)].
  - rewrite Hs. exact Hc.
  - rewrite Hs. reflexivity.
  - rewrite Hsys. cbn.
    destruct (exec_op_cancelled _ _ _ _ _ _ Hex) as (H & _). exact (H Hc).
Qed.

Lemma run_thread_nil inputs p q : run_thread inputs p = ([], q) -> q = p.
Proof.
  destruct inputs as [|[c s] rest]; cbn; [congruence|].
  destruct p as [|X o k| |]; cbn; try congruence.
  destruct (exec_op c s o) as [[e s'] [x|]]; cbn.
  - destruct (run_thread rest (k x)). discriminate.
  - destruct rest as [|[? ?] ?]; cbn; discriminate.
Qed.

Lemma count_all_pos f tr :
  (0 < count_all f tr)%nat -> exists tid e, (tid, e) ∈ tr /\ f e = true.
Proof.
  induction tr as [|[tid e] tr IH]; [cbn; lia|].
  rewrite count_all_cons. destruct (f e) eqn:E.
  - intros _. exists tid, e. split; [apply elem_of_cons; left; reflexivity|].
    exact E.
  - intros H. destruct IH as (tid' & e' & Hin & Hf); [lia|].
    exists tid', e'. split; [apply elem_of_cons; right; exact Hin|exact Hf].
Qed.

Lemma in_count_all f tr tid e :
  (tid, e) ∈ tr -> f e = true -> (0 < count_all f tr)%nat.
Proof.
  induction tr as [|[tid' e'] tr IH]; intros Hin Hf.
  - apply elem_of_nil in Hin. contradiction.
  - rewrite count_all_cons. apply elem_of_cons in Hin as [Heq|Hin].
    + injection Heq as <- <-. rewrite Hf. lia.
    + specialize (IH Hin Hf). lia.
Qed.

Lemma count_all_le f g tr :
  (forall e, f e = true -> g e = true) ->
  (count_all f tr <= count_all g tr)%nat.
Proof.
  intros Hfg. induction tr as [|[tid e] tr IH]; [reflexivity|].
  rewrite !count_all_cons. specialize (Hfg e).
  destruct (f e), (g e); first [lia | discriminate (Hfg eq_refl)].
Qed.

Lemma count_all_by_one f tr tid0 :
  (forall tid e, (tid, e) ∈ tr -> f e = true -> tid = tid0) ->
  count_all f tr = count_of tid0 f tr.
Proof.
  induction tr as [|[tid e] tr IH]; intros H; [reflexivity|].
  rewrite count_all_cons, count_of_cons.
  rewrite IH.
  2: { intros tid' e' Hin. apply H. apply elem_of_cons. right. exact Hin. }
  destruct (f e) eqn:E; [|rewrite andb_false_r; reflexivity].
  rewrite (H tid e); [|apply elem_of_cons; left; reflexivity|exact E].
  rewrite Nat.eqb_refl. reflexivity.
Qed.

Lemma in_count_events (f : event -> bool) es e :
  e ∈ es -> f e = true -> (0 < count_events f es)%nat.
Proof.
  intros Hin Hf. apply count_events_pos. apply existsb_elem_of. eauto.
Qed.

(** *** The chunk functions of the pool *)

Section Pool.

Variable tr : TransferMsg.
Variable workerOf : nat -> Z.
Variable s1 : Shared.

Lemma pool_length sched : length (threads (pool tr workerOf s1 sched)) = length (channel s1).
Proof.
  unfold pool. rewrite run_system_length. cbn. apply length_imap.
Qed.

Lemma pool_tid_range sched tid e :
  (tid, e) ∈ trace (pool tr workerOf s1 sched) -> (tid < length (channel s1))%nat.
Proof.
  intros Hin. apply trace_tids_run in Hin as [Hin|Hin].
  - cbn in Hin. apply elem_of_nil in Hin. contradiction.
  - cbn in Hin. rewrite length_imap in Hin. exact Hin.
Qed.

Lemma pool_chunk_events sched tid :
  (tid < length (channel s1))%nat ->
  chunk_events_ok tr (proj tid (trace (pool tr workerOf s1 sched))).
Proof.
  intros Hlt. apply lookup_lt_is_Some in Hlt as [m Hm].
  destruct (pool_thread_prefix tr workerOf s1 sched tid m Hm)
    as (inputs & t & q & Hrun & _ & Hev).
  fold (pool tr workerOf s1 sched) in Hev. rewrite <- Hev.
  revert Hrun. apply forall_prefixes_sound with
    (P := fun t => chunk_events_ok tr (events t)).
  apply chunk_events_always.
Qed.

Lemma pool_proj_range sched tid :
  proj tid (trace (pool tr workerOf s1 sched)) <> [] -> (tid < length (channel s1))%nat.
Proof.
  intros Hne. destruct (proj tid (trace (pool tr workerOf s1 sched))) as [|e es] eqn:E;
    [contradiction|].
  apply (pool_tid_range sched tid e). apply elem_of_proj. rewrite E.
  apply elem_of_cons. left. reflexivity.
Qed.

(** Who releases the source has reported the transfer done. *)
Lemma pool_release_owner sched tid e :
  (tid, e) ∈ trace (pool tr workerOf s1 sched) -> is_Unmap e || is_Close e = true ->
  (tid, ETransferDone) ∈ trace (pool tr workerOf s1 sched) /\
  (tid, EUnmap) ∈ trace (pool tr workerOf s1 sched).
Proof.
  intros Hin He.
  pose proof (pool_chunk_events sched tid (pool_tid_range _ _ _ Hin))
    as (H1 & H2 & _).
  apply elem_of_proj in Hin.
  assert (0 < count_events is_Unmap (proj tid (trace (pool tr workerOf s1 sched))))%nat as Hu.
  { destruct (is_Unmap e) eqn:Eu.
    - eapply in_count_events; eauto.
    - cbn in He. pose proof (in_count_events is_Close _ e Hin He). lia. }
  split.
  - assert (0 < count_events is_TransferDone
                   (proj tid (trace (pool tr workerOf s1 sched))))%nat as Hd by lia.
    apply count_events_pos, existsb_elem_of in Hd as (e' & Hin' & He').
    destruct e'; try discriminate. apply elem_of_proj. exact Hin'.
  - apply count_events_pos, existsb_elem_of in Hu as (e' & Hin' & He').
    destruct e'; try discriminate. apply elem_of_proj. exact Hin'.
Qed.

End Pool.

Lemma all_counted_at_last total sys tid0 :
  SysInv total sys -> (tid0, EChunksDone total) ∈ trace sys ->
  forall tid, (tid < length (threads sys))%nat ->
    count_of tid is_ChunksDone (trace sys) = 1%nat.
Proof.
  intros (ms & [Hlen Hfol] & HI) Hin tid Hlt.
  apply (inv_last_by _ _ _ _ HI) in Hin as (m0 & Hm0 & Hg0).
  pose proof (cnt_ge1 got_last ms tid0 m0 Hm0 Hg0) as Hge.
  pose proof (inv_last _ _ _ _ HI) as Hlast.
  destruct (chunksDone (shared sys) =? total) eqn:E; [|lia].
  apply Z.eqb_eq in E.
  assert (cnt past_counter ms = Z.of_nat (length ms)) as Hfull.
  { rewrite <- (inv_counter _ _ _ _ HI), E. symmetry.
    apply (inv_len _ _ _ _ HI). }
  rewrite Hlen in Hlt. apply lookup_lt_is_Some in Hlt as [m Hm].
  rewrite (inv_counted _ _ _ _ HI tid m Hm).
  rewrite (cnt_full past_counter ms tid m Hfull Hm). reflexivity.
Qed.

Lemma count_of_le_all tid f tr : (count_of tid f tr <= count_all f tr)%nat.
Proof.
  induction tr as [|[j e] tr IH]; [reflexivity|].
  rewrite count_all_cons, count_of_cons.
  destruct (Nat.eqb j tid), (f e); cbn; lia.
Qed.

Lemma pool_SysInv tr fuel cs s0 s1 evs workerOf sched :
  chunked_transfer tr -> untouched s0 ->
  run_alone cs s0 (runPrologue tr fuel) = (evs, s1, Ret) ->
  SysInv (Int.uint32 (NumChunks tr)) (pool tr workerOf s1 sched).
Proof.
  intros Hct Hs0 Hrun. unfold pool. apply SysInv_run. apply SysInv_start.
  eapply prologue_chunked_start; eauto.
Qed.

(** X8.  However the workers interleave the chunk functions of a chunked
    transfer, the mapped view of the source is released and the source
    file closed at most once, by the chunk function whose increment gave
    the number of chunks and after it reported the transfer done; and
    exactly once when all chunk functions have returned. *)
Theorem source_released_exactly_once
    (tr : TransferMsg) (fuel : nat) (cs : list choice)
    (s0 s1 : Shared) (evs : list event) :
  chunked_transfer tr -> untouched s0 ->
  run_alone cs s0 (runPrologue tr fuel) = (evs, s1, Ret) ->
  forall (workerOf : nat -> Z) (sched : list action),
    let sys := pool tr workerOf s1 sched in
    (count_all is_Unmap (trace sys) <= 1)%nat /\
    (count_all is_Close (trace sys) <= 1)%nat /\
    (forall tid e, (tid, e) ∈ trace sys ->
       is_Unmap e || is_Close e = true ->
       (tid, EChunksDone (Int.uint32 (NumChunks tr))) ∈ trace sys /\
       (tid, ETransferDone) ∈ trace sys) /\
    (all_returned sys ->
       count_all is_Unmap (trace sys) = 1%nat /\
       count_all is_Close (trace sys) = 1%nat).
Proof.
  intros Hct Hs0 Hrun workerOf sched sys.
  pose proof (pool_SysInv tr fuel cs s0 s1 evs workerOf sched Hct Hs0 Hrun)
    as Hinv. fold sys in Hinv.
  pose proof (pool_finalizes_once _ _ Hinv)
    as (_ & _ & _ & Hby & _ & Huniq & Hall).
  assert (forall tid e, (tid, e) ∈ trace sys ->
            is_Unmap e || is_Close e = true ->
            (tid, EChunksDone (Int.uint32 (NumChunks tr))) ∈ trace sys /\
            (tid, ETransferDone) ∈ trace sys) as Hown.
  { intros tid e Hin He.
    destruct (pool_release_owner tr workerOf s1 sched tid e Hin He)
      as [Hd _].
    split; [apply Hby; exact Hd|exact Hd]. }
  assert (forall f : event -> bool,
            (forall e, f e = true -> is_Unmap e || is_Close e = true) ->
            (forall tid, (tid < length (channel s1))%nat ->
               (count_events f (proj tid (trace sys)) <= 1)%nat) ->
            (count_all f (trace sys) <= 1)%nat) as Hone.
  { intros f Hf Hcount.
    destruct (count_all f (trace sys)) as [|n] eqn:E; [lia|].
    rewrite <- E.
    destruct (count_all_pos f (trace sys)) as (tid0 & e0 & Hin0 & Hf0);
      [lia|].
    rewrite (count_all_by_one f _ tid0).
    - rewrite count_of_proj. apply Hcount.
      apply (pool_tid_range tr workerOf s1 sched tid0 e0 Hin0).
    - intros tid e Hin He. apply Huniq.
      + apply (Hown tid e Hin (Hf e He)).
      + apply (Hown tid0 e0 Hin0 (Hf e0 Hf0)). }
  assert (count_all is_Unmap (trace sys) <= 1)%nat as Hu.
  { apply Hone.
    - intros e ->. reflexivity.
    - intros tid Hlt.
      pose proof (pool_chunk_events tr workerOf s1 sched tid Hlt)
        as (H1 & _ & H3 & _).
      fold sys in H1, H3. lia. }
  assert (count_all is_Close (trace sys) <= 1)%nat as Hc.
  { apply Hone.
    - intros e ->. apply orb_true_r.
    - intros tid Hlt.
      pose proof (pool_chunk_events tr workerOf s1 sched tid Hlt)
        as (H1 & H2 & H3 & _).
      fold sys in H1, H2, H3. lia. }
  split; [exact Hu|]. split; [exact Hc|]. split; [exact Hown|].
  intros Hret. destruct (Hall Hret) as (Hd & _).
  destruct (count_all_pos is_TransferDone (trace sys))
    as (tid0 & e0 & Hin0 & He0); [lia|].
  pose proof (pool_tid_range tr workerOf s1 sched tid0 e0 Hin0) as Hlt.
  apply lookup_lt_is_Some in Hlt as [m Hm].
  destruct (pool_thread_prefix tr workerOf s1 sched tid0 m Hm)
    as (inputs & t & q & Ht & Hq & Hev).
  fold (pool tr workerOf s1 sched) in Hq, Hev. fold sys in Hq, Hev.
  unfold all_returned in Hret. rewrite Forall_lookup in Hret.
  rewrite (Hret tid0 q Hq) in Ht.
  pose proof (forall_runs_sound _ _ inputs t
                (chunk_releases_when_done tr _ _ _ _) Ht) as (E1 & E2).
  cbn beta in E1, E2.
  assert (0 < count is_TransferDone t)%nat as Hpos.
  { rewrite <- count_events_events, Hev.
    apply (in_count_events is_TransferDone _ e0); [|exact He0].
    apply elem_of_proj. exact Hin0. }
  pose proof (count_of_le_all tid0 is_Unmap (trace sys)) as L1.
  pose proof (count_of_le_all tid0 is_Close (trace sys)) as L2.
  rewrite count_of_proj, <- Hev, count_events_events in L1, L2.
  lia.
Qed.

Lemma source_released_exactly_once_witness :
  all_returned (pool sample_transfer Z.of_nat sample_start (round_robin 20)) /\
  count_all is_Unmap (trace (pool sample_transfer Z.of_nat sample_start (round_robin 20))) = 1%nat /\
  count_all is_Close (trace (pool sample_transfer Z.of_nat sample_start (round_robin 20))) = 1%nat.
Proof.
  assert (chunked_transfer sample_transfer) as H1
    by (vm_compute; repeat split; congruence).
  assert (untouched init_shared) as H2 by (vm_compute; repeat split).
  assert (run_alone (repeat quiet_choice 6) init_shared
            (runPrologue sample_transfer 4)
          = (fst (fst (run_alone (repeat quiet_choice 6) init_shared
                         (runPrologue sample_transfer 4))),
             sample_start, Ret)) as H3 by (vm_compute; reflexivity).
  pose proof (source_released_exactly_once sample_transfer 4
                (repeat quiet_choice 6) init_shared sample_start _
                H1 H2 H3 Z.of_nat (round_robin 20)) as H.
  cbv zeta in H. destruct H as (_ & _ & _ & Hall).
  assert (all_returned (pool sample_transfer Z.of_nat sample_start (round_robin 20))) as Hret
    by (vm_compute; repeat constructor).
  split; [exact Hret|exact (Hall Hret)].
Defined.


Lemma no_stage_after_unmap_split newer :
  forall tid older,
    no_stage_after_unmap (newer ++ (tid, EUnmap) :: older) ->
    forall tid' e, (tid', e) ∈ newer -> is_stage e = false.
Proof.
  induction newer as [|[j x] newer IH]; intros tid older H tid' e Hin.
  - apply elem_of_nil in Hin. contradiction.
  - cbn in H. destruct H as [Hx Hrest].
    apply elem_of_cons in Hin as [Heq|Hin].
    + injection Heq as -> ->. destruct (is_stage x) eqn:E; [|reflexivity].
      specialize (Hx eq_refl).
      pose proof (in_count_all is_Unmap (newer ++ (tid, EUnmap) :: older)
                    tid EUnmap) as Hpos.
      rewrite Hx in Hpos. exfalso.
      assert (0 < 0)%nat; [|lia]. apply Hpos; [|reflexivity].
      apply elem_of_app. right. apply elem_of_cons. left. reflexivity.
    + exact (IH tid older Hrest tid' e Hin).
Qed.

Lemma pool_no_stage_after_unmap tr workerOf s1 :
  chunked_start tr s1 ->
  forall sched, no_stage_after_unmap (trace (pool tr workerOf s1 sched)).
Proof.
  intros Hstart sched.
  induction sched as [|a sched IH] using rev_ind; [exact I|].
  assert (SysInv (Int.uint32 (NumChunks tr)) (pool tr workerOf s1 sched))
    as Hinv by (apply SysInv_run, SysInv_start; exact Hstart).
  pose proof (pool_chunk_events tr workerOf s1 (sched ++ [a])) as Hnew.
  unfold pool in Hnew |- *. rewrite run_system_snoc in Hnew |- *.
  fold (pool tr workerOf s1 sched) in Hnew |- *.
  set (old := pool tr workerOf s1 sched) in *.
  destruct (sys_step_cases a old)
    as [(_ & Htr & _)|(tid & c & X & o & k & e & s' & ans &
                       _ & Hth & _ & Hsys)].
  - rewrite Htr. exact IH.
  - rewrite Hsys in Hnew |- *. cbn [trace] in Hnew |- *.
    cbn [no_stage_after_unmap]. split; [|exact IH].
    intros Hstage.
    destruct (count_all is_Unmap (trace old)) as [|n] eqn:E; [reflexivity|].
    exfalso.
    destruct (count_all_pos is_Unmap (trace old))
      as (tid0 & e0 & Hin0 & He0); [lia|].
    destruct (pool_release_owner tr workerOf s1 sched tid0 e0 Hin0)
      as [Hd _]; [rewrite He0; reflexivity|].
    fold old in Hd.
    pose proof (pool_finalizes_once _ _ Hinv)
      as (_ & _ & _ & Hby & _).
    apply Hby in Hd.
    assert (tid < length (threads old))%nat as Hlt
      by (eapply lookup_lt_Some; exact Hth).
    pose proof (all_counted_at_last _ _ _ Hinv Hd tid Hlt) as Hcnt.
    unfold old in Hlt. rewrite pool_length in Hlt.
    destruct (Hnew tid Hlt) as (_ & _ & _ & H4 & _).
    rewrite proj_cons_same, none_after_snoc, Hstage in H4.
    rewrite count_of_proj in Hcnt.
    assert (existsb is_ChunksDone (proj tid (trace old)) = true) as Hex
      by (apply count_events_pos; lia).
    rewrite Hex in H4. cbn in H4. rewrite andb_false_r in H4.
    discriminate.
Qed.

(** X9.  However the workers interleave the chunk functions of a chunked
    transfer, no block is staged from the mapped view of the source after
    the view was released: in the trace of the pool, no chunk function
    calls [StageBlock] after the [Unmap] of any of them. *)
Theorem no_block_staged_after_release
    (tr : TransferMsg) (fuel : nat) (cs : list choice)
    (s0 s1 : Shared) (evs : list event) :
  chunked_transfer tr -> untouched s0 ->
  run_alone cs s0 (runPrologue tr fuel) = (evs, s1, Ret) ->
  forall (workerOf : nat -> Z) (sched : list action)
         (newer older : list (nat * event)) (tid : nat),
    trace (pool tr workerOf s1 sched) = newer ++ (tid, EUnmap) :: older ->
    forall tid' e, (tid', e) ∈ newer -> is_stage e = false.
Proof.
  intros Hct Hs0 Hrun workerOf sched newer older tid Htr.
  apply (no_stage_after_unmap_split newer tid older).
  rewrite <- Htr. apply pool_no_stage_after_unmap.
  eapply prologue_chunked_start; eauto.
Qed.

Lemma no_block_staged_after_release_witness :
  trace (pool sample_transfer Z.of_nat sample_start (round_robin 20)) =
    firstn 1 (trace (pool sample_transfer Z.of_nat sample_start (round_robin 20)))
    ++ (1%nat, EUnmap)
       :: skipn 2 (trace (pool sample_transfer Z.of_nat sample_start (round_robin 20))) /\
  (1%nat, EClose false)
    ∈ firstn 1 (trace (pool sample_transfer Z.of_nat sample_start (round_robin 20))) /\
  is_stage (EClose false) = false.
Proof.
  assert (chunked_transfer sample_transfer) as H1
    by (vm_compute; repeat split; congruence).
  assert (untouched init_shared) as H2 by (vm_compute; repeat split).
  assert (run_alone (repeat quiet_choice 6) init_shared
            (runPrologue sample_transfer 4)
          = (fst (fst (run_alone (repeat quiet_choice 6) init_shared
                         (runPrologue sample_transfer 4))),
             sample_start, Ret)) as H3 by (vm_compute; reflexivity).
  assert (trace (pool sample_transfer Z.of_nat sample_start (round_robin 20)) =
            firstn 1 (trace (pool sample_transfer Z.of_nat sample_start (round_robin 20)))
            ++ (1%nat, EUnmap)
               :: skipn 2 (trace (pool sample_transfer Z.of_nat sample_start (round_robin 20))))
    as H4 by (vm_compute; reflexivity).
  assert ((1%nat, EClose false)
            ∈ firstn 1 (trace (pool sample_transfer Z.of_nat sample_start (round_robin 20))))
    as H5 by (vm_compute; repeat constructor).
  split; [exact H4|]. split; [exact H5|].
  exact (no_block_staged_after_release sample_transfer 4
           (repeat quiet_choice 6) init_shared sample_start _
           H1 H2 H3 Z.of_nat (round_robin 20) _ _ 1%nat H4
           1%nat (EClose false) H5).
Defined.


(** X10.  Once the transfer is cancelled, by a chunk function or from outside, a
    chunk function of the pool that has not started yet performs no I/O
    when it runs: it stages no block, commits no block list, draws no
    block identifier, writes no slot, cancels nothing and sets no
    status, however the workers go on. *)
Theorem unstarted_chunk_idle_after_cancel
    (tr : TransferMsg) (workerOf : nat -> Z) (s : Shared)
    (before after : list action) (tid : nat) :
  cancelled (shared (pool tr workerOf s before)) = true ->
  proj tid (trace (pool tr workerOf s before)) = [] ->
  let sys := pool tr workerOf s (before ++ after) in
  count_of tid is_io (trace sys) = 0%nat /\
  count_of tid is_NewUUID (trace sys) = 0%nat /\
  count_of tid is_SetBlockId (trace sys) = 0%nat /\
  count_of tid is_cancel (trace sys) = 0%nat /\
  count_of tid is_status (trace sys) = 0%nat.
Proof.
  intros Hc Hnil sys.
  assert (sys = run_system after (pool tr workerOf s before)) as Hsys.
  { unfold sys, pool, run_system. apply fold_left_app. }
  destruct (channel s !! tid) as [m|] eqn:Hm.
  - destruct (pool_thread_prefix tr workerOf s before tid m Hm)
      as (inputs & t & q & Ht & Hq & Hev).
    fold (pool tr workerOf s before) in Hq, Hev.
    rewrite Hnil in Hev. apply map_eq_nil in Hev. subst t.
    apply run_thread_nil in Ht. subst q.
    destruct (pool_thread_run (fun x => cancelled x = true)
                sys_step_keeps_cancelled after
                (pool tr workerOf s before) tid _ Hq Hc)
      as (inputs2 & t2 & q2 & new & Ht2 & _ & Htr & Hev2 & Hpre).
    rewrite <- Hsys in Htr.
    assert (proj tid (trace sys) = events t2) as Hproj.
    { rewrite Htr, proj_app, Hnil, Hev2. reflexivity. }
    rewrite !count_of_proj, Hproj, !count_events_events.
    apply (forall_prefixes_sound _ _ inputs2 t2 q2
             (chunk_idle_when_cancelled tr _ _ _ _) Ht2).
    intros o Ho. destruct t2 as [|o' t2]; [discriminate|].
    injection Ho as <-. inversion Hpre; assumption.
  - assert (forall f, count_of tid f (trace sys) = 0%nat) as Hz.
    { intros f. destruct (count_of tid f (trace sys)) as [|n] eqn:E;
        [reflexivity|].
      destruct (count_of_pos tid f (trace sys)) as [e He]; [lia|].
      apply pool_tid_range in He. apply lookup_ge_None in Hm. lia. }
    rewrite !Hz. repeat split.
Qed.

Lemma unstarted_chunk_idle_after_cancel_witness :
  cancelled (shared (pool sample_transfer Z.of_nat sample_start
                       failing_first)) = true /\
  proj 1 (trace (pool sample_transfer Z.of_nat sample_start
                   failing_first)) = [] /\
  count_of 1 is_io
    (trace (pool sample_transfer Z.of_nat sample_start
              (failing_first ++ round_robin 20))) = 0%nat.
Proof.
  assert (cancelled (shared (pool sample_transfer Z.of_nat sample_start
                               failing_first)) = true) as H1
    by (vm_compute; reflexivity).
  assert (proj 1 (trace (pool sample_transfer Z.of_nat sample_start
                           failing_first)) = []) as H2
    by (vm_compute; reflexivity).
  pose proof (unstarted_chunk_idle_after_cancel sample_transfer Z.of_nat
                sample_start failing_first (round_robin 20) 1%nat H1 H2)
    as H.
  cbv zeta in H. destruct H as (H & _).
  split; [exact H1|]. split; [exact H2|exact H].
Defined.


(** *** The block list is committed only when every block was staged *)

Lemma existsb_snoc (f : event -> bool) l e :
  existsb f l = true -> existsb f (l ++ [e]) = true.
Proof.
  intros H. rewrite existsb_app, H. reflexivity.
Qed.

Lemma proj_step_mono (f : event -> bool) tid tid' e tr :
  existsb f (proj tid tr) = true ->
  existsb f (proj tid ((tid', e) :: tr)) = true.
Proof.
  intros H. destruct (Nat.eq_dec tid' tid) as [->|Hne].
  - rewrite proj_cons_same. apply existsb_snoc. exact H.
  - rewrite proj_cons_other by exact Hne. exact H.
Qed.

Lemma pool_commit_inv tr workerOf s1 :
  chunked_start tr s1 ->
  forall sched,
    let sys := pool tr workerOf s1 sched in
    ((0 < count_all is_stop (trace sys))%nat ->
     cancelled (shared sys) = true) /\
    (forall tid, cleared (proj tid (trace sys)) = true ->
       count_all is_cancel (trace sys) = 0%nat /\
       forall tid', (tid' < length (channel s1))%nat ->
         existsb is_staged (proj tid' (trace sys)) = true).
Proof.
  intros Hstart sched.
  induction sched as [|a sched IH] using rev_ind.
  { cbn. split; [lia|]. intros tid H. discriminate. }
  cbv zeta in IH |- *. destruct IH as [IH1 IH2].
  assert (SysInv (Int.uint32 (NumChunks tr)) (pool tr workerOf s1 sched))
    as Hinv by (apply SysInv_run, SysInv_start; exact Hstart).
  pose proof (pool_chunk_events tr workerOf s1 sched) as Hold.
  pose proof (pool_chunk_events tr workerOf s1 (sched ++ [a])) as Hnew.
  pose proof (pool_proj_range tr workerOf s1 sched) as Hrange.
  pose proof (pool_proj_range tr workerOf s1 (sched ++ [a])) as Hrange'.
  pose proof (pool_length tr workerOf s1 sched) as Hlen.
  unfold pool in Hnew, Hrange' |- *.
  rewrite run_system_snoc in Hnew, Hrange' |- *.
  fold (pool tr workerOf s1 sched) in Hnew, Hrange' |- *.
  set (old := pool tr workerOf s1 sched) in *.
  destruct (sys_step_cases a old)
    as [(_ & Htr & Hsh)|(tid & c & X & o & k & e & s' & ans &
                         _ & Hth & Hex & Hsys)].
  - rewrite Htr. split; [|exact IH2].
    intros Hpos. destruct Hsh as [->| ->]; [auto|reflexivity].
  - rewrite Hsys in Hnew, Hrange' |- *. cbn [trace shared] in *.
    destruct (exec_op_cancelled _ _ _ _ _ _ Hex) as (Hmono & Hstop & Hclear).
    assert (tid < length (channel s1))%nat as Htid.
    { rewrite <- Hlen. eapply lookup_lt_Some. exact Hth. }
    split.
    + rewrite count_all_cons. destruct (is_stop e) eqn:Es; [auto|].
      intros Hpos. apply Hmono, IH1. lia.
    + intros tid' Hcl.
      assert (tid' < length (channel s1))%nat as Htid'.
      { apply Hrange'. intros E. rewrite E in Hcl. discriminate. }
      destruct (cleared (proj tid' (trace old))) eqn:Eold.
      * destruct (IH2 tid' Eold) as [Hnc Hst].
        split.
        -- rewrite count_all_cons, Hnc.
           destruct (is_cancel e) eqn:Ec; [exfalso|reflexivity].
           destruct (Hold tid' Htid') as (_ & _ & _ & _ & _ & _ & H7 & _).
           specialize (H7 Eold). apply elem_of_proj in H7.
           assert (tid < length (threads old))%nat as Hlt
             by (eapply lookup_lt_Some; exact Hth).
           pose proof (all_counted_at_last _ _ _ Hinv H7 tid Hlt) as Hcnt.
           rewrite count_of_proj in Hcnt.
           assert (existsb is_ChunksDone (proj tid (trace old)) = true)
             as Hcd by (apply count_events_pos; lia).
           destruct (Hnew tid Htid) as (_ & _ & _ & _ & H5 & _).
           rewrite proj_cons_same, none_after_snoc, Ec, Hcd in H5.
           cbn in H5. rewrite andb_false_r in H5. discriminate.
        -- intros j Hj. apply proj_step_mono. exact (Hst j Hj).
      * destruct (Nat.eq_dec tid tid') as [<-|Hne];
          [|rewrite proj_cons_other, Eold in Hcl by exact Hne; discriminate].
        pose proof Hcl as Hcl'.
        rewrite proj_cons_same, cleared_snoc, Eold in Hcl'. cbn in Hcl'.
        apply andb_true_iff in Hcl' as [Hcd Hcle].
        specialize (Hclear Hcle).
        assert (count_all is_stop (trace old) = 0%nat) as Hns.
        { destruct (count_all is_stop (trace old)) eqn:E; [reflexivity|].
          rewrite IH1 in Hclear by lia. discriminate. }
        split.
        -- rewrite count_all_cons.
           assert (is_cancel e = false) as ->
             by (destruct e; try discriminate; reflexivity).
           pose proof (count_all_le is_cancel is_stop (trace old)) as Hle.
           cbn. rewrite Hns in Hle. apply Nat.le_0_r. apply Hle.
           intros x Hx. destruct x; try discriminate. reflexivity.
        -- intros j Hj. apply proj_step_mono.
           destruct (Hnew tid Htid) as (_ & _ & _ & _ & _ & _ & H7 & _).
           specialize (H7 Hcl). rewrite proj_cons_same in H7.
           apply elem_of_app in H7 as [H7|H7].
           2: { apply elem_of_cons in H7 as [H7|H7];
                  [subst e; discriminate Hcle|].
                apply elem_of_nil in H7. contradiction. }
           apply elem_of_proj in H7.
           assert (j < length (threads old))%nat as Hlt by lia.
           pose proof (all_counted_at_last _ _ _ Hinv H7 j Hlt) as Hcnt.
           rewrite count_of_proj in Hcnt.
           destruct (Hold j Hj) as (_ & _ & _ & _ & _ & _ & _ & H8).
           apply H8; [apply count_events_pos; lia|].
           destruct (existsb is_stop (proj j (trace old))) eqn:Est;
             [exfalso|reflexivity].
           apply existsb_elem_of in Est as (x & Hx & Hsx).
           apply elem_of_proj in Hx.
           pose proof (in_count_all is_stop _ j x Hx Hsx). lia.
Qed.

(** X11.  However the workers interleave the chunk functions of a chunked
    transfer, the block list is committed only when every chunk function
    staged its block without error and none of them cancelled the
    transfer; and no chunk function cancels it afterwards. *)
Theorem commit_only_when_all_staged
    (tr : TransferMsg) (fuel : nat) (cs : list choice)
    (s0 s1 : Shared) (evs : list event) :
  chunked_transfer tr -> untouched s0 ->
  run_alone cs s0 (runPrologue tr fuel) = (evs, s1, Ret) ->
  forall (workerOf : nat -> Z) (sched : list action),
    let sys := pool tr workerOf s1 sched in
    forall tid ids err, (tid, ECommitBlockList ids err) ∈ trace sys ->
      count_all is_cancel (trace sys) = 0%nat /\
      forall tid', (tid' < length (threads sys))%nat ->
        exists id start len,
          (tid', EStageBlock id start len false) ∈ trace sys.
Proof.
  intros Hct Hs0 Hrun workerOf sched sys tid ids err Hin.
  pose proof (prologue_chunked_start _ _ _ _ _ _ Hct Hs0 Hrun) as Hstart.
  destruct (pool_commit_inv tr workerOf s1 Hstart sched) as [_ Hinv].
  fold sys in Hinv.
  pose proof (pool_tid_range _ _ _ _ _ _ Hin) as Htid.
  destruct (pool_chunk_events tr workerOf s1 sched tid Htid)
    as (_ & _ & _ & _ & _ & H6 & _).
  fold sys in H6.
  destruct (Hinv tid) as [Hnc Hst].
  { apply H6. apply existsb_elem_of. exists (ECommitBlockList ids err).
    split; [apply elem_of_proj; exact Hin|reflexivity]. }
  split; [exact Hnc|].
  intros tid' Hlt. unfold sys in Hlt. rewrite pool_length in Hlt.
  specialize (Hst tid' Hlt).
  apply existsb_elem_of in Hst as (x & Hx & Hsx).
  apply elem_of_proj in Hx.
  destruct x as [| | | | | | | | | | | | | |id start len [|]| | | | | |];
    try discriminate.
  exists id, start, len. exact Hx.
Qed.

Lemma commit_only_when_all_staged_witness :
  (1%nat,
   ECommitBlockList
     (the_blockIds (shared (pool sample_transfer Z.of_nat sample_start (round_robin 20))))
     false)
    ∈ trace (pool sample_transfer Z.of_nat sample_start (round_robin 20)) /\
  count_all is_cancel (trace (pool sample_transfer Z.of_nat sample_start (round_robin 20))) = 0%nat /\
  exists id start len,
    (2%nat, EStageBlock id start len false)
      ∈ trace (pool sample_transfer Z.of_nat sample_start (round_robin 20)).
Proof.
  assert (chunked_transfer sample_transfer) as H1
    by (vm_compute; repeat split; congruence).
  assert (untouched init_shared) as H2 by (vm_compute; repeat split).
  assert (run_alone (repeat quiet_choice 6) init_shared
            (runPrologue sample_transfer 4)
          = (fst (fst (run_alone (repeat quiet_choice 6) init_shared
                         (runPrologue sample_transfer 4))),
             sample_start, Ret)) as H3 by (vm_compute; reflexivity).
  assert ((1%nat,
           ECommitBlockList
             (the_blockIds (shared (pool sample_transfer Z.of_nat sample_start (round_robin 20))))
             false)
            ∈ trace (pool sample_transfer Z.of_nat sample_start (round_robin 20)))
    as H4 by (vm_compute; repeat constructor).
  assert (2 < length (threads (pool sample_transfer Z.of_nat sample_start (round_robin 20))))%nat
    as H5 by (vm_compute; lia).
  pose proof (commit_only_when_all_staged sample_transfer 4
                (repeat quiet_choice 6) init_shared sample_start _
                H1 H2 H3 Z.of_nat (round_robin 20)) as H.
  cbv zeta in H. specialize (H 1%nat _ false H4). destruct H as [Hn Hs].
  split; [exact H4|]. split; [exact Hn|exact (Hs 2%nat H5)].
Defined.


(** *** The status of the transfer *)

Lemma chunk_status_always tr chunkId len start w :
  forall_prefixes (generateUploadFunc tr chunkId len start w)
    (fun t => chunk_status_ok (events t)).
Proof.
  unfold generateUploadFunc, finalizeIfLast, transferDone.
  prefix_all.
  all: unfold chunk_status_ok; cbn.
  all: repeat split; try lia; try reflexivity; try (intros; discriminate).
Qed.

(** A chunk function that cancelled the transfer and has returned set the
    status [TransferFailed]. *)
Lemma chunk_cancel_sets_failed tr chunkId len start w :
  forall_runs (generateUploadFunc tr chunkId len start w)
    (fun t => (0 < count is_cancel t)%nat ->
              existsb is_failed (events t) = true).
Proof.
  unfold generateUploadFunc, finalizeIfLast, transferDone.
  run_all. all: cbn; intros; first [reflexivity | lia].
Qed.

Lemma exec_op_status {X : Type} (c : choice) (s : Shared) (o : op X)
    e s' ans :
  exec_op c s o = (e, s', ans) ->
  status s' = match e with ETransferStatus v => v | _ => status s end.
Proof.
  destruct o; cbn; intros Hex;
    try (injection Hex as <- <- <-; reflexivity).
  destruct (store_blockId i id s) as [s1|] eqn:Hst.
  - apply store_blockId_Some in Hst as (l & _ & _ & ->).
    injection Hex as <- <- <-. reflexivity.
  - injection Hex as <- <- <-. reflexivity.
Qed.

Lemma pool_status tr workerOf s1 sched :
  status (shared (pool tr workerOf s1 sched)) =
    last_status (trace (pool tr workerOf s1 sched)) (status s1).
Proof.
  induction sched as [|a sched IH] using rev_ind; [reflexivity|].
  unfold pool in *. rewrite run_system_snoc.
  set (old := run_system sched (start_workers tr workerOf s1)) in *.
  destruct (sys_step_cases a old)
    as [(_ & Htr & Hsh)|(tid & c & X & o & k & e & s' & ans &
                         _ & _ & Hex & Hsys)].
  - rewrite Htr, <- IH. destruct Hsh as [->| ->]; reflexivity.
  - rewrite Hsys. cbn [shared trace].
    rewrite (exec_op_status _ _ _ _ _ _ Hex), IH.
    destruct e; reflexivity.
Qed.

Lemma last_status_all tr d w :
  (forall tid v, (tid, ETransferStatus v) ∈ tr -> v = w) ->
  (exists tid, (tid, ETransferStatus w) ∈ tr) ->
  last_status tr d = w.
Proof.
  induction tr as [|[j e] tr IH]; intros Hall [tid Hin].
  - apply elem_of_nil in Hin. contradiction.
  - assert (forall v, e = ETransferStatus v -> v = w) as Hhead.
    { intros v ->. apply (Hall j). apply elem_of_cons. left. reflexivity. }
    assert (last_status tr d = w \/ exists v, e = ETransferStatus v) as Hor.
    { apply elem_of_cons in Hin as [Heq|Hin].
      - injection Heq as _ <-. right. eauto.
      - left. apply IH; [|eauto].
        intros tid' v Hv. apply (Hall tid'). apply elem_of_cons. right.
        exact Hv. }
    destruct e; cbn;
      try (destruct Hor as [Hl|[v' Hv']]; [exact Hl|discriminate Hv']).
    apply Hhead. reflexivity.
Qed.

Lemma status_once_same es v w :
  (count_events is_status es <= 1)%nat ->
  ETransferStatus v ∈ es -> ETransferStatus w ∈ es -> v = w.
Proof.
  unfold count_events. induction es as [|y es IH]; intros Hc Hv Hw.
  - apply elem_of_nil in Hv. contradiction.
  - cbn in Hc. apply elem_of_cons in Hv, Hw.
    assert (is_status y = true -> forall e, e ∈ es -> is_status e = false)
      as Hno.
    { intros Hy e He. rewrite Hy in Hc. cbn in Hc.
      destruct (is_status e) eqn:Ee; [|reflexivity].
      pose proof (in_count_events is_status es e He Ee) as Hp.
      unfold count_events in Hp. lia. }
    destruct Hv as [<-|Hv], Hw as [Hw|Hw].
    + congruence.
    + discriminate (Hno eq_refl _ Hw).
    + subst y. discriminate (Hno eq_refl _ Hv).
    + apply IH; [|exact Hv|exact Hw].
      destruct (is_status y); cbn in Hc; lia.
Qed.

(** X12.  However the workers interleave the chunk functions of a chunked
    transfer: once a chunk function has set the status
    [TransferComplete], that is the only status any of them sets and the
    status of the transfer; when a chunk function cancelled the transfer
    and all have returned, the status of the transfer is
    [TransferFailed]; and while none has set a status, the status is the
    one the prologue left. *)
Theorem transfer_status_settles
    (tr : TransferMsg) (fuel : nat) (cs : list choice)
    (s0 s1 : Shared) (evs : list event) :
  chunked_transfer tr -> untouched s0 ->
  run_alone cs s0 (runPrologue tr fuel) = (evs, s1, Ret) ->
  forall (workerOf : nat -> Z) (sched : list action),
    let sys := pool tr workerOf s1 sched in
    (forall tid, (tid, ETransferStatus TransferComplete) ∈ trace sys ->
       status (shared sys) = TransferComplete /\
       count_all is_status (trace sys) = 1%nat) /\
    (all_returned sys -> (0 < count_all is_cancel (trace sys))%nat ->
       status (shared sys) = TransferFailed) /\
    (count_all is_status (trace sys) = 0%nat ->
       status (shared sys) = status s1).
Proof.
  intros Hct Hs0 Hrun workerOf sched sys.
  pose proof (prologue_chunked_start _ _ _ _ _ _ Hct Hs0 Hrun) as Hstart.
  assert (SysInv (Int.uint32 (NumChunks tr)) sys) as Hinv
    by (apply SysInv_run, SysInv_start; exact Hstart).
  pose proof (pool_finalizes_once _ _ Hinv)
    as (_ & _ & _ & _ & Hcby & Huniq & _).
  destruct (pool_commit_inv tr workerOf s1 Hstart sched) as [_ Hcinv].
  fold sys in Hcinv.
  assert (forall tid, (tid < length (channel s1))%nat ->
            chunk_status_ok (proj tid (trace sys))) as Hst.
  { intros tid Hlt. apply lookup_lt_is_Some in Hlt as [m Hm].
    destruct (pool_thread_prefix tr workerOf s1 sched tid m Hm)
      as (inputs & t & q & Ht & _ & Hev).
    fold (pool tr workerOf s1 sched) in Hev. fold sys in Hev.
    rewrite <- Hev. revert Ht.
    apply forall_prefixes_sound with
      (P := fun t => chunk_status_ok (events t)).
    apply chunk_status_always. }
  assert (forall tid, existsb is_commit (proj tid (trace sys)) = true ->
            (tid, EChunksDone (Int.uint32 (NumChunks tr))) ∈ trace sys /\
            count_all is_cancel (trace sys) = 0%nat) as Hcommit.
  { intros tid Hc. pose proof Hc as Hc'.
    apply existsb_elem_of in Hc' as (x & Hx & Hcx).
    apply elem_of_proj in Hx.
    pose proof (pool_tid_range _ _ _ _ _ _ Hx) as Hlt.
    destruct x; try discriminate. split; [exact (Hcby _ _ _ Hx)|].
    destruct (pool_chunk_events tr workerOf s1 sched tid Hlt)
      as (_ & _ & _ & _ & _ & H6 & _).
    fold sys in H6. exact (proj1 (Hcinv tid (H6 Hc))). }
  split; [|split].
  - intros tid Hin.
    pose proof (pool_tid_range _ _ _ _ _ _ Hin) as Hlt.
    destruct (Hst tid Hlt) as (S1 & _ & S3 & _).
    assert (existsb is_complete (proj tid (trace sys)) = true) as Hcomp.
    { apply existsb_elem_of. eexists. split; [apply elem_of_proj, Hin|].
      reflexivity. }
    destruct (Hcommit tid (S3 Hcomp)) as [Hlast Hnc].
    assert (count_all is_status (trace sys) = 1%nat) as Hone.
    { rewrite (count_all_by_one is_status _ tid).
      - rewrite count_of_proj.
        pose proof (in_count_events is_status _ _
                      (proj2 (elem_of_proj _ _ _) Hin) eq_refl). lia.
      - intros tid' e Hin' He. apply Huniq; [|exact Hlast].
        pose proof (pool_tid_range _ _ _ _ _ _ Hin') as Hlt'.
        destruct (Hst tid' Hlt') as (_ & T2 & _).
        assert (existsb is_status (proj tid' (trace sys)) = true) as Hs.
        { apply existsb_elem_of. exists e.
          split; [apply elem_of_proj, Hin'|exact He]. }
        specialize (T2 Hs). apply orb_true_iff in T2 as [T2|T2].
        + apply existsb_elem_of in T2 as (x & Hx & Hcx).
          apply elem_of_proj in Hx.
          pose proof (in_count_all is_cancel _ _ _ Hx Hcx). lia.
        + apply (Hcommit tid' T2). }
    split; [|exact Hone].
    unfold sys. rewrite pool_status. fold sys.
    apply last_status_all; [|eauto].
    intros tid' v Hv.
    destruct (decide (v = TransferComplete)) as [->|Hne]; [reflexivity|].
    exfalso.
    assert (tid' = tid) as ->.
    { apply Huniq; [|exact Hlast].
      pose proof (pool_tid_range _ _ _ _ _ _ Hv) as Hlt'.
      destruct (Hst tid' Hlt') as (_ & T2 & _).
      assert (existsb is_status (proj tid' (trace sys)) = true) as Hs.
      { apply existsb_elem_of. eexists.
        split; [apply elem_of_proj, Hv|reflexivity]. }
      specialize (T2 Hs). apply orb_true_iff in T2 as [T2|T2].
      + apply existsb_elem_of in T2 as (x & Hx & Hcx).
        apply elem_of_proj in Hx.
        pose proof (in_count_all is_cancel _ _ _ Hx Hcx). lia.
      + apply (Hcommit tid' T2). }
    apply elem_of_proj in Hin, Hv.
    exact (Hne (status_once_same _ _ _ S1 Hv Hin)).
  - intros Hret Hpos.
    destruct (count_all_pos is_cancel (trace sys) Hpos)
      as (tid0 & e0 & Hin0 & He0).
    pose proof (pool_tid_range _ _ _ _ _ _ Hin0) as Hlt0.
    unfold sys at 1. rewrite pool_status. fold sys.
    apply last_status_all.
    + intros tid v Hv.
      pose proof (pool_tid_range _ _ _ _ _ _ Hv) as Hlt.
      destruct (Hst tid Hlt) as (_ & _ & S3 & S4).
      rewrite forallb_forall in S4.
      apply elem_of_proj, list_elem_of_In in Hv.
      pose proof (S4 _ Hv) as Hk. cbn in Hk.
      destruct v; try discriminate; [exfalso|reflexivity].
      assert (existsb is_complete (proj tid (trace sys)) = true) as Hcomp.
      { apply existsb_exists. eexists. split; [exact Hv|reflexivity]. }
      destruct (Hcommit tid (S3 Hcomp)) as [_ Hnc]. lia.
    + exists tid0.
      apply lookup_lt_is_Some in Hlt0 as [m Hm].
      destruct (pool_thread_prefix tr workerOf s1 sched tid0 m Hm)
        as (inputs & t & q & Ht & Hq & Hev).
      fold (pool tr workerOf s1 sched) in Hq, Hev. fold sys in Hq, Hev.
      unfold all_returned in Hret. rewrite Forall_lookup in Hret.
      rewrite (Hret tid0 q Hq) in Ht.
      pose proof (forall_runs_sound _ _ inputs t
                    (chunk_cancel_sets_failed tr _ _ _ _) Ht) as Hf.
      cbn beta in Hf. rewrite Hev in Hf.
      rewrite <- count_events_events, Hev in Hf.
      apply elem_of_proj in Hin0.
      specialize (Hf (in_count_events is_cancel _ e0 Hin0 He0)).
      apply existsb_elem_of in Hf as (x & Hx & Hfx).
      apply elem_of_proj in Hx.
      destruct x as [| | | | | | | |v| | | | | | | | | | | |];
        try discriminate.
      destruct v; try discriminate. exact Hx.
  - intros Hz. unfold sys at 1. rewrite pool_status. fold sys.
    clear -Hz. induction (trace sys) as [|[j e] l IH]; [reflexivity|].
    rewrite count_all_cons in Hz.
    destruct e; cbn in Hz |- *; try discriminate; apply IH; lia.
Qed.

Lemma transfer_status_settles_witness :
  ((1%nat, ETransferStatus TransferComplete)
     ∈ trace (pool sample_transfer Z.of_nat sample_start (round_robin 20)) /\
   status (shared (pool sample_transfer Z.of_nat sample_start (round_robin 20)))
     = TransferComplete) /\
  (all_returned
     (pool sample_transfer Z.of_nat sample_start
       (failing_first ++ round_robin 20)) /\
   (0 < count_all is_cancel
          (trace (pool sample_transfer Z.of_nat sample_start
       (failing_first ++ round_robin 20))))%nat /\
   status (shared
     (pool sample_transfer Z.of_nat sample_start
       (failing_first ++ round_robin 20)))
     = TransferFailed).
Proof.
  assert (chunked_transfer sample_transfer) as H1
    by (vm_compute; repeat split; congruence).
  assert (untouched init_shared) as H2 by (vm_compute; repeat split).
  assert (run_alone (repeat quiet_choice 6) init_shared
            (runPrologue sample_transfer 4)
          = (fst (fst (run_alone (repeat quiet_choice 6) init_shared
                         (runPrologue sample_transfer 4))),
             sample_start, Ret)) as H3 by (vm_compute; reflexivity).
  pose proof (transfer_status_settles sample_transfer 4
                (repeat quiet_choice 6) init_shared sample_start _
                H1 H2 H3 Z.of_nat (round_robin 20)) as Ha.
  pose proof (transfer_status_settles sample_transfer 4
                (repeat quiet_choice 6) init_shared sample_start _
                H1 H2 H3 Z.of_nat (failing_first ++ round_robin 20)) as Hb.
  cbv zeta in Ha, Hb.
  destruct Ha as (Ha & _). destruct Hb as (_ & Hb & _).
  assert ((1%nat, ETransferStatus TransferComplete)
            ∈ trace (pool sample_transfer Z.of_nat sample_start (round_robin 20)))
    as H4 by (vm_compute; repeat constructor).
  assert (all_returned
     (pool sample_transfer Z.of_nat sample_start
       (failing_first ++ round_robin 20)))
    as H5 by (vm_compute; repeat constructor).
  assert (0 < count_all is_cancel
          (trace (pool sample_transfer Z.of_nat sample_start
       (failing_first ++ round_robin 20))))%nat
    as H6 by (vm_compute; lia).
  split.
  - split; [exact H4|exact (proj1 (Ha 1%nat H4))].
  - split; [exact H5|]. split; [exact H6|exact (Hb H5 H6)].
Defined.

